(** * Word counter: a shallow embedding of [backend/app.py]

    The analysed module counts search terms, or the most frequent words,
    in a text.  Python strings are sequences of Unicode code points, so a
    string is a list of code points here; the regular expressions of the
    source are terms of a small regex type that are run by a backtracking
    matcher with the greedy, leftmost semantics of Python's [re] module;
    dictionaries are association lists in insertion order; exceptions are
    an explicit outcome. *)

From Stdlib Require Import String Ascii.
From Stdlib Require Import List NArith Arith Bool Lia.
From Stdlib Require Import Sorted Permutation.
Import ListNotations.

Set Implicit Arguments.

(** ** Strings *)

Definition codepoint := N.
Bind Scope N_scope with codepoint.
Definition str := list codepoint.

(** ASCII literals of the development: the code points of a string whose
    characters are all below 128. *)
Fixpoint u (s : string) : str :=
  match s with
  | EmptyString => []
  | String a s' => N_of_ascii a :: u s'
  end.

Definition in_range (lo hi c : codepoint) : bool :=
  (N.leb lo c && N.leb c hi)%bool.

(** [str.isspace] on one code point, which is also the class [\s] of a
    [str] pattern: both test [Py_UNICODE_ISSPACE]. *)
Definition is_space (c : codepoint) : bool :=
  (in_range 9 13 c || in_range 28 32 c || (c =? 133) || (c =? 160)
   || (c =? 5760) || in_range 8192 8202 c || (c =? 8232) || (c =? 8233)
   || (c =? 8239) || (c =? 8287) || (c =? 12288))%bool%N.

Fixpoint lstrip (s : str) : str :=
  match s with
  | [] => []
  | c :: s' => if is_space c then lstrip s' else s
  end.

Definition rstrip (s : str) : str := rev (lstrip (rev s)).

(** [s.strip()] *)
Definition strip (s : str) : str := rstrip (lstrip s).

Definition str_eqb (a b : str) : bool :=
  if list_eq_dec N.eq_dec a b then true else false.

(** Python compares strings code point by code point. *)
Fixpoint str_ltb (a b : str) : bool :=
  match a, b with
  | [], [] => false
  | [], _ :: _ => true
  | _ :: _, [] => false
  | x :: a', y :: b' =>
      if N.ltb x y then true
      else if N.eqb x y then str_ltb a' b' else false
  end.

Definition str_leb (a b : str) : bool := negb (str_ltb b a).

(** ** [str.lower]

    The Unicode case mapping is a table of the interpreter, not of this
    module.  It is an interface with the three facts the module relies
    on: on ASCII text it maps [A-Z] to [a-z] and nothing else, it never
    deletes a string, and it keeps an alphabet character an alphabet
    character. *)

Definition is_ascii (c : codepoint) : bool := (c <? 128)%N.

Definition ascii_lower_char (c : codepoint) : codepoint :=
  if in_range 65 90 c then (c + 32)%N else c.

(** The token alphabet [0-9A-Za-z] and the Hangul syllables U+AC00..U+D7A3. *)
Definition is_alnum (c : codepoint) : bool :=
  (in_range 48 57 c || in_range 65 90 c || in_range 97 122 c
   || in_range 44032 55203 c)%bool.

Class Lower := {
  lower : str -> str;
  lower_ascii : forall s, forallb is_ascii s = true ->
                          lower s = map ascii_lower_char s;
  lower_nil_inv : forall s, lower s = [] -> s = [];
  lower_alnum : forall s, existsb is_alnum s = true ->
                          existsb is_alnum (lower s) = true
}.

(** ** Regular expressions *)

Inductive item :=
| Ch (c : codepoint)            (* a literal member of a set *)
| Rng (lo hi : codepoint)       (* [lo-hi] *)
| CatSpace.                     (* \s inside a set *)

Inductive cclass :=
| OneOf (items : list item)     (* [...] *)
| NoneOf (items : list item).   (* [^...] *)

Inductive regex :=
| Eps                           (* the empty pattern *)
| Lit (c : codepoint)           (* an escaped or ordinary literal *)
| Cls (cl : cclass)
| Seq (r1 r2 : regex)
| Star (r : regex)              (* greedy r* *)
| NotBehind (cl : cclass)       (* (?<!c) for a one-character c *)
| NotAhead (cl : cclass).       (* (?!c) for a one-character c *)

(** Greedy [r+]. *)
Definition Plus (r : regex) : regex := Seq r (Star r).

Definition item_mem (i : item) (c : codepoint) : bool :=
  match i with
  | Ch x => N.eqb c x
  | Rng lo hi => in_range lo hi c
  | CatSpace => is_space c
  end.

Definition class_mem (cl : cclass) (c : codepoint) : bool :=
  match cl with
  | OneOf items => existsb (fun i => item_mem i c) items
  | NoneOf items => negb (existsb (fun i => item_mem i c) items)
  end.

(** A continuation receives the character before the current position
    and the rest of the subject, and answers with the rest of the subject
    after the whole match. *)
Definition cont := option codepoint -> str -> option str.

(** Greedy iteration: one more round of [m] first, the continuation when
    that fails.  A round must consume input. *)
Fixpoint star_loop (m : cont -> cont) (k : cont) (fuel : nat)
         (prev : option codepoint) (s : str) : option str :=
  match fuel with
  | O => k prev s
  | S fuel' =>
      match m (fun prev' s' =>
                 if Nat.ltb (length s') (length s)
                 then star_loop m k fuel' prev' s' else None) prev s with
      | Some rest => Some rest
      | None => k prev s
      end
  end.

Fixpoint rmatch (r : regex) (k : cont) (prev : option codepoint) (s : str)
  : option str :=
  match r with
  | Eps => k prev s
  | Lit c =>
      match s with
      | x :: s' => if N.eqb x c then k (Some x) s' else None
      | [] => None
      end
  | Cls cl =>
      match s with
      | x :: s' => if class_mem cl x then k (Some x) s' else None
      | [] => None
      end
  | Seq r1 r2 => rmatch r1 (rmatch r2 k) prev s
  | Star r1 => star_loop (rmatch r1) k (length s) prev s
  | NotBehind cl =>
      match prev with
      | Some x => if class_mem cl x then None else k prev s
      | None => k prev s
      end
  | NotAhead cl =>
      match s with
      | x :: _ => if class_mem cl x then None else k prev s
      | [] => k prev s
      end
  end.

(** The match of [r] that starts at the current position, as the rest of
    the subject after it. *)
Definition match_at (r : regex) (prev : option codepoint) (s : str)
  : option str :=
  rmatch r (fun _ rest => Some rest) prev s.

(** [re.finditer]: the matches from left to right with their start
    positions, each search resuming where the previous match ended.
    [pos] is the current position, [prev] the character before it and
    [skip] the number of characters of the current match still to step
    over. *)
Fixpoint finditer_from (r : regex) (prev : option codepoint) (s : str)
         (skip pos : nat) : list (nat * str) :=
  match s with
  | [] =>
      match skip, match_at r prev [] with
      | O, Some _ => [(pos, [])]
      | _, _ => []
      end
  | c :: s' =>
      match skip with
      | S n => finditer_from r (Some c) s' n (S pos)
      | O =>
          match match_at r prev s with
          | Some rest =>
              let len := length s - length rest in
              (pos, firstn len s) :: finditer_from r (Some c) s' (len - 1) (S pos)
          | None => finditer_from r (Some c) s' 0 (S pos)
          end
      end
  end.

Definition finditer (r : regex) (s : str) : list (nat * str) :=
  finditer_from r None s 0 0.

(** [re.findall] for a pattern without groups: the matched texts. *)
Definition findall (r : regex) (s : str) : list str :=
  map snd (finditer r s).

(** [re.escape(term)]: every character of the term as a literal. *)
Fixpoint escape (term : str) : regex :=
  match term with
  | [] => Eps
  | c :: term' => Seq (Lit c) (escape term')
  end.

(** ** The patterns of the module *)

Definition alnum_items : list item :=
  [Rng 48 57; Rng 65 90; Rng 97 122; Rng 44032 55203].

(** [[0-9A-Za-z가-힣]+] *)
Definition word_pattern : regex := Plus (Cls (OneOf alnum_items)).

(** [[0-9A-Za-z가-힣]+(?:[^\s0-9A-Za-z가-힣]+[0-9A-Za-z가-힣]+)*] *)
Definition token_pattern : regex :=
  Seq (Plus (Cls (OneOf alnum_items)))
      (Star (Seq (Plus (Cls (NoneOf (CatSpace :: alnum_items))))
                 (Plus (Cls (OneOf alnum_items))))).

(** [(?<!\S)] [re.escape(term)] [(?!\S)] *)
Definition phrase_pattern (term : str) : regex :=
  Seq (NotBehind (NoneOf [CatSpace]))
      (Seq (escape term) (NotAhead (NoneOf [CatSpace]))).

(** ** Exceptions *)

Inductive exn := KeyError | ValueError.

Inductive outcome (A : Type) : Type :=
| Ok (a : A)
| Raise (e : exn).
Arguments Ok {A} a.
Arguments Raise {A} e.

Definition bind {A B} (m : outcome A) (f : A -> outcome B) : outcome B :=
  match m with
  | Ok a => f a
  | Raise e => Raise e
  end.

Notation "x <- m ;; f" := (bind m (fun x => f))
  (at level 61, m at next level, right associativity).

(** ** Dictionaries: insertion-ordered, one entry per key *)

Definition dict (V : Type) := list (str * V).

Fixpoint dict_get {V} (d : dict V) (k : str) : option V :=
  match d with
  | [] => None
  | (k', v) :: d' => if str_eqb k' k then Some v else dict_get d' k
  end.

(** [d.get(k, default)] *)
Definition dict_get_or {V} (d : dict V) (k : str) (default : V) : V :=
  match dict_get d k with
  | Some v => v
  | None => default
  end.

(** [d[k]] *)
Definition dict_item {V} (d : dict V) (k : str) : outcome V :=
  match dict_get d k with
  | Some v => Ok v
  | None => Raise KeyError
  end.

(** [d[k] = v]: an existing key keeps its place, a new key goes last. *)
Fixpoint dict_set {V} (d : dict V) (k : str) (v : V) : dict V :=
  match d with
  | [] => [(k, v)]
  | (k', v') :: d' =>
      if str_eqb k' k then (k', v) :: d' else (k', v') :: dict_set d' k v
  end.

Definition keys {V} (d : dict V) : list str := map fst d.
Definition values {V} (d : dict V) : list V := map snd d.

(** [Counter(tokens)] *)
Definition Counter (tokens : list str) : dict nat :=
  fold_left (fun c t => dict_set c t (dict_get_or c t 0 + 1)) tokens [].

(** [max(xs)]; [ValueError] on an empty sequence. *)
Definition py_max (xs : list nat) : outcome nat :=
  match xs with
  | [] => Raise ValueError
  | x :: xs' => Ok (fold_left Nat.max xs' x)
  end.

(** [{k: v for k, v in items}] *)
Definition dict_of_items {V} (items : list (str * V)) : dict V :=
  fold_left (fun d kv => dict_set d (fst kv) (snd kv)) items [].

(** [{k: d[k] for k in ks}] *)
Fixpoint dict_of_keys {V} (d : dict V) (ks : list str) (acc : dict V)
  : outcome (dict V) :=
  match ks with
  | [] => Ok acc
  | k :: ks' => v <- dict_item d k ;; dict_of_keys d ks' (dict_set acc k v)
  end.

(** [sorted(xs)] on strings: a stable insertion into ascending order. *)
Fixpoint insert_sorted (x : str) (xs : list str) : list str :=
  match xs with
  | [] => [x]
  | y :: xs' => if str_leb x y then x :: xs else y :: insert_sorted x xs'
  end.

Definition sorted (xs : list str) : list str :=
  fold_right insert_sorted [] xs.

(** ** The module *)

(** A result is the dictionary [{"error": message}] or a count map. *)
Inductive result :=
| ErrorResult (message : str)
| CountMap (d : dict nat).

(** "문자가 없습니다" *)
Definition no_characters : str :=
  [47928; 51088; 44032; 32; 50630; 49845; 45768; 45796]%N.

(** [not x] for a string, a list or a dictionary. *)
Definition is_empty {A} (x : list A) : bool :=
  match x with [] => true | _ :: _ => false end.

(** [" " in term] *)
Definition has_blank (term : str) : bool := existsb (N.eqb 32) term.

Section Module.

Context {L : Lower}.

(** The count of one normalised, non-empty term. *)
Definition term_count (lower_text : str) (counter : dict nat) (term : str)
  : nat :=
  if has_blank term
  then length (findall (phrase_pattern term) lower_text)
  else dict_get_or counter term 0.

Definition count_terms_in_text (text : str) (terms : list str) : dict nat :=
  let lower_text := lower text in
  let tokens := findall token_pattern lower_text in
  let counter := Counter tokens in
  fold_left
    (fun out original =>
       let term := lower (strip original) in
       if is_empty term then out
       else dict_set out original (term_count lower_text counter term))
    terms [].

Definition count_top_words (text : str) : outcome (dict nat) :=
  let tokens := findall word_pattern (lower text) in
  if is_empty tokens then Ok []
  else
    let c := Counter tokens in
    max_cnt <- py_max (values c) ;;
    Ok (dict_of_items (filter (fun wc => Nat.eqb (snd wc) max_cnt) c)).

(** [terms and any(t.strip() for t in terms)]; [None] is falsy. *)
Definition has_terms (terms : option (list str)) : bool :=
  match terms with
  | None => false
  | Some ts => negb (is_empty ts) && existsb (fun t => negb (is_empty (strip t))) ts
  end.

Definition build_result (text : str) (terms : option (list str))
  : outcome result :=
  if str_eqb (strip text) [] then Ok (ErrorResult no_characters)
  else if has_terms terms then
    let counts := count_terms_in_text text
                    (match terms with Some ts => ts | None => [] end) in
    if is_empty counts then Ok (ErrorResult no_characters)
    else
      max_cnt <- py_max (values counts) ;;
      let tied_keys :=
        sorted (keys (filter (fun kv => Nat.eqb (snd kv) max_cnt) counts)) in
      d <- dict_of_keys counts tied_keys [] ;;
      Ok (CountMap d)
  else
    top <- count_top_words text ;;
    if is_empty top then Ok (ErrorResult no_characters)
    else
      let ordered := sorted (keys top) in
      d <- dict_of_keys top ordered [] ;;
      Ok (CountMap d).

End Module.

(** The case mapping restricted to ASCII, for texts without other capitals. *)
#[export] Instance ascii_lower : Lower.
Proof.
  refine {| lower := map ascii_lower_char |}.
  - reflexivity.
  - intros [|c s]; [reflexivity | discriminate].
  - induction s as [|c s IH]; simpl; [discriminate|].
    intro H. apply orb_true_iff in H. apply orb_true_iff.
    destruct H as [H|H]; [left | right; auto].
    revert H. unfold ascii_lower_char, is_alnum.
    destruct (in_range 65 90 c) eqn:E;
      [intros _ | cbv iota; rewrite E; intro H; exact H].
    unfold in_range in *. apply andb_true_iff in E.
    rewrite !N.leb_le in E.
    assert (E1 : (97 <=? c + 32)%N = true) by (apply N.leb_le; lia).
    assert (E2 : (c + 32 <=? 122)%N = true) by (apply N.leb_le; lia).
    rewrite E1, E2. simpl. now rewrite !orb_true_r.
Defined.

(** ** Notions of the specification *)

Definition str_lt (a b : str) : Prop := str_ltb a b = true.
Definition str_le (a b : str) : Prop := str_leb a b = true.

(** A character that is neither whitespace nor of the alphabet. *)
Definition is_punct (c : codepoint) : bool := negb (is_space c || is_alnum c).

(** [Runs p s runs]: [runs] are the maximal runs of characters satisfying
    [p] in [s], from left to right. *)
Inductive Runs (p : codepoint -> bool) : str -> list str -> Prop :=
| Runs_end : Runs p [] []
| Runs_gap c s runs :
    p c = false -> Runs p s runs -> Runs p (c :: s) runs
| Runs_run run s runs :
    run <> [] -> forallb p run = true ->
    match s with [] => True | c :: _ => p c = false end ->
    Runs p s runs -> Runs p (run ++ s) (run :: runs).

(** A chain of blocks, each a run of punctuation followed by a run of
    alphabet characters. *)
Inductive joined : str -> Prop :=
| joined_none : joined []
| joined_more p a g :
    p <> [] -> forallb is_punct p = true ->
    a <> [] -> forallb is_alnum a = true ->
    joined g -> joined (p ++ a ++ g).

(** A compound unit: a run of alphabet characters, then any number of
    blocks. *)
Definition compound (t : str) : Prop :=
  exists a g,
    t = a ++ g /\ a <> [] /\ forallb is_alnum a = true /\ joined g.

(** The text after a unit lets it go no further: it does not begin with
    punctuation, none or more, followed by an alphabet character. *)
Definition stops (s : str) : Prop :=
  forall p c rest,
    s = p ++ c :: rest -> forallb is_punct p = true -> is_alnum c = false.

(** [Compounds s units]: [units] are the compound units of [s] from left
    to right, each as long as it can be; the characters between them are
    outside the alphabet. *)
Inductive Compounds : str -> list str -> Prop :=
| Compounds_end : Compounds [] []
| Compounds_gap c s units :
    is_alnum c = false -> Compounds s units -> Compounds (c :: s) units
| Compounds_unit t s units :
    compound t -> stops s -> Compounds s units ->
    Compounds (t ++ s) (t :: units).

(** An occurrence of [term] in [text] at position [i] that stands alone:
    the text starts or a whitespace character stands before it, and the
    text ends or a whitespace character stands after it. *)
Definition standalone_at (term text : str) (i : nat) : Prop :=
  exists pre post,
    text = pre ++ term ++ post /\ length pre = i /\
    (pre = [] \/ exists pre0 c, pre = pre0 ++ [c] /\ is_space c = true) /\
    (post = [] \/ exists c post0, post = c :: post0 /\ is_space c = true).

(** [n] is the number of non-overlapping standalone occurrences of [term]
    in [text]: the length of a list of positions of standalone
    occurrences, one after the end of the other, that leaves out no
    standalone occurrence but those that overlap a listed one. *)
Definition counts_standalone (term text : str) (n : nat) : Prop :=
  exists starts : list nat,
    n = length starts /\
    (forall i, In i starts -> standalone_at term text i) /\
    StronglySorted (fun i j => i + length term <= j) starts /\
    (forall j, standalone_at term text j ->
               exists i, In i starts /\ i <= j < i + length term).

(** The entries of [d] whose count is [m], by ascending key. *)
Definition tie_inclusive_max (d : dict nat) (m : nat) : dict nat :=
  map (fun k => (k, m))
      (sorted (keys (filter (fun kv => Nat.eqb (snd kv) m) d))).

Section Notions.

Context {L : Lower}.

(** A term is retained when something is left of it after trimming and
    lower-casing. *)
Definition retained (original : str) : bool :=
  negb (is_empty (lower (strip original))).

(** The count the module computes for one retained term of a text. *)
Definition term_value (text original : str) : nat :=
  term_count (lower text) (Counter (findall token_pattern (lower text)))
             (lower (strip original)).

(** One round of the loop over the terms. *)
Definition count_step (text : str) (out : dict nat) (original : str)
  : dict nat :=
  if is_empty (lower (strip original)) then out
  else dict_set out original (term_value text original).

(** The tokens of the plain grammar in a text. *)
Definition top_tokens (text : str) : list str :=
  findall word_pattern (lower text).

End Notions.

(** ** Notions of the proofs *)

(** The longest prefix of members of a class, and what follows it. *)
Fixpoint take_class (cl : cclass) (s : str) : str :=
  match s with
  | x :: s' => if class_mem cl x then x :: take_class cl s' else []
  | [] => []
  end.

Fixpoint drop_class (cl : cclass) (s : str) : str :=
  match s with
  | x :: s' => if class_mem cl x then drop_class cl s' else s
  | [] => []
  end.

(** The character before the position that follows [run]. *)
Definition advance (prev : option codepoint) (run : str) : option codepoint :=
  fold_left (fun _ c => Some c) run prev.

(** A greedy run over a class: the continuation is tried after the
    longest run first, then after each shorter one. *)
Fixpoint greedy_class (cl : cclass) (k : cont) (prev : option codepoint)
         (s : str) : option str :=
  match s with
  | x :: s' =>
      if class_mem cl x
      then match greedy_class cl k (Some x) s' with
           | Some rest => Some rest
           | None => k prev s
           end
      else k prev s
  | [] => k prev []
  end.

(** The literals and classes of [r] accept characters satisfying [P]
    only. *)
Fixpoint only (P : codepoint -> bool) (r : regex) : Prop :=
  match r with
  | Eps | NotBehind _ | NotAhead _ => True
  | Lit c => P c = true
  | Cls cl => forall x, class_mem cl x = true -> P x = true
  | Seq r1 r2 => only P r1 /\ only P r2
  | Star r1 => only P r1
  end.

(** What [k] answers is a suffix of its subject, after characters
    satisfying [P]. *)
Definition consumes (P : codepoint -> bool) (k : cont) : Prop :=
  forall p t rest,
    k p t = Some rest -> exists m, t = m ++ rest /\ forallb P m = true.

(** The last character of the text before a position. *)
Definition last_char (pre : str) : option codepoint :=
  match rev pre with
  | [] => None
  | c :: _ => Some c
  end.

(** The matches start one after the other: the next search begins where
    the match ends, or one character on after an empty match. *)
Fixpoint separated (from : nat) (matches : list (nat * str)) : Prop :=
  match matches with
  | [] => True
  | (i, m) :: matches' =>
      from <= i /\ separated (i + Nat.max 1 (length m)) matches'
  end.

(** [s.startswith(term)] *)
Fixpoint starts_with (term s : str) : bool :=
  match term, s with
  | [], _ => true
  | c :: term', x :: s' => N.eqb x c && starts_with term' s'
  | _ :: _, [] => false
  end.

(** The two boundaries of the phrase pattern, [(?<!\S)] and [(?!\S)]. *)
Definition space_or_start (prev : option codepoint) : bool :=
  match prev with
  | None => true
  | Some x => is_space x
  end.

Definition space_or_end (post : str) : bool :=
  match post with
  | [] => true
  | x :: _ => is_space x
  end.

(** The two sets of the compound-token pattern. *)
Definition punct_class : cclass := NoneOf (CatSpace :: alnum_items).
Definition alnum_class : cclass := OneOf alnum_items.

(** [(?:[^\s0-9A-Za-z가-힣]+[0-9A-Za-z가-힣]+)] *)
Definition joined_block : regex :=
  Seq (Plus (Cls punct_class)) (Plus (Cls alnum_class)).

(** ** Regular languages

    [lang r m]: the text [m] has the shape of a match of [r], the
    conditions of the lookarounds on the surrounding text left aside. *)

Inductive lang : regex -> str -> Prop :=
| lang_eps : lang Eps []
| lang_lit c : lang (Lit c) [c]
| lang_cls cl x : class_mem cl x = true -> lang (Cls cl) [x]
| lang_seq r1 r2 m1 m2 :
    lang r1 m1 -> lang r2 m2 -> lang (Seq r1 r2) (m1 ++ m2)
| lang_star_stop r : lang (Star r) []
| lang_star_more r m1 m2 :
    lang r m1 -> lang (Star r) m2 -> lang (Star r) (m1 ++ m2)
| lang_behind cl : lang (NotBehind cl) []
| lang_ahead cl : lang (NotAhead cl) [].

(** ** The command line *)

(** [s.split(",")] *)
Fixpoint split_comma (s : str) : list str :=
  match s with
  | [] => [[]]
  | c :: s' =>
      if N.eqb c 44 then [] :: split_comma s'
      else match split_comma s' with
           | piece :: pieces => (c :: piece) :: pieces
           | [] => [[c]]
           end
  end.

(** [sep.join(parts)] *)
Fixpoint join (sep : str) (parts : list str) : str :=
  match parts with
  | [] => []
  | [p] => p
  | p :: parts' => p ++ sep ++ join sep parts'
  end.

(** [[t.strip() for t in raw_terms.split(",")] if raw_terms else []] *)
Definition parse_terms (raw_terms : str) : list str :=
  if is_empty raw_terms then [] else map strip (split_comma raw_terms).

(** *** [json.dumps(d, ensure_ascii=False, indent=...)] on a flat
    dictionary of strings and integers *)

Inductive json_value :=
| JInt (n : nat)
| JStr (s : str).

Definition hex_digit (n : N) : codepoint :=
  if (n <? 10)%N then (48 + n)%N else (87 + n)%N.

(** The escapes of the encoder: the quote, the backslash, the five named
    control characters, [\u00xx] for the other characters below U+0020. *)
Definition json_escape (c : codepoint) : str :=
  if (c =? 34)%N then [92; 34]%N
  else if (c =? 92)%N then [92; 92]%N
  else if (c =? 10)%N then [92; 110]%N
  else if (c =? 13)%N then [92; 114]%N
  else if (c =? 9)%N then [92; 116]%N
  else if (c =? 8)%N then [92; 98]%N
  else if (c =? 12)%N then [92; 102]%N
  else if (c <? 32)%N
       then [92; 117; 48; 48; hex_digit (c / 16); hex_digit (c mod 16)]%N
  else [c].

Definition json_string (s : str) : str :=
  (34 :: flat_map json_escape s ++ [34])%N.

Fixpoint digits (d : Decimal.uint) : str :=
  match d with
  | Decimal.Nil => []
  | Decimal.D0 d' => 48%N :: digits d'
  | Decimal.D1 d' => 49%N :: digits d'
  | Decimal.D2 d' => 50%N :: digits d'
  | Decimal.D3 d' => 51%N :: digits d'
  | Decimal.D4 d' => 52%N :: digits d'
  | Decimal.D5 d' => 53%N :: digits d'
  | Decimal.D6 d' => 54%N :: digits d'
  | Decimal.D7 d' => 55%N :: digits d'
  | Decimal.D8 d' => 56%N :: digits d'
  | Decimal.D9 d' => 57%N :: digits d'
  end.

(** The decimal numeral of a count. *)
Definition json_int (n : nat) : str := digits (Nat.to_uint n).

Definition json_text (v : json_value) : str :=
  match v with
  | JInt n => json_int n
  | JStr s => json_string s
  end.

(** ["key": value] *)
Definition json_item (kv : str * json_value) : str :=
  json_string (fst kv) ++ [58; 32]%N ++ json_text (snd kv).

Definition json_dumps (indent : option nat) (d : dict json_value) : str :=
  match indent with
  | None => [123]%N ++ join [44; 32]%N (map json_item d) ++ [125]%N
  | Some n =>
      if is_empty d then [123; 125]%N
      else
        let newline_indent := 10%N :: repeat 32%N n in
        [123]%N ++ newline_indent
          ++ join (44%N :: newline_indent) (map json_item d)
          ++ [10; 125]%N
  end.

(** A result as the dictionary the module returns. *)
Definition result_dict (r : result) : dict json_value :=
  match r with
  | ErrorResult message => [(u "error", JStr message)]
  | CountMap d => map (fun kv => (fst kv, JInt (snd kv))) d
  end.

(** *** Standard input and output *)

(** What the program itself can raise: the end of the input, a failure to
    read the file, the exit of the argument parser with its status, and
    the exceptions of the analysis. *)
Inductive io_exn :=
| EOFError
| ReadError
| SystemExit (status : nat)
| Core (e : exn).

Inductive io_result (A : Type) : Type :=
| Done (a : A)
| Failed (e : io_exn).
Arguments Done {A} a.
Arguments Failed {A} e.

(** The lines still to be read, and the text written so far. *)
Record world := { stdin : list str; stdout : str }.

Definition io (A : Type) : Type := world -> io_result A * world.

Definition io_ret {A} (a : A) : io A := fun w => (Done a, w).

Definition io_bind {A B} (m : io A) (f : A -> io B) : io B :=
  fun w =>
    match m w with
    | (Done a, w') => f a w'
    | (Failed e, w') => (Failed e, w')
    end.

Notation "x <<- m ;; f" := (io_bind m (fun x => f))
  (at level 61, m at next level, right associativity).

Definition io_raise {A} (e : io_exn) : io A := fun w => (Failed e, w).

Definition io_of_outcome {A} (o : outcome A) : io A :=
  match o with
  | Ok a => io_ret a
  | Raise e => io_raise (Core e)
  end.

(** [input(prompt)]: the prompt goes to the output, then a line is read. *)
Definition input (prompt : str) : io str :=
  fun w =>
    let w' := {| stdin := tl (stdin w); stdout := stdout w ++ prompt |} in
    match stdin w with
    | [] => (Failed EOFError, w')
    | line :: _ => (Done line, w')
    end.

(** [print(s)] *)
Definition print (s : str) : io unit :=
  fun w => (Done tt, {| stdin := stdin w; stdout := stdout w ++ s ++ [10%N] |}).

(** [_json_print(d)]: indented for two keys or more. *)
Definition _json_print (d : dict json_value) : io unit :=
  if Nat.leb 2 (length (keys d))
  then print (json_dumps (Some 2) d)
  else print (json_dumps None d).

(** The options given on the command line: [--text], [--file] and
    [--terms], each with its value when it is there. *)
Record arguments := {
  arg_text : option str;
  arg_file : option str;
  arg_terms : option str
}.

(** [parser.parse_args()]: [--text] and [--file] are of one mutually
    exclusive group, so with both given the parser reports the usage on
    the standard error and exits with status 2; the standard input and
    output are left as they are. *)
Definition parse_args (given : arguments) : io arguments :=
  match arg_text given, arg_file given with
  | Some _, Some _ => io_raise (SystemExit 2)
  | _, _ => io_ret given
  end.

(** "입력 방식 선택 (text/file): " *)
Definition prompt_mode : str :=
  [51077; 47141; 32; 48169; 49885; 32; 49440; 53469; 32; 40; 116; 101; 120;
   116; 47; 102; 105; 108; 101; 41; 58; 32]%N.

(** "파일 경로: " *)
Definition prompt_path : str := [54028; 51068; 32; 44221; 47196; 58; 32]%N.

(** "기준 텍스트: " *)
Definition prompt_text : str :=
  [44592; 51456; 32; 53581; 49828; 53944; 58; 32]%N.

(** "검색 단어(쉼표구분, 없으면 엔터): " *)
Definition prompt_terms : str :=
  [44160; 49353; 32; 45800; 50612; 40; 49788; 54364; 44396; 48516; 44; 32;
   50630; 51004; 47732; 32; 50644; 53552; 41; 58; 32]%N.

Section Program.

Context {L : Lower}.

(** [Path(p).read_text(encoding="utf-8")]: the content of the file, or
    nothing when the call raises. *)
Variable read_text : str -> option str.

Definition load_text (text file_path : option str) : io str :=
  match text with
  | Some t => io_ret t
  | None =>
      match file_path with
      | Some p =>
          match read_text p with
          | Some content => io_ret content
          | None => io_raise ReadError
          end
      | None => io_ret []
      end
  end.

Definition main (given : arguments) : io unit :=
  args <<- parse_args given ;;
  let text := arg_text args in
  let file_path := arg_file args in
  source <<- match text, file_path with
             | None, None =>
                 mode_line <<- input prompt_mode ;;
                 let mode := lower (strip mode_line) in
                 if str_eqb mode (u "file")
                 then path <<- input prompt_path ;;
                      io_ret (text, Some (strip path))
                 else t <<- input prompt_text ;;
                      io_ret (Some t, file_path)
             | _, _ => io_ret (text, file_path)
             end ;;
  raw_terms <<- match arg_terms args with
                | Some raw => io_ret raw
                | None => line <<- input prompt_terms ;; io_ret (strip line)
                end ;;
  let terms := parse_terms raw_terms in
  base_text <<- load_text (fst source) (snd source) ;;
  result <<- io_of_outcome (build_result base_text (Some terms)) ;;
  _json_print (result_dict result).

End Program.

(** ** Further notions of the proofs *)

(** A string that begins and ends with an alphabet character. *)
Definition alnum_ends (m : str) : Prop :=
  (exists c rest, m = c :: rest /\ is_alnum c = true) /\
  (exists front c, m = front ++ [c] /\ is_alnum c = true).

(** No lookbehind occurs in the pattern. *)
Fixpoint no_lookbehind (r : regex) : Prop :=
  match r with
  | Eps | Lit _ | Cls _ | NotAhead _ => True
  | Seq r1 r2 => no_lookbehind r1 /\ no_lookbehind r2
  | Star r1 => no_lookbehind r1
  | NotBehind _ => False
  end.

Definition lang_cont (r : regex) (k k' : cont) : Prop :=
  forall prev s rest,
    k' prev s = Some rest ->
    exists m t p, s = m ++ t /\ lang r m /\ k p t = Some rest.

Definition blind (k : cont) : Prop := forall p p' t, k p t = k p' t.

(** [effects ok k m]: the command [m] reads at most [k] lines, only adds
    to the output, does not fail with an exception of the analysis, and
    succeeds when [k] lines are there and [ok] holds. *)
Definition effects {A} (ok : Prop) (k : nat) (m : io A) : Prop :=
  forall w,
    exists j out r,
      j <= k /\
      m w = (r, {| stdin := skipn j (stdin w); stdout := stdout w ++ out |}) /\
      (forall e, r <> Failed (Core e)) /\
      (k <= length (stdin w) -> ok -> exists a, r = Done a).

(** [--text] and [--file] are not both given. *)
Definition exclusive (args : arguments) : Prop :=
  arg_text args = None \/ arg_file args = None.

(** * Properties *)

(** ** The alphabet *)

Lemma in_range_spec lo hi c : in_range lo hi c = true <-> (lo <= c <= hi)%N.
Proof.
  unfold in_range. rewrite andb_true_iff, !N.leb_le. reflexivity.
Qed.

Lemma is_alnum_spec c :
  is_alnum c = true <->
  ((48 <= c <= 57) \/ (65 <= c <= 90) \/ (97 <= c <= 122)
   \/ (44032 <= c <= 55203))%N.
Proof.
  unfold is_alnum. rewrite !orb_true_iff, !in_range_spec. tauto.
Qed.

(** ** Strings and their order *)

Lemma str_eqb_eq a b : str_eqb a b = true <-> a = b.
Proof.
  unfold str_eqb. destruct (list_eq_dec N.eq_dec a b); split; congruence.
Qed.

Lemma str_eqb_refl a : str_eqb a a = true.
Proof. now apply str_eqb_eq. Qed.

Lemma str_eqb_neq a b : str_eqb a b = false <-> a <> b.
Proof.
  unfold str_eqb. destruct (list_eq_dec N.eq_dec a b); split; congruence.
Qed.

Lemma str_ltb_irrefl a : str_ltb a a = false.
Proof.
  induction a as [|x a IH]; simpl; [reflexivity|].
  now rewrite N.ltb_irrefl, N.eqb_refl.
Qed.

Lemma str_ltb_trans a : forall b c,
  str_ltb a b = true -> str_ltb b c = true -> str_ltb a c = true.
Proof.
  induction a as [|x a IH]; intros [|y b] [|z c]; simpl; try congruence.
  destruct (N.ltb_spec x y), (N.ltb_spec y z), (N.ltb_spec x z);
    try reflexivity; try lia; try congruence;
    destruct (N.eqb_spec x y), (N.eqb_spec y z); try congruence; try lia.
  destruct (N.eqb_spec x z); [eauto | lia].
Qed.

(** Two strings are equal, or one is below the other. *)
Lemma str_ltb_total a : forall b,
  str_ltb a b = false -> str_ltb b a = false -> a = b.
Proof.
  induction a as [|x a IH]; intros [|y b]; simpl; try congruence.
  destruct (N.ltb_spec x y), (N.ltb_spec y x); try congruence; try lia.
  assert (x = y) by lia. subst y. rewrite N.eqb_refl.
  intros H1 H2. f_equal. now apply IH.
Qed.

Lemma str_ltb_asym a b : str_ltb a b = true -> str_ltb b a = false.
Proof.
  intro H. destruct (str_ltb b a) eqn:E; [|reflexivity].
  pose proof (str_ltb_trans _ _ _ H E) as H'.
  now rewrite str_ltb_irrefl in H'.
Qed.

Lemma str_le_lt_or_eq a b : str_le a b -> str_lt a b \/ a = b.
Proof.
  unfold str_le, str_leb, str_lt. intro H. apply negb_true_iff in H.
  destruct (str_ltb a b) eqn:E; [now left | right; now apply str_ltb_total].
Qed.

Lemma str_le_trans a b c : str_le a b -> str_le b c -> str_le a c.
Proof.
  intros H1 H2.
  destruct (str_le_lt_or_eq H1) as [L1| ->]; [|exact H2].
  destruct (str_le_lt_or_eq H2) as [L2| ->]; [|exact H1].
  unfold str_le, str_leb. apply negb_true_iff, str_ltb_asym.
  exact (str_ltb_trans _ _ _ L1 L2).
Qed.

Lemma str_leb_false a b : str_leb a b = false -> str_le b a.
Proof.
  unfold str_le, str_leb. intro H. apply negb_false_iff in H.
  apply negb_true_iff. now apply str_ltb_asym.
Qed.

(** ** [sorted] *)

Lemma insert_sorted_perm x xs : Permutation (insert_sorted x xs) (x :: xs).
Proof.
  induction xs as [|y xs IH]; simpl; [reflexivity|].
  destruct (str_leb x y); [reflexivity|].
  rewrite IH. apply perm_swap.
Qed.

Lemma sorted_perm xs : Permutation (sorted xs) xs.
Proof.
  induction xs as [|x xs IH]; simpl; [reflexivity|].
  rewrite insert_sorted_perm. now constructor.
Qed.

Lemma insert_sorted_sorted x xs :
  StronglySorted str_le xs -> StronglySorted str_le (insert_sorted x xs).
Proof.
  induction 1 as [|y xs Hs IH Hall]; simpl.
  - repeat constructor.
  - destruct (str_leb x y) eqn:E.
    + constructor; [now constructor|].
      constructor; [exact E|].
      eapply Forall_impl; [|exact Hall].
      intros z Hz. eapply str_le_trans; eauto.
    + constructor; [exact IH|].
      apply str_leb_false in E.
      eapply Permutation_Forall;
        [symmetry; apply insert_sorted_perm|].
      now constructor.
Qed.

Lemma sorted_sorted xs : StronglySorted str_le (sorted xs).
Proof.
  induction xs as [|x xs IH]; simpl; [constructor|].
  now apply insert_sorted_sorted.
Qed.

Lemma sorted_In x xs : In x (sorted xs) <-> In x xs.
Proof.
  split; apply Permutation_in;
    [apply sorted_perm | symmetry; apply sorted_perm].
Qed.

Lemma sorted_NoDup xs : NoDup xs -> NoDup (sorted xs).
Proof.
  apply Permutation_NoDup. symmetry. apply sorted_perm.
Qed.

(** Without duplicates the order is strict. *)
Lemma NoDup_sorted_strict xs :
  NoDup xs -> StronglySorted str_le xs -> StronglySorted str_lt xs.
Proof.
  induction 2 as [|x xs Hs IH Hall]; [constructor|].
  inversion H as [|? ? Hnotin Hnd]; subst.
  constructor; [auto|].
  rewrite Forall_forall in *. intros y Hy.
  destruct (str_le_lt_or_eq (Hall y Hy)) as [Hlt| ->]; [exact Hlt|].
  contradiction.
Qed.

Lemma sorted_strict xs : NoDup xs -> StronglySorted str_lt (sorted xs).
Proof.
  intro H. apply NoDup_sorted_strict;
    [now apply sorted_NoDup | apply sorted_sorted].
Qed.

(** ** Dictionaries *)

Section Dict.

Context {V : Type}.
Implicit Types (d : dict V) (k : str) (v : V).

Lemma dict_get_set_same d k v : dict_get (dict_set d k v) k = Some v.
Proof.
  induction d as [|[k' v'] d IH]; simpl.
  - now rewrite str_eqb_refl.
  - destruct (str_eqb k' k) eqn:E; simpl; rewrite E; auto.
Qed.

Lemma dict_get_set_other d k k' v :
  k <> k' -> dict_get (dict_set d k v) k' = dict_get d k'.
Proof.
  intro Hne. induction d as [|[k0 v0] d IH]; simpl.
  - apply str_eqb_neq in Hne. now rewrite Hne.
  - destruct (str_eqb k0 k) eqn:E; simpl.
    + apply str_eqb_eq in E. subst k0.
      apply str_eqb_neq in Hne. now rewrite Hne.
    + now rewrite IH.
Qed.

Lemma dict_get_None d k : dict_get d k = None <-> ~ In k (keys d).
Proof.
  induction d as [|[k' v'] d IH]; simpl; [tauto|].
  destruct (str_eqb k' k) eqn:E.
  - apply str_eqb_eq in E. split; [discriminate | tauto].
  - apply str_eqb_neq in E. rewrite IH. tauto.
Qed.

Lemma dict_get_In d k v : dict_get d k = Some v -> In (k, v) d.
Proof.
  induction d as [|[k' v'] d IH]; simpl; [discriminate|].
  destruct (str_eqb k' k) eqn:E.
  - apply str_eqb_eq in E. intros [= ->]. left. now subst.
  - auto.
Qed.

Lemma In_dict_get d k v : NoDup (keys d) -> In (k, v) d -> dict_get d k = Some v.
Proof.
  induction d as [|[k' v'] d IH]; simpl; [tauto|].
  intros Hnd [[= -> ->]|Hin].
  - now rewrite str_eqb_refl.
  - inversion Hnd as [|? ? Hnotin Hnd']; subst.
    destruct (str_eqb k' k) eqn:E; [|auto].
    apply str_eqb_eq in E. subst k'. exfalso. apply Hnotin.
    change k with (fst (k, v)). now apply in_map.
Qed.

Lemma dict_set_new d k v : ~ In k (keys d) -> dict_set d k v = d ++ [(k, v)].
Proof.
  induction d as [|[k' v'] d IH]; simpl; [reflexivity|].
  intro H. destruct (str_eqb k' k) eqn:E.
  - apply str_eqb_eq in E. tauto.
  - rewrite IH; tauto.
Qed.

Lemma keys_dict_set_old d k v : In k (keys d) -> keys (dict_set d k v) = keys d.
Proof.
  induction d as [|[k' v'] d IH]; simpl; [tauto|].
  intro H. destruct (str_eqb k' k) eqn:E; simpl; [reflexivity|].
  apply str_eqb_neq in E. f_equal. apply IH. tauto.
Qed.

Lemma In_keys_dict_set d k v k' :
  In k' (keys (dict_set d k v)) <-> k' = k \/ In k' (keys d).
Proof.
  destruct (in_dec (list_eq_dec N.eq_dec) k (keys d)) as [Hin|Hnotin].
  - rewrite keys_dict_set_old by exact Hin. split; [tauto|].
    intros [->|H]; assumption.
  - rewrite dict_set_new by exact Hnotin. unfold keys.
    rewrite map_app, in_app_iff. simpl. intuition congruence.
Qed.

Lemma NoDup_keys_dict_set d k v : NoDup (keys d) -> NoDup (keys (dict_set d k v)).
Proof.
  intro Hnd.
  destruct (in_dec (list_eq_dec N.eq_dec) k (keys d)) as [Hin|Hnotin].
  - now rewrite keys_dict_set_old.
  - rewrite dict_set_new by exact Hnotin. unfold keys. rewrite map_app.
    simpl. apply NoDup_app; [exact Hnd | repeat constructor; tauto |].
    intros x Hx [->|[]]. contradiction.
Qed.

Lemma dict_set_not_empty d k v : dict_set d k v <> [].
Proof. destruct d as [|[k' v'] d]; simpl; [|destruct (str_eqb k' k)]; discriminate. Qed.

(** Setting a key to the value it has changes nothing. *)
Lemma dict_set_idem d k v : dict_get d k = Some v -> dict_set d k v = d.
Proof.
  induction d as [|[k' v'] d IH]; simpl; [discriminate|].
  destruct (str_eqb k' k) eqn:E.
  - now intros [= ->].
  - intro H. now rewrite IH.
Qed.

(** A comprehension over items with distinct keys is the items. *)
Lemma dict_of_items_NoDup (items : list (str * V)) :
  NoDup (keys items) -> dict_of_items items = items.
Proof.
  unfold dict_of_items.
  enough (G : forall acc,
             NoDup (keys (acc ++ items)) ->
             fold_left (fun d kv => dict_set d (fst kv) (snd kv)) items acc
             = acc ++ items) by (intro H; exact (G [] H)).
  induction items as [|[k v] items IH]; intros acc Hnd; simpl.
  - now rewrite app_nil_r.
  - assert (Hk : ~ In k (keys acc)).
    { unfold keys in *. rewrite map_app in Hnd. simpl in Hnd.
      apply NoDup_remove_2 in Hnd. rewrite in_app_iff in Hnd. tauto. }
    rewrite dict_set_new by exact Hk.
    rewrite IH; rewrite <- app_assoc; [reflexivity | exact Hnd].
Qed.

(** A comprehension [{k: d[k] for k in ks}] over distinct keys of [d]
    does not raise and lists the keys in the order of [ks]. *)
Lemma dict_of_keys_ok d (f : str -> V) ks :
  NoDup ks ->
  (forall k, In k ks -> dict_get d k = Some (f k)) ->
  dict_of_keys d ks [] = Ok (map (fun k => (k, f k)) ks).
Proof.
  enough (G : forall acc,
             NoDup (keys acc ++ ks) ->
             (forall k, In k ks -> dict_get d k = Some (f k)) ->
             dict_of_keys d ks acc = Ok (acc ++ map (fun k => (k, f k)) ks))
    by (intros H1 H2; exact (G [] H1 H2)).
  induction ks as [|k ks IH]; intros acc Hnd Hget; simpl.
  - now rewrite app_nil_r.
  - unfold dict_item. rewrite (Hget k (or_introl eq_refl)). simpl.
    assert (Hk : ~ In k (keys acc)).
    { apply NoDup_remove_2 in Hnd. rewrite in_app_iff in Hnd. tauto. }
    rewrite dict_set_new by exact Hk.
    rewrite IH.
    + now rewrite <- app_assoc.
    + unfold keys in *. rewrite map_app. simpl. now rewrite <- app_assoc.
    + intros k' Hk'. apply Hget. now right.
Qed.

Lemma NoDup_keys_filter d (p : str * V -> bool) :
  NoDup (keys d) -> NoDup (keys (filter p d)).
Proof.
  induction d as [|[k v] d IH]; simpl; [auto|].
  intro Hnd. inversion Hnd as [|? ? Hnotin Hnd']; subst.
  destruct (p (k, v)); simpl; [|auto].
  constructor; [|auto].
  intro Hin. apply Hnotin. unfold keys in *.
  apply in_map_iff in Hin. destruct Hin as [[k' v'] [Hk Hin]].
  apply filter_In in Hin. apply in_map_iff. exists (k', v'). tauto.
Qed.

End Dict.

(** ** [max] *)

Lemma fold_left_max_ge xs : forall x, x <= fold_left Nat.max xs x.
Proof.
  induction xs as [|y xs IH]; intro x; simpl; [lia|].
  specialize (IH (Nat.max x y)). lia.
Qed.

Lemma fold_left_max_upper xs : forall x y,
  In y xs -> y <= fold_left Nat.max xs x.
Proof.
  induction xs as [|z xs IH]; intros x y; simpl; [tauto|].
  intros [->|H]; [|auto].
  pose proof (fold_left_max_ge xs (Nat.max x y)). lia.
Qed.

Lemma fold_left_max_In xs : forall x,
  fold_left Nat.max xs x = x \/ In (fold_left Nat.max xs x) xs.
Proof.
  induction xs as [|y xs IH]; intro x; simpl; [now left|].
  destruct (IH (Nat.max x y)) as [H|H]; [|now right; right].
  rewrite H. destruct (Nat.max_spec x y) as [[_ ->]|[_ ->]]; auto.
Qed.

(** [max] of a non-empty sequence is one of its elements and bounds them. *)
Lemma py_max_spec xs :
  xs <> [] ->
  exists m, py_max xs = Ok m /\ In m xs /\ forall x, In x xs -> x <= m.
Proof.
  destruct xs as [|x xs]; [congruence|]. intros _. simpl.
  eexists. split; [reflexivity|]. split.
  - destruct (fold_left_max_In xs x) as [->|H]; auto.
  - intros y [->|H]; [apply fold_left_max_ge | now apply fold_left_max_upper].
Qed.

Lemma py_max_Ok_inv xs m :
  py_max xs = Ok m -> In m xs /\ forall x, In x xs -> x <= m.
Proof.
  intro H. destruct xs as [|x xs]; [discriminate|].
  destruct (@py_max_spec (x :: xs)) as [m' [E P]]; [discriminate|].
  rewrite H in E. injection E as <-. exact P.
Qed.

(** All elements equal: they are the maximum. *)
Lemma py_max_const (xs : list nat) m :
  xs <> [] -> (forall x, In x xs -> x = m) -> py_max xs = Ok m.
Proof.
  intros Hne Hall. destruct (py_max_spec Hne) as [m' [E [Hin _]]].
  rewrite E. f_equal. auto.
Qed.

(** ** [Counter] *)

Lemma Counter_fold_get toks t : forall c,
  dict_get_or
    (fold_left (fun c t => dict_set c t (dict_get_or c t 0 + 1)) toks c) t 0
  = dict_get_or c t 0 + count_occ (list_eq_dec N.eq_dec) toks t.
Proof.
  induction toks as [|x toks IH]; intro c; simpl; [lia|].
  rewrite IH. destruct (list_eq_dec N.eq_dec x t) as [->|Hne].
  - unfold dict_get_or at 1. rewrite dict_get_set_same. lia.
  - unfold dict_get_or at 1. rewrite dict_get_set_other by exact Hne.
    fold (dict_get_or c t 0). lia.
Qed.

(** A counter answers with the number of occurrences of the token. *)
Lemma Counter_get toks t :
  dict_get_or (Counter toks) t 0 = count_occ (list_eq_dec N.eq_dec) toks t.
Proof. unfold Counter. now rewrite Counter_fold_get. Qed.

Lemma Counter_fold_keys toks t : forall c,
  In t (keys (fold_left (fun c t => dict_set c t (dict_get_or c t 0 + 1)) toks c))
  <-> In t (keys c) \/ In t toks.
Proof.
  induction toks as [|x toks IH]; intro c; simpl; [tauto|].
  rewrite IH, In_keys_dict_set. intuition congruence.
Qed.

Lemma Counter_keys toks t : In t (keys (Counter toks)) <-> In t toks.
Proof. unfold Counter. rewrite Counter_fold_keys. simpl. tauto. Qed.

Lemma Counter_fold_NoDup toks : forall c,
  NoDup (keys c) ->
  NoDup (keys (fold_left (fun c t => dict_set c t (dict_get_or c t 0 + 1)) toks c)).
Proof.
  induction toks as [|x toks IH]; intros c H; simpl; [exact H|].
  apply IH. now apply NoDup_keys_dict_set.
Qed.

Lemma Counter_NoDup toks : NoDup (keys (Counter toks)).
Proof. apply Counter_fold_NoDup. constructor. Qed.

(** Each entry of a counter is a token with its number of occurrences. *)
Lemma Counter_In toks t n :
  In (t, n) (Counter toks)
  <-> In t toks /\ n = count_occ (list_eq_dec N.eq_dec) toks t.
Proof.
  split.
  - intro H. split.
    + apply Counter_keys. change t with (fst (t, n)). now apply in_map.
    + apply In_dict_get in H; [|apply Counter_NoDup].
      rewrite <- Counter_get. unfold dict_get_or. now rewrite H.
  - intros [Hin ->]. apply dict_get_In.
    apply Counter_keys in Hin.
    destruct (dict_get (Counter toks) t) as [n|] eqn:E.
    + rewrite <- Counter_get. unfold dict_get_or. now rewrite E.
    + apply dict_get_None in E. contradiction.
Qed.

(** ** The selection of the entries at the maximum *)

Lemma keys_tie_inclusive_max d m :
  keys (tie_inclusive_max d m)
  = sorted (keys (filter (fun kv => Nat.eqb (snd kv) m) d)).
Proof.
  unfold tie_inclusive_max, keys. rewrite map_map. simpl. apply map_id.
Qed.

Lemma In_tie_inclusive_max d m k v :
  NoDup (keys d) ->
  In (k, v) (tie_inclusive_max d m) <-> In (k, v) d /\ v = m.
Proof.
  intro Hnd. unfold tie_inclusive_max. rewrite in_map_iff. split.
  - intros [k' [[= -> <-] Hin]]. apply -> sorted_In in Hin.
    unfold keys in Hin. apply in_map_iff in Hin.
    destruct Hin as [[k1 v1] [Hk Hin]]. simpl in Hk. subst k1.
    apply filter_In in Hin. destruct Hin as [Hin Hv]. simpl in Hv.
    apply Nat.eqb_eq in Hv. subst v1. auto.
  - intros [Hin ->]. exists k. split; [reflexivity|].
    apply sorted_In. unfold keys. apply in_map_iff. exists (k, m).
    split; [reflexivity|]. apply filter_In. split; [exact Hin|].
    simpl. apply Nat.eqb_refl.
Qed.

Lemma tie_inclusive_max_sorted d m :
  NoDup (keys d) -> StronglySorted str_lt (keys (tie_inclusive_max d m)).
Proof.
  intro Hnd. rewrite keys_tie_inclusive_max.
  apply sorted_strict. now apply NoDup_keys_filter.
Qed.

Lemma tie_inclusive_max_not_empty d m :
  In m (values d) -> tie_inclusive_max d m <> [].
Proof.
  intros Hin Hnil. unfold values in Hin. apply in_map_iff in Hin.
  destruct Hin as [[k v] [Hv Hin]]. simpl in Hv. subst v.
  assert (Hk : In k (keys (tie_inclusive_max d m))).
  { rewrite keys_tie_inclusive_max. apply sorted_In.
    unfold keys. apply in_map_iff. exists (k, m). split; [reflexivity|].
    apply filter_In. split; [exact Hin | apply Nat.eqb_refl]. }
  rewrite Hnil in Hk. exact Hk.
Qed.

Lemma values_tie_inclusive_max d m x :
  In x (values (tie_inclusive_max d m)) -> x = m.
Proof.
  unfold values, tie_inclusive_max. rewrite map_map. simpl.
  rewrite in_map_iff. now intros [k [<- _]].
Qed.

(** The comprehension over the sorted tied keys does not raise. *)
Lemma dict_of_keys_tied d m :
  NoDup (keys d) ->
  dict_of_keys d (sorted (keys (filter (fun kv => Nat.eqb (snd kv) m) d))) []
  = Ok (tie_inclusive_max d m).
Proof.
  intro Hnd. unfold tie_inclusive_max. apply dict_of_keys_ok.
  - apply sorted_NoDup. now apply NoDup_keys_filter.
  - intros k Hk. apply -> sorted_In in Hk. unfold keys in Hk.
    apply in_map_iff in Hk. destruct Hk as [[k' v] [Hk Hin]].
    simpl in Hk. subst k'. apply filter_In in Hin.
    destruct Hin as [Hin Hv]. simpl in Hv. apply Nat.eqb_eq in Hv. subst v.
    now apply In_dict_get.
Qed.

Lemma filter_filter_same {A} (p : A -> bool) l :
  filter p (filter p l) = filter p l.
Proof.
  induction l as [|x l IH]; simpl; [reflexivity|].
  destruct (p x) eqn:E; simpl; [rewrite E|]; now rewrite ?IH.
Qed.

Lemma values_not_empty {V} (d : dict V) : d <> [] -> values d <> [].
Proof. destruct d; simpl; congruence. Qed.

Lemma is_empty_false {A} (x : list A) : is_empty x = false <-> x <> [].
Proof. destruct x; simpl; split; congruence. Qed.

Lemma is_empty_true {A} (x : list A) : is_empty x = true <-> x = [].
Proof. destruct x; simpl; split; congruence. Qed.

(** ** The functions of the module *)

Section Functions.

Context {L : Lower}.

Lemma count_terms_in_text_fold text terms :
  count_terms_in_text text terms = fold_left (count_step text) terms [].
Proof. reflexivity. Qed.

Lemma retained_strip original :
  retained original = negb (is_empty (strip original)).
Proof.
  unfold retained. f_equal.
  destruct (strip original) eqn:E.
  - destruct (lower []) eqn:E'; [reflexivity|]. 
    rewrite (@lower_ascii L []) in E' by reflexivity. discriminate.
  - destruct (lower (c :: s)) eqn:E'; [|reflexivity].
    apply lower_nil_inv in E'. discriminate.
Qed.

Lemma count_step_get text out original k :
  dict_get (count_step text out original) k
  = if (str_eqb original k && retained original)%bool
    then Some (term_value text original) else dict_get out k.
Proof.
  unfold count_step, retained.
  destruct (is_empty (lower (strip original))); simpl.
  - now rewrite andb_false_r.
  - rewrite andb_true_r. destruct (str_eqb original k) eqn:E.
    + apply str_eqb_eq in E. subst k. apply dict_get_set_same.
    + apply str_eqb_neq in E. now apply dict_get_set_other.
Qed.

Lemma count_fold_get text terms k : forall out,
  dict_get (fold_left (count_step text) terms out) k
  = if (existsb (str_eqb k) terms && retained k)%bool
    then Some (term_value text k) else dict_get out k.
Proof.
  induction terms as [|x terms IH]; intro out; simpl; [reflexivity|].
  rewrite IH, count_step_get.
  destruct (str_eqb k x) eqn:E; simpl.
  - apply str_eqb_eq in E. subst x. rewrite str_eqb_refl. simpl.
    destruct (existsb (str_eqb k) terms); simpl;
      destruct (retained k); reflexivity.
  - assert (E' : str_eqb x k = false).
    { apply str_eqb_neq. apply str_eqb_neq in E. congruence. }
    now rewrite E'.
Qed.

(** What the term dictionary holds under each key. *)
Lemma count_terms_in_text_get text terms k :
  dict_get (count_terms_in_text text terms) k
  = if (existsb (str_eqb k) terms && retained k)%bool
    then Some (term_value text k) else None.
Proof. rewrite count_terms_in_text_fold. apply count_fold_get. Qed.

Lemma existsb_str_eqb k terms : existsb (str_eqb k) terms = true <-> In k terms.
Proof.
  rewrite existsb_exists. split.
  - intros [x [Hin E]]. apply str_eqb_eq in E. now subst.
  - intro H. exists k. split; [exact H | apply str_eqb_refl].
Qed.

Lemma count_fold_NoDup text terms : forall out,
  NoDup (keys out) -> NoDup (keys (fold_left (count_step text) terms out)).
Proof.
  induction terms as [|x terms IH]; intros out H; simpl; [exact H|].
  apply IH. unfold count_step.
  destruct (is_empty (lower (strip x))); [exact H|].
  now apply NoDup_keys_dict_set.
Qed.

Lemma count_terms_in_text_NoDup text terms :
  NoDup (keys (count_terms_in_text text terms)).
Proof. apply count_fold_NoDup. constructor. Qed.

(** The entries of the term dictionary: one per retained term, under the
    term as it was supplied. *)
Lemma count_terms_in_text_In text terms k v :
  In (k, v) (count_terms_in_text text terms)
  <-> In k terms /\ retained k = true /\ v = term_value text k.
Proof.
  split.
  - intro H. apply In_dict_get in H; [|apply count_terms_in_text_NoDup].
    rewrite count_terms_in_text_get in H.
    destruct (existsb (str_eqb k) terms) eqn:E1; [|discriminate].
    destruct (retained k) eqn:E2; [|discriminate].
    simpl in H. injection H as <-. apply existsb_str_eqb in E1. auto.
  - intros [Hin [Hr ->]]. apply dict_get_In.
    rewrite count_terms_in_text_get, Hr.
    apply existsb_str_eqb in Hin. now rewrite Hin.
Qed.

Lemma count_terms_in_text_keys text terms k :
  In k (keys (count_terms_in_text text terms))
  <-> In k terms /\ retained k = true.
Proof.
  split.
  - intro H. unfold keys in H. apply in_map_iff in H.
    destruct H as [[k' v] [Hk Hin]]. simpl in Hk. subst k'.
    apply count_terms_in_text_In in Hin. tauto.
  - intros [Hin Hr]. change k with (fst (k, term_value text k)).
    apply in_map. apply count_terms_in_text_In. auto.
Qed.

(** One non-blank term is enough for the term dictionary to have an entry. *)
Lemma count_terms_in_text_not_empty text terms :
  existsb (fun t => negb (is_empty (strip t))) terms = true ->
  count_terms_in_text text terms <> [].
Proof.
  intros H Hnil. apply existsb_exists in H. destruct H as [t [Hin Ht]].
  rewrite <- retained_strip in Ht.
  assert (Hk : In t (keys (count_terms_in_text text terms)))
    by (apply count_terms_in_text_keys; auto).
  rewrite Hnil in Hk. exact Hk.
Qed.

Lemma strip_blank_eqb text : str_eqb (strip text) [] = is_empty (strip text).
Proof.
  destruct (strip text) eqn:E; simpl.
  - apply str_eqb_refl.
  - now apply str_eqb_neq.
Qed.

(** The first branch: a blank text. *)
Lemma build_result_blank text terms :
  strip text = [] -> build_result text terms = Ok (ErrorResult no_characters).
Proof.
  intro H. unfold build_result. now rewrite H, str_eqb_refl.
Qed.

(** The term branch: the tied maxima of the term dictionary. *)
Lemma build_result_terms text terms :
  strip text <> [] ->
  existsb (fun t => negb (is_empty (strip t))) terms = true ->
  exists m,
    py_max (values (count_terms_in_text text terms)) = Ok m /\
    build_result text (Some terms)
    = Ok (CountMap (tie_inclusive_max (count_terms_in_text text terms) m)).
Proof.
  intros Htext Hany.
  pose proof (count_terms_in_text_not_empty text terms Hany) as Hne.
  destruct (py_max_spec (values_not_empty Hne)) as [m [Hm _]].
  exists m. split; [exact Hm|].
  unfold build_result. rewrite strip_blank_eqb.
  apply is_empty_false in Htext. rewrite Htext.
  unfold has_terms. rewrite Hany.
  destruct terms as [|t terms]; [discriminate|]. simpl negb. simpl andb.
  apply is_empty_false in Hne. rewrite Hne, Hm. simpl.
  rewrite dict_of_keys_tied by apply count_terms_in_text_NoDup.
  reflexivity.
Qed.

(** The word branch on a text without a token. *)
Lemma build_result_no_token text terms :
  has_terms terms = false -> top_tokens text = [] ->
  build_result text terms = Ok (ErrorResult no_characters).
Proof.
  intros Hterms Htok. unfold build_result.
  destruct (str_eqb (strip text) []); [reflexivity|].
  rewrite Hterms. unfold count_top_words. fold (top_tokens text).
  now rewrite Htok.
Qed.

Lemma Counter_not_empty toks : toks <> [] -> Counter toks <> [].
Proof.
  destruct toks as [|t toks]; [congruence|]. intros _ Hnil.
  assert (H : In t (keys (Counter (t :: toks))))
    by (apply Counter_keys; now left).
  rewrite Hnil in H. exact H.
Qed.

(** The word branch: the tied maxima of the token counter. *)
Lemma build_result_top text terms :
  strip text <> [] -> has_terms terms = false -> top_tokens text <> [] ->
  exists m,
    py_max (values (Counter (top_tokens text))) = Ok m /\
    build_result text terms
    = Ok (CountMap (tie_inclusive_max (Counter (top_tokens text)) m)).
Proof.
  intros Htext Hterms Htok.
  pose proof (Counter_not_empty Htok) as Hne.
  destruct (py_max_spec (values_not_empty Hne)) as [m [Hm [Hin _]]].
  exists m. split; [exact Hm|].
  unfold build_result. rewrite strip_blank_eqb.
  apply is_empty_false in Htext. rewrite Htext, Hterms.
  unfold count_top_words. fold (top_tokens text).
  apply is_empty_false in Htok. rewrite Htok, Hm. simpl.
  set (c := Counter (top_tokens text)) in *.
  assert (Hnd : NoDup (keys c)) by apply Counter_NoDup.
  rewrite dict_of_items_NoDup by now apply NoDup_keys_filter.
  set (top := filter (fun wc => Nat.eqb (snd wc) m) c).
  assert (Htop : top <> []).
  { unfold values in Hin. apply in_map_iff in Hin.
    destruct Hin as [[k v] [Hv Hin]]. simpl in Hv. subst v.
    intro Hnil. assert (H : In (k, m) top)
      by (apply filter_In; split; [exact Hin | apply Nat.eqb_refl]).
    rewrite Hnil in H. exact H. }
  apply is_empty_false in Htop. rewrite Htop.
  assert (Hks : NoDup (sorted (keys top)))
    by (apply sorted_NoDup; now apply NoDup_keys_filter).
  rewrite (dict_of_keys_ok top (fun _ => m) Hks).
  - simpl. reflexivity.
  - intros k Hk. apply -> sorted_In in Hk. unfold keys in Hk.
    apply in_map_iff in Hk. destruct Hk as [[k' v] [Hk Hin']].
    simpl in Hk. subst k'. apply In_dict_get.
    + now apply NoDup_keys_filter.
    + pose proof Hin' as Hf. apply filter_In in Hf. destruct Hf as [_ Hv].
      simpl in Hv. apply Nat.eqb_eq in Hv. now subst v.
Qed.

End Functions.

(** ** Trimming *)

Lemma lstrip_nil_iff s : lstrip s = [] <-> forallb is_space s = true.
Proof.
  induction s as [|c s IH]; simpl; [tauto|].
  destruct (is_space c); simpl; [exact IH|]. split; discriminate.
Qed.

Lemma forallb_lstrip s : forallb is_space (lstrip s) = forallb is_space s.
Proof.
  induction s as [|c s IH]; simpl; [reflexivity|].
  destruct (is_space c) eqn:E; simpl; [exact IH|]. now rewrite E.
Qed.

Lemma forallb_rev {A} (p : A -> bool) l : forallb p (rev l) = forallb p l.
Proof.
  induction l as [|x l IH]; simpl; [reflexivity|].
  rewrite forallb_app, IH. simpl. rewrite andb_true_r. apply andb_comm.
Qed.

Lemma rstrip_nil_iff s : rstrip s = [] <-> forallb is_space s = true.
Proof.
  unfold rstrip. rewrite <- (forallb_rev is_space s), <- lstrip_nil_iff.
  split; intro H.
  - apply (f_equal (@rev _)) in H. now rewrite rev_involutive in H.
  - now rewrite H.
Qed.

(** Trimming leaves nothing exactly of the texts made of whitespace. *)
Lemma strip_nil_iff s : strip s = [] <-> forallb is_space s = true.
Proof.
  unfold strip. now rewrite rstrip_nil_iff, forallb_lstrip.
Qed.

Lemma is_alnum_not_space c : is_alnum c = true -> is_space c = false.
Proof.
  intro H. apply is_alnum_spec in H.
  unfold is_space. rewrite !orb_false_iff.
  repeat split;
    try (apply not_true_is_false; rewrite in_range_spec; lia);
    apply N.eqb_neq; lia.
Qed.

Lemma existsb_alnum_not_blank s :
  existsb is_alnum s = true -> strip s <> [].
Proof.
  intros H Hs. apply strip_nil_iff in Hs.
  apply existsb_exists in H. destruct H as [c [Hin Hc]].
  rewrite forallb_forall in Hs. specialize (Hs c Hin).
  apply is_alnum_not_space in Hc. congruence.
Qed.

(** ** The results of [build_result] *)

Section Results.

Context {L : Lower}.

Lemma has_terms_Some terms :
  has_terms (Some terms)
  = existsb (fun t => negb (is_empty (strip t))) terms.
Proof. destruct terms; reflexivity. Qed.

Lemma has_terms_true terms :
  has_terms terms = true ->
  exists ts, terms = Some ts /\
             existsb (fun t => negb (is_empty (strip t))) ts = true.
Proof.
  destruct terms as [ts|]; [|discriminate].
  rewrite has_terms_Some. eauto.
Qed.

(** The three outcomes of a call; none of them is an exception. *)
Lemma build_result_cases text terms :
  build_result text terms = Ok (ErrorResult no_characters) \/
  exists d m,
    build_result text terms = Ok (CountMap (tie_inclusive_max d m)) /\
    NoDup (keys d) /\ py_max (values d) = Ok m.
Proof.
  destruct (strip text) eqn:Etext.
  - left. now apply build_result_blank.
  - assert (Htext : strip text <> []) by (rewrite Etext; discriminate).
    destruct (has_terms terms) eqn:Eterms.
    + right. apply has_terms_true in Eterms.
      destruct Eterms as [ts [-> Hany]].
      destruct (build_result_terms text ts Htext Hany) as [m [Hm Hres]].
      exists (count_terms_in_text text ts), m.
      auto using count_terms_in_text_NoDup.
    + destruct (top_tokens text) eqn:Etok.
      * left. now apply build_result_no_token.
      * right.
        assert (Htok : top_tokens text <> []) by (rewrite Etok; discriminate).
        destruct (build_result_top text terms Htext Eterms Htok)
          as [m [Hm Hres]].
        exists (Counter (top_tokens text)), m. auto using Counter_NoDup.
Qed.

Lemma build_result_returns text terms :
  exists r, build_result text terms = Ok r.
Proof.
  destruct (build_result_cases text terms) as [H|[d [m [H _]]]]; eauto.
Qed.

End Results.

Lemma has_terms_blank terms :
  forallb (fun t => is_empty (strip t)) terms = true ->
  has_terms (Some terms) = false.
Proof.
  intro H. rewrite has_terms_Some.
  apply not_true_is_false. intro E. apply existsb_exists in E.
  destruct E as [t [Hin Ht]]. rewrite forallb_forall in H.
  rewrite (H t Hin) in Ht. discriminate.
Qed.

Section Terms.

Context {L : Lower}.

(** A term that is already in the dictionary with its count is stepped
    over without a change. *)
Lemma count_step_again text out original :
  dict_get out original = Some (term_value text original) ->
  count_step text out original = out.
Proof.
  intro H. unfold count_step.
  destruct (is_empty (lower (strip original))); [reflexivity|].
  now apply dict_set_idem.
Qed.

Lemma count_terms_in_text_app text terms more :
  count_terms_in_text text (terms ++ more)
  = fold_left (count_step text) more (count_terms_in_text text terms).
Proof. rewrite !count_terms_in_text_fold. apply fold_left_app. Qed.

(** Supplying a term once more changes nothing. *)
Lemma count_terms_in_text_repeat text terms original more :
  In original terms ->
  count_terms_in_text text (terms ++ original :: more)
  = count_terms_in_text text (terms ++ more).
Proof.
  intro Hin. rewrite !count_terms_in_text_app. simpl.
  destruct (retained original) eqn:Hr.
  - rewrite count_step_again; [reflexivity|].
    rewrite count_terms_in_text_get, Hr.
    apply existsb_str_eqb in Hin. now rewrite Hin.
  - unfold count_step. unfold retained in Hr.
    apply negb_false_iff in Hr. now rewrite Hr.
Qed.

Lemma no_space_no_blank term :
  existsb is_space term = false -> has_blank term = false.
Proof.
  intro H. apply not_true_is_false. intro E.
  unfold has_blank in E. apply existsb_exists in E.
  destruct E as [c [Hin Hc]]. apply N.eqb_eq in Hc. subst c.
  assert (E : existsb is_space term = true)
    by (apply existsb_exists; exists 32%N; split; [exact Hin | reflexivity]).
  congruence.
Qed.

(** The count of a term without a blank is its number of occurrences in
    the compound-token vocabulary. *)
Lemma term_value_word text original :
  has_blank (lower (strip original)) = false ->
  term_value text original
  = count_occ (list_eq_dec N.eq_dec)
              (findall token_pattern (lower text)) (lower (strip original)).
Proof.
  intro H. unfold term_value, term_count. rewrite H. apply Counter_get.
Qed.

End Terms.

(** ** The matcher *)

Lemma take_drop_class cl s : take_class cl s ++ drop_class cl s = s.
Proof.
  induction s as [|x s IH]; simpl; [reflexivity|].
  destruct (class_mem cl x); simpl; [now rewrite IH | reflexivity].
Qed.

Lemma skipn_take_class cl s :
  skipn (length (take_class cl s)) s = drop_class cl s.
Proof.
  induction s as [|x s IH]; simpl; [reflexivity|].
  destruct (class_mem cl x); simpl; [exact IH | reflexivity].
Qed.

Lemma length_take_class cl s : length (take_class cl s) <= length s.
Proof.
  induction s as [|x s IH]; simpl; [lia|].
  destruct (class_mem cl x); simpl; lia.
Qed.

Lemma take_class_all cl s : forallb (class_mem cl) (take_class cl s) = true.
Proof.
  induction s as [|x s IH]; simpl; [reflexivity|].
  destruct (class_mem cl x) eqn:E; simpl; [now rewrite E | reflexivity].
Qed.

Lemma drop_class_head cl s :
  match drop_class cl s with
  | [] => True
  | x :: _ => class_mem cl x = false
  end.
Proof.
  induction s as [|x s IH]; simpl; [exact I|].
  destruct (class_mem cl x) eqn:E; [exact IH | exact E].
Qed.

(** A run followed by a character outside the class is the longest run. *)
Lemma take_class_app cl run rest :
  forallb (class_mem cl) run = true ->
  match rest with [] => True | x :: _ => class_mem cl x = false end ->
  take_class cl (run ++ rest) = run /\ drop_class cl (run ++ rest) = rest.
Proof.
  intros Hrun Hrest. induction run as [|x run IH]; simpl.
  - destruct rest as [|y rest]; simpl; [auto|]. now rewrite Hrest.
  - simpl in Hrun. apply andb_true_iff in Hrun. destruct Hrun as [Hx Hrun].
    rewrite Hx. destruct (IH Hrun) as [-> ->]. auto.
Qed.

Lemma star_loop_class cl k : forall s fuel prev,
  length s <= fuel ->
  star_loop (rmatch (Cls cl)) k fuel prev s = greedy_class cl k prev s.
Proof.
  induction s as [|x s IH]; intros fuel prev Hfuel.
  - destruct fuel; reflexivity.
  - destruct fuel as [|fuel]; [simpl in Hfuel; lia|].
    simpl. destruct (class_mem cl x); [|reflexivity].
    assert (E : (length s <? S (length s)) = true) by (apply Nat.ltb_lt; lia).
    rewrite E. rewrite IH by (simpl in Hfuel; lia). reflexivity.
Qed.

(** When the continuation succeeds after the longest run, that is the
    match. *)
Lemma greedy_class_longest cl k rest : forall s prev,
  k (advance prev (take_class cl s)) (drop_class cl s) = Some rest ->
  greedy_class cl k prev s = Some rest.
Proof.
  induction s as [|x s IH]; intros prev H; simpl in *; [exact H|].
  destruct (class_mem cl x); [|exact H].
  simpl in H. now rewrite (IH _ H).
Qed.

(** A continuation that cannot start with a member of the class is only
    ever tried after the longest run. *)
Lemma greedy_class_only_longest cl k : 
  (forall p x t, class_mem cl x = true -> k p (x :: t) = None) ->
  forall s prev,
    greedy_class cl k prev s
    = k (advance prev (take_class cl s)) (drop_class cl s).
Proof.
  intros Hk. induction s as [|x s IH]; intro prev; simpl; [reflexivity|].
  destruct (class_mem cl x) eqn:E; [|reflexivity].
  simpl. rewrite IH.
  destruct (k (advance (Some x) (take_class cl s)) (drop_class cl s));
    [reflexivity|].
  now apply Hk.
Qed.

(** [c+] for a class [c]. *)
Lemma rmatch_plus_class cl k prev s :
  rmatch (Plus (Cls cl)) k prev s
  = match s with
    | x :: s' => if class_mem cl x then greedy_class cl k (Some x) s' else None
    | [] => None
    end.
Proof.
  destruct s as [|x s]; simpl; [reflexivity|].
  destruct (class_mem cl x); [|reflexivity].
  now apply star_loop_class.
Qed.

Lemma class_mem_alnum c : class_mem (OneOf alnum_items) c = is_alnum c.
Proof.
  unfold is_alnum. simpl.
  destruct (in_range 48 57 c), (in_range 65 90 c), (in_range 97 122 c),
    (in_range 44032 55203 c); reflexivity.
Qed.

Lemma class_mem_punct c :
  class_mem (NoneOf (CatSpace :: alnum_items)) c
  = negb (is_space c || is_alnum c).
Proof.
  change (class_mem (NoneOf (CatSpace :: alnum_items)) c)
    with (negb (is_space c || class_mem (OneOf alnum_items) c)).
  now rewrite class_mem_alnum.
Qed.

Lemma class_mem_not_space c : class_mem (NoneOf [CatSpace]) c = negb (is_space c).
Proof. simpl. now rewrite orb_false_r. Qed.

(** The word pattern matches the longest run of alphabet characters. *)
Lemma match_at_word prev s :
  match_at word_pattern prev s
  = match s with
    | x :: s' =>
        if is_alnum x then Some (drop_class (OneOf alnum_items) s') else None
    | [] => None
    end.
Proof.
  unfold match_at, word_pattern. rewrite rmatch_plus_class.
  destruct s as [|x s]; [reflexivity|].
  rewrite class_mem_alnum. destruct (is_alnum x); [|reflexivity].
  now apply greedy_class_longest.
Qed.

(** *** What a match consumes

    The rest after a match is a suffix of the subject, and the consumed
    characters are among those the literals and classes of the pattern
    accept. *)

Lemma consumes_more P (k : cont) x p t rest :
  consumes P k -> P x = true -> k p t = Some rest ->
  exists m, x :: t = m ++ rest /\ forallb P m = true.
Proof.
  intros Hk Hx H. destruct (Hk _ _ _ H) as [m [-> Hm]].
  exists (x :: m). simpl. now rewrite Hx, Hm.
Qed.

Lemma star_loop_consumes P (m : cont -> cont) k :
  (forall k', consumes P k' -> consumes P (m k')) ->
  consumes P k -> forall fuel, consumes P (star_loop m k fuel).
Proof.
  intros Hm Hk. induction fuel as [|fuel IH]; [exact Hk|].
  intros p t rest. simpl.
  match goal with |- context [m ?kk p t] => set (round := kk) end.
  assert (Hround : consumes P round).
  { intros p' t' rest'. unfold round.
    destruct (length t' <? length t); [apply IH | discriminate]. }
  destruct (m round p t) as [rest0|] eqn:E.
  - intros [= <-]. exact (Hm round Hround _ _ _ E).
  - apply Hk.
Qed.

Lemma rmatch_consumes P r :
  only P r -> forall k, consumes P k -> consumes P (rmatch r k).
Proof.
  induction r as [|c|cl|r1 IH1 r2 IH2|r1 IH1|cl|cl];
    intros Hr k Hk p t rest; simpl in *.
  - apply Hk.
  - destruct t as [|x t]; [discriminate|].
    destruct (N.eqb_spec x c) as [->|]; [|discriminate].
    now apply consumes_more.
  - destruct t as [|x t]; [discriminate|].
    destruct (class_mem cl x) eqn:E; [|discriminate].
    apply consumes_more; auto.
  - destruct Hr as [Hr1 Hr2]. apply IH1; auto.
  - apply star_loop_consumes; auto.
  - destruct p as [x|]; [destruct (class_mem cl x); [discriminate|]|];
      apply Hk.
  - destruct t as [|x t]; [|destruct (class_mem cl x); [discriminate|]];
      apply Hk.
Qed.

Lemma match_at_consumes P r prev s rest :
  only P r -> match_at r prev s = Some rest ->
  exists m, s = m ++ rest /\ forallb P m = true.
Proof.
  intro Hr. apply (@rmatch_consumes P r Hr (fun _ rest => Some rest)).
  intros p t rest' [= ->]. now exists [].
Qed.

Lemma only_anything r : only (fun _ => true) r.
Proof. induction r; simpl; auto. Qed.

Lemma match_at_suffix r prev s rest :
  match_at r prev s = Some rest -> exists m, s = m ++ rest.
Proof.
  intro H.
  destruct (@match_at_consumes _ r prev s rest (only_anything r) H)
    as [m [E _]].
  now exists m.
Qed.

(** *** The matches of a scan *)

Lemma last_char_snoc pre c : last_char (pre ++ [c]) = Some c.
Proof. unfold last_char. now rewrite rev_unit. Qed.

Lemma firstn_length_app {A} (m rest : list A) :
  firstn (length m) (m ++ rest) = m.
Proof. induction m as [|x m IH]; simpl; [reflexivity | now rewrite IH]. Qed.

Lemma skipn_length_app {A} (m rest : list A) :
  skipn (length m) (m ++ rest) = rest.
Proof. induction m as [|x m IH]; simpl; [reflexivity | exact IH]. Qed.

Lemma app_same_length {A} (a : list A) : forall a' b b',
  a ++ b = a' ++ b' -> length a = length a' -> a = a' /\ b = b'.
Proof.
  induction a as [|x a IH]; intros [|x' a'] b b'; simpl;
    try discriminate; [auto|].
  intros [= -> H] [= Hlen]. destruct (IH _ _ _ H Hlen) as [-> ->]. auto.
Qed.

Lemma match_length (m rest : str) (c : codepoint) (s : str) :
  c :: s = m ++ rest ->
  length (c :: s) - length rest = length m /\
  firstn (length m) (c :: s) = m.
Proof.
  intro H. rewrite H, firstn_length_app, length_app. split; [lia | reflexivity].
Qed.

Lemma finditer_from_nil r prev skip pos :
  finditer_from r prev [] skip pos
  = match skip, match_at r prev [] with
    | O, Some _ => [(pos, [])]
    | _, _ => []
    end.
Proof. reflexivity. Qed.

Lemma finditer_from_cons r prev c s skip pos :
  finditer_from r prev (c :: s) skip pos
  = match skip with
    | S n => finditer_from r (Some c) s n (S pos)
    | O =>
        match match_at r prev (c :: s) with
        | Some rest =>
            (pos, firstn (length (c :: s) - length rest) (c :: s))
              :: finditer_from r (Some c) s
                   (length (c :: s) - length rest - 1) (S pos)
        | None => finditer_from r (Some c) s 0 (S pos)
        end
    end.
Proof. reflexivity. Qed.

Lemma separated_weaken matches : forall from from',
  from' <= from -> separated from matches -> separated from' matches.
Proof.
  destruct matches as [|[i m] matches]; simpl; [auto|].
  intros from from' Hle [H1 H2]. split; [lia | exact H2].
Qed.

Section Scan.

Variable r : regex.

Ltac step_position pre c :=
  rewrite <- (last_char_snoc pre c);
  replace (S (length pre)) with (length (pre ++ [c]))
    by (rewrite length_app; simpl; lia).

(** Every reported match is a match of the pattern at its position. *)
Lemma finditer_sound : forall s pre skip i m,
  In (i, m) (finditer_from r (last_char pre) s skip (length pre)) ->
  exists pre' rest,
    pre ++ s = pre' ++ m ++ rest /\ length pre' = i /\
    length pre + skip <= i /\
    match_at r (last_char pre') (m ++ rest) = Some rest.
Proof.
  induction s as [|c s IH]; intros pre skip i m;
    [simpl | rewrite finditer_from_cons].
  - destruct skip;
      destruct (match_at r (last_char pre) []) as [r0|] eqn:E;
      simpl; try tauto.
    intros [[= <- <-]|[]].
    destruct (match_at_suffix _ _ _ E) as [m0 Hm0].
    symmetry in Hm0. apply app_eq_nil in Hm0. destruct Hm0 as [_ ->].
    exists pre, []. simpl. rewrite E. repeat split; lia.
  - destruct skip as [|n].
    + destruct (match_at r (last_char pre) (c :: s)) as [rest|] eqn:E.
      * destruct (match_at_suffix _ _ _ E) as [m0 Hm0].
        destruct (match_length _ _ Hm0) as [Hlen Hfirst].
        rewrite Hlen, Hfirst.
        intros [[= <- <-]|Hin].
        -- exists pre, rest. rewrite <- Hm0, E. repeat split; lia.
        -- revert Hin. step_position pre c. intro Hin.
           destruct (IH _ _ _ _ Hin) as [pre' [rest' [H1 [H2 [H3 H4]]]]].
           exists pre', rest'. rewrite <- app_assoc in H1.
           rewrite length_app in H3. simpl in *. repeat split; auto; lia.
      * step_position pre c. intro Hin.
        destruct (IH _ _ _ _ Hin) as [pre' [rest' [H1 [H2 [H3 H4]]]]].
        exists pre', rest'. rewrite <- app_assoc in H1.
        rewrite length_app in H3. simpl in *. repeat split; auto; lia.
    + step_position pre c. intro Hin.
      destruct (IH _ _ _ _ Hin) as [pre' [rest' [H1 [H2 [H3 H4]]]]].
      exists pre', rest'. rewrite <- app_assoc in H1.
      rewrite length_app in H3. simpl in *. repeat split; auto; lia.
Qed.

Lemma finditer_separated : forall s pre skip,
  separated (length pre + skip)
            (finditer_from r (last_char pre) s skip (length pre)).
Proof.
  induction s as [|c s IH]; intros pre skip;
    [simpl | rewrite finditer_from_cons].
  - destruct skip; destruct (match_at r (last_char pre) []); simpl;
      try exact I.
    split; [lia | exact I].
  - destruct skip as [|n].
    + destruct (match_at r (last_char pre) (c :: s)) as [rest|] eqn:E.
      * destruct (match_at_suffix _ _ _ E) as [m0 Hm0].
        destruct (match_length _ _ Hm0) as [Hlen Hfirst].
        rewrite Hlen, Hfirst.
        split; [lia|]. step_position pre c.
        eapply separated_weaken; [|apply IH].
        rewrite length_app. cbn [length]. lia.
      * step_position pre c.
        eapply separated_weaken; [|apply IH].
        rewrite length_app. cbn [length]. lia.
    + step_position pre c.
      eapply separated_weaken; [|apply IH].
      rewrite length_app. cbn [length]. lia.
Qed.

(** Every position where the pattern matches is reported, or lies inside
    a reported match that starts before it. *)
Lemma finditer_complete : forall s pre skip pre_j s_j,
  pre ++ s = pre_j ++ s_j ->
  length pre + skip <= length pre_j ->
  match_at r (last_char pre_j) s_j <> None ->
  exists i m,
    In (i, m) (finditer_from r (last_char pre) s skip (length pre)) /\
    i <= length pre_j /\
    (length pre_j < i + length m \/ length pre_j = i).
Proof.
  induction s as [|c s IH]; intros pre skip pre_j s_j Heq Hle Hmatch.
  - assert (Hlen : length pre = length pre_j /\ skip = 0).
    { apply (f_equal (@length _)) in Heq. rewrite !length_app in Heq.
      simpl in Heq. lia. }
    destruct Hlen as [Hlen ->].
    destruct (app_same_length _ _ _ _ Heq Hlen) as [<- <-].
    simpl. destruct (match_at r (last_char pre) []); [|congruence].
    exists (length pre), []. simpl. auto.
  - assert (Hnext : (pre ++ [c]) ++ s = pre_j ++ s_j)
      by (now rewrite <- app_assoc).
    assert (Hrec : forall n, length pre + S n <= length pre_j ->
              exists i m,
                In (i, m) (finditer_from r (Some c) s n (S (length pre))) /\
                i <= length pre_j /\
                (length pre_j < i + length m \/ length pre_j = i)).
    { intros n Hn. step_position pre c.
      apply (IH _ _ _ _ Hnext); [|exact Hmatch].
      rewrite length_app. cbn [length]. lia. }
    rewrite finditer_from_cons. destruct skip as [|n]; [|now apply Hrec].
    destruct (Nat.eq_dec (length pre) (length pre_j)) as [Hpos|Hpos].
    + destruct (app_same_length _ _ _ _ Heq Hpos) as [<- <-].
      destruct (match_at r (last_char pre) (c :: s)) as [rest|] eqn:E;
        [|congruence].
      destruct (match_at_suffix _ _ _ E) as [m0 Hm0].
      destruct (match_length _ _ Hm0) as [Hlen Hfirst].
      rewrite Hlen, Hfirst.
      exists (length pre), m0. simpl. auto.
    + destruct (match_at r (last_char pre) (c :: s)) as [rest|] eqn:E.
      * destruct (match_at_suffix _ _ _ E) as [m0 Hm0].
        destruct (match_length _ _ Hm0) as [Hlen Hfirst].
        rewrite Hlen, Hfirst.
        destruct (Nat.lt_ge_cases (length pre_j) (length pre + length m0))
          as [Hin|Hout].
        -- exists (length pre), m0. simpl. split; [now left|]. lia.
        -- destruct (Hrec (length m0 - 1)) as [i [m [H1 H2]]]; [lia|].
           exists i, m. simpl. auto.
      * destruct (Hrec 0) as [i [m [H1 H2]]]; [lia|].
        exists i, m. auto.
Qed.

End Scan.

(** *** The word pattern *)

Lemma take_alnum_all s :
  forallb is_alnum (take_class (OneOf alnum_items) s) = true.
Proof.
  induction s as [|c s IH]; [reflexivity|].
  cbn [take_class]. rewrite class_mem_alnum.
  destruct (is_alnum c) eqn:E; [|reflexivity].
  cbn [forallb]. now rewrite E, IH.
Qed.

Lemma drop_alnum_head s :
  match drop_class (OneOf alnum_items) s with
  | [] => True
  | c :: _ => is_alnum c = false
  end.
Proof.
  pose proof (drop_class_head (OneOf alnum_items) s) as H.
  destruct (drop_class (OneOf alnum_items) s); [exact I|].
  now rewrite class_mem_alnum in H.
Qed.

Lemma finditer_word_runs : forall s prev skip pos,
  skip <= length s ->
  Runs is_alnum (skipn skip s)
       (map snd (finditer_from word_pattern prev s skip pos)).
Proof.
  induction s as [|c s IH]; intros prev skip pos Hskip.
  - simpl in Hskip. assert (skip = 0) by lia. subst skip.
    rewrite finditer_from_nil, match_at_word. constructor.
  - rewrite finditer_from_cons. destruct skip as [|n].
    + rewrite match_at_word. simpl skipn.
      destruct (is_alnum c) eqn:Ec.
      * set (run := c :: take_class (OneOf alnum_items) s).
        set (rest := drop_class (OneOf alnum_items) s).
        assert (Hsplit : c :: s = run ++ rest)
          by (unfold run, rest; simpl; now rewrite take_drop_class).
        destruct (match_length _ _ Hsplit) as [Hlen Hfirst].
        rewrite Hlen, Hfirst. simpl map. rewrite Hsplit.
        apply Runs_run.
        -- discriminate.
        -- unfold run. simpl. now rewrite Ec, take_alnum_all.
        -- apply drop_alnum_head.
        -- replace rest with (skipn (length run - 1) s).
           ++ apply IH. unfold run. simpl. rewrite Nat.sub_0_r.
              apply length_take_class.
           ++ unfold run, rest. simpl. rewrite Nat.sub_0_r.
              apply skipn_take_class.
      * apply Runs_gap; [exact Ec|].
        apply (IH (Some c) 0 (S pos)). lia.
    + simpl skipn. apply IH. simpl in Hskip. lia.
Qed.

(** The tokens of the word pattern are the maximal runs of alphabet
    characters. *)
Lemma findall_word_runs s : Runs is_alnum s (findall word_pattern s).
Proof. apply (@finditer_word_runs s None 0 0). lia. Qed.

Lemma Runs_none p s : Runs p s [] -> existsb p s = false.
Proof.
  intro H. remember [] as runs eqn:E.
  induction H as [|c s runs Hc H IH|]; [reflexivity | | discriminate].
  simpl. now rewrite Hc, IH.
Qed.

Lemma findall_word_not_empty s :
  existsb is_alnum s = true -> findall word_pattern s <> [].
Proof.
  intros H E. pose proof (findall_word_runs s) as Hr.
  rewrite E in Hr. apply Runs_none in Hr. congruence.
Qed.

(** *** The phrase pattern *)

Lemma starts_with_iff term : forall s,
  starts_with term s = true <-> exists post, s = term ++ post.
Proof.
  induction term as [|c term IH]; intro s; simpl.
  - split; eauto.
  - destruct s as [|x s].
    + split; [discriminate | intros [post H]; discriminate].
    + rewrite andb_true_iff, N.eqb_eq, IH. split.
      * intros [-> [post ->]]. eauto.
      * intros [post [= -> ->]]. eauto.
Qed.

Lemma rmatch_escape term k : forall prev s,
  rmatch (escape term) k prev s
  = if starts_with term s
    then k (advance prev term) (skipn (length term) s) else None.
Proof.
  induction term as [|c term IH]; intros prev s; simpl; [reflexivity|].
  destruct s as [|x s]; [reflexivity|].
  destruct (N.eqb_spec x c) as [->|]; simpl; [|reflexivity].
  now rewrite IH.
Qed.

Lemma match_at_phrase term prev s :
  match_at (phrase_pattern term) prev s
  = if (space_or_start prev && starts_with term s
        && space_or_end (skipn (length term) s))%bool
    then Some (skipn (length term) s) else None.
Proof.
  unfold match_at, phrase_pattern.
  change (rmatch (Seq ?a ?b) ?k) with (rmatch a (rmatch b k)).
  assert (Hbody :
    rmatch (Seq (escape term) (NotAhead (NoneOf [CatSpace])))
           (fun _ rest => Some rest) prev s
    = if (starts_with term s && space_or_end (skipn (length term) s))%bool
      then Some (skipn (length term) s) else None).
  { change (rmatch (Seq ?a ?b) ?k) with (rmatch a (rmatch b k)).
    rewrite rmatch_escape. destruct (starts_with term s); [|reflexivity].
    cbn [rmatch andb].
    destruct (skipn (length term) s) as [|x post]; [reflexivity|].
    rewrite class_mem_not_space. cbn [space_or_end].
    destruct (is_space x); reflexivity. }
  cbn [rmatch] in *. destruct prev as [x|]; cbn [space_or_start].
  - rewrite class_mem_not_space. destruct (is_space x); cbn [negb andb];
      [exact Hbody | reflexivity].
  - exact Hbody.
Qed.

Lemma space_or_start_iff pre :
  space_or_start (last_char pre) = true
  <-> pre = [] \/ exists pre0 c, pre = pre0 ++ [c] /\ is_space c = true.
Proof.
  unfold last_char. destruct (rev pre) as [|c l] eqn:E; simpl.
  - apply (f_equal (@rev _)) in E. rewrite rev_involutive in E. simpl in E.
    tauto.
  - apply (f_equal (@rev _)) in E. rewrite rev_involutive in E. simpl in E.
    split.
    + intro H. right. eauto.
    + intros [H|[pre0 [c' [H Hc]]]].
      * subst pre. destruct (rev l); discriminate.
      * rewrite E in H. apply app_inj_tail in H. destruct H as [_ ->].
        exact Hc.
Qed.

Lemma space_or_end_iff post :
  space_or_end post = true
  <-> post = [] \/ exists c post0, post = c :: post0 /\ is_space c = true.
Proof.
  destruct post as [|c post]; simpl.
  - tauto.
  - split.
    + intro H. right. eauto.
    + intros [H|[c' [post0 [[= -> ->] Hc]]]]; [discriminate | exact Hc].
Qed.

(** The phrase pattern matches exactly at the standalone occurrences. *)
Lemma match_at_phrase_iff term pre s :
  match_at (phrase_pattern term) (last_char pre) s <> None
  <-> standalone_at term (pre ++ s) (length pre).
Proof.
  rewrite match_at_phrase. split.
  - destruct (space_or_start (last_char pre)) eqn:E1; [|simpl; congruence].
    destruct (starts_with term s) eqn:E2; [|simpl; congruence].
    destruct (space_or_end (skipn (length term) s)) eqn:E3;
      [|simpl; congruence].
    intros _. apply starts_with_iff in E2. destruct E2 as [post ->].
    rewrite skipn_length_app in E3.
    exists pre, post. repeat split.
    + now apply space_or_start_iff.
    + now apply space_or_end_iff.
  - intros [pre' [post [Heq [Hlen [Hpre Hpost]]]]].
    symmetry in Hlen.
    destruct (app_same_length _ _ _ _ Heq Hlen) as [<- ->].
    apply space_or_start_iff in Hpre. apply space_or_end_iff in Hpost.
    assert (E2 : starts_with term (term ++ post) = true)
      by (apply starts_with_iff; eauto).
    rewrite Hpre, E2, skipn_length_app, Hpost. discriminate.
Qed.

(** Each match of the phrase pattern is the term itself. *)
Lemma match_at_phrase_text term prev m rest :
  match_at (phrase_pattern term) prev (m ++ rest) = Some rest -> m = term.
Proof.
  rewrite match_at_phrase.
  destruct (starts_with term (m ++ rest)) eqn:E;
    [|rewrite andb_false_r; discriminate].
  destruct (space_or_start prev && true
            && space_or_end (skipn (length term) (m ++ rest)))%bool;
    [|discriminate].
  apply starts_with_iff in E. destruct E as [post E].
  rewrite E, skipn_length_app. intros [= ->].
  now apply app_inv_tail in E.
Qed.

Lemma separated_sorted n matches : forall from,
  1 <= n ->
  separated from matches ->
  (forall i m, In (i, m) matches -> length m = n) ->
  StronglySorted (fun i j => i + n <= j) (map fst matches) /\
  Forall (fun i => from <= i) (map fst matches).
Proof.
  induction matches as [|[i m] matches IH]; intros from Hn Hsep Hlen; simpl.
  - split; constructor.
  - destruct Hsep as [Hi Hsep].
    assert (Hm : length m = n) by (apply (Hlen i); now left).
    rewrite Hm in Hsep. replace (Nat.max 1 n) with n in Hsep by lia.
    destruct (IH _ Hn Hsep) as [Hs Hall].
    { intros i' m' H. apply (Hlen i'). now right. }
    split.
    + constructor; [exact Hs|]. exact Hall.
    + constructor; [exact Hi|].
      eapply Forall_impl; [|exact Hall]. simpl. intros; lia.
Qed.

(** The matches of the phrase pattern are the non-overlapping standalone
    occurrences of the term. *)
Lemma findall_phrase_counts term text :
  term <> [] ->
  counts_standalone term text (length (findall (phrase_pattern term) text)).
Proof.
  intro Hterm.
  assert (Hn : 1 <= length term) by (destruct term; simpl; [congruence|lia]).
  set (r := phrase_pattern term).
  assert (Hsound : forall i m, In (i, m) (finditer r text) ->
            m = term /\ standalone_at term text i).
  { intros i m Hin.
    destruct (@finditer_sound r text [] 0 i m Hin)
      as [pre' [rest [H1 [H2 [_ H4]]]]].
    simpl in H1. split.
    - eapply match_at_phrase_text. exact H4.
    - rewrite H1, <- H2. apply match_at_phrase_iff.
      unfold r in H4. rewrite H4. discriminate. }
  exists (map fst (finditer r text)). repeat split.
  - unfold findall. now rewrite !length_map.
  - intros i Hi. apply in_map_iff in Hi. destruct Hi as [[i' m] [<- Hin]].
    now apply Hsound in Hin.
  - apply (@separated_sorted (length term) (finditer r text) 0 Hn).
    + apply (@finditer_separated r text [] 0).
    + intros i m Hin. apply Hsound in Hin. destruct Hin as [-> _]. reflexivity.
  - intros j [pre [post [Heq [Hlen Hb]]]].
    assert (Hmatch : match_at r (last_char pre) (term ++ post) <> None).
    { apply match_at_phrase_iff. exists pre, post. auto. }
    destruct (@finditer_complete r text [] 0 pre (term ++ post))
      as [i [m [Hin [Hle Hcover]]]]; [exact Heq | simpl; lia | exact Hmatch |].
    exists i. split.
    + apply in_map_iff. exists (i, m). auto.
    + apply Hsound in Hin. destruct Hin as [-> _]. lia.
Qed.

(** *** The compound-token pattern *)

Lemma forallb_alnum_class s :
  forallb is_alnum s = true -> forallb (class_mem alnum_class) s = true.
Proof.
  induction s as [|c s IH]; cbn [forallb]; [reflexivity|].
  intro H. apply andb_true_iff in H. destruct H as [Hc Hs].
  unfold alnum_class at 1. now rewrite class_mem_alnum, Hc, IH.
Qed.

Lemma forallb_punct_class s :
  forallb is_punct s = true -> forallb (class_mem punct_class) s = true.
Proof.
  induction s as [|c s IH]; cbn [forallb]; [reflexivity|].
  intro H. apply andb_true_iff in H. destruct H as [Hc Hs].
  unfold punct_class at 1. rewrite class_mem_punct.
  fold (is_punct c). now rewrite Hc, IH.
Qed.

Lemma space_or_end_not_alnum rest :
  space_or_end rest = true ->
  match rest with [] => True | x :: _ => class_mem alnum_class x = false end.
Proof.
  destruct rest as [|x rest]; cbn [space_or_end]; [auto|]. intro H.
  unfold alnum_class. rewrite class_mem_alnum.
  destruct (is_alnum x) eqn:E; [|reflexivity].
  apply is_alnum_not_space in E. congruence.
Qed.

(** At the end of the text or before whitespace no further block joins. *)
Lemma star_joined_stop fuel prev rest :
  space_or_end rest = true ->
  star_loop (rmatch joined_block) (fun _ rest => Some rest) fuel prev rest
  = Some rest.
Proof.
  intro H. destruct fuel as [|fuel]; [reflexivity|].
  cbn [star_loop]. unfold joined_block. cbn [rmatch].
  rewrite rmatch_plus_class. destruct rest as [|x rest]; [reflexivity|].
  simpl in H. unfold punct_class. rewrite class_mem_punct, H. reflexivity.
Qed.

(** A punctuation run and a word before whitespace join in one round. *)
Lemma star_joined_once fuel prev p b rest :
  p <> [] -> forallb is_punct p = true ->
  b <> [] -> forallb is_alnum b = true ->
  space_or_end rest = true ->
  star_loop (rmatch joined_block) (fun _ rest => Some rest) (S fuel) prev
            (p ++ b ++ rest)
  = Some rest.
Proof.
  intros Hp Hpall Hb Hball Hrest.
  destruct p as [|y p]; [congruence|]. destruct b as [|z b]; [congruence|].
  simpl in Hpall, Hball.
  apply andb_true_iff in Hpall, Hball.
  destruct Hpall as [Hy Hpall], Hball as [Hz Hball].
  cbn [star_loop]. unfold joined_block. cbn [rmatch].
  rewrite rmatch_plus_class. cbn [app].
  assert (Ey : class_mem punct_class y = true)
    by (unfold punct_class; rewrite class_mem_punct; exact Hy).
  assert (Ez : class_mem alnum_class z = true)
    by (unfold alnum_class; rewrite class_mem_alnum; exact Hz).
  assert (Ez' : class_mem punct_class z = false).
  { unfold punct_class. rewrite class_mem_punct, Hz.
    now rewrite orb_true_r. }
  rewrite Ey.
  rewrite (@greedy_class_longest punct_class _ rest); [reflexivity|].
  destruct (@take_class_app punct_class p (z :: b ++ rest)) as [-> ->];
    [now apply forallb_punct_class | exact Ez'|].
  rewrite rmatch_plus_class. cbn [app]. rewrite Ez.
  apply greedy_class_longest.
  destruct (@take_class_app alnum_class b rest) as [-> ->];
    [now apply forallb_alnum_class | now apply space_or_end_not_alnum|].
  assert (Hshort : (length rest <? length (y :: p ++ z :: b ++ rest)) = true).
  { apply Nat.ltb_lt. simpl. rewrite !length_app. simpl.
    rewrite length_app. lia. }
  rewrite Hshort. now apply star_joined_stop.
Qed.

Lemma rmatch_token_pattern k prev s :
  rmatch token_pattern k prev s
  = rmatch (Plus (Cls alnum_class)) (rmatch (Star joined_block) k) prev s.
Proof. reflexivity. Qed.

(** A word standing alone is one token. *)
Lemma match_at_token_word prev a rest :
  a <> [] -> forallb is_alnum a = true -> space_or_end rest = true ->
  match_at token_pattern prev (a ++ rest) = Some rest.
Proof.
  intros Ha Haall Hrest. destruct a as [|x a]; [congruence|].
  simpl in Haall. apply andb_true_iff in Haall. destruct Haall as [Hx Haall].
  unfold match_at. rewrite rmatch_token_pattern, rmatch_plus_class.
  cbn [app]. unfold alnum_class at 1. rewrite class_mem_alnum, Hx.
  apply greedy_class_longest.
  destruct (@take_class_app alnum_class a rest) as [-> ->];
    [now apply forallb_alnum_class | now apply space_or_end_not_alnum|].
  cbn [rmatch]. now apply star_joined_stop.
Qed.

(** Two words joined by punctuation are one token. *)
Lemma match_at_token_compound prev a p b rest :
  a <> [] -> forallb is_alnum a = true ->
  p <> [] -> forallb is_punct p = true ->
  b <> [] -> forallb is_alnum b = true ->
  space_or_end rest = true ->
  match_at token_pattern prev (a ++ p ++ b ++ rest) = Some rest.
Proof.
  intros Ha Haall Hp Hpall Hb Hball Hrest.
  destruct a as [|x a]; [congruence|].
  simpl in Haall. apply andb_true_iff in Haall. destruct Haall as [Hx Haall].
  unfold match_at. rewrite rmatch_token_pattern, rmatch_plus_class.
  cbn [app]. unfold alnum_class at 1. rewrite class_mem_alnum, Hx.
  apply greedy_class_longest.
  assert (Hhead : match p ++ b ++ rest with
                  | [] => True
                  | c :: _ => class_mem alnum_class c = false
                  end).
  { destruct p as [|y p]; [congruence|]. cbn [app forallb] in *.
    apply andb_true_iff in Hpall. destruct Hpall as [Hy _].
    unfold alnum_class. rewrite class_mem_alnum.
    unfold is_punct in Hy. apply negb_true_iff, orb_false_iff in Hy. tauto. }
  destruct (@take_class_app alnum_class a (p ++ b ++ rest)) as [-> ->];
    [now apply forallb_alnum_class | exact Hhead|].
  cbn [rmatch].
  assert (Hfuel : exists fuel, length (p ++ b ++ rest) = S fuel).
  { destruct p as [|y p]; [congruence|]. simpl. eauto. }
  destruct Hfuel as [fuel ->]. now apply star_joined_once.
Qed.

Lemma match_at_token_not_alnum prev s :
  match s with [] => True | c :: _ => is_alnum c = false end ->
  match_at token_pattern prev s = None.
Proof.
  intro H. unfold match_at. rewrite rmatch_token_pattern, rmatch_plus_class.
  destruct s as [|c s]; [reflexivity|].
  unfold alnum_class. now rewrite class_mem_alnum, H.
Qed.

(** *** Stepping over a match *)

Lemma finditer_from_skip r : forall m prev rest pos,
  finditer_from r prev (m ++ rest) (length m) pos
  = finditer_from r (advance prev m) rest 0 (pos + length m).
Proof.
  induction m as [|c m IH]; intros prev rest pos.
  - simpl. now rewrite Nat.add_0_r.
  - cbn [app length]. rewrite finditer_from_cons, IH.
    simpl. now rewrite Nat.add_succ_r.
Qed.

Lemma finditer_from_match r prev m rest pos :
  m <> [] -> match_at r prev (m ++ rest) = Some rest ->
  finditer_from r prev (m ++ rest) 0 pos
  = (pos, m) :: finditer_from r (advance prev m) rest 0 (pos + length m).
Proof.
  intros Hm H. destruct m as [|c m]; [congruence|].
  cbn [app] in *. rewrite finditer_from_cons, H.
  destruct (@match_length (c :: m) rest c (m ++ rest) eq_refl) as [-> ->].
  f_equal. cbn [length]. rewrite Nat.sub_succ, Nat.sub_0_r.
  rewrite finditer_from_skip. simpl. now rewrite Nat.add_succ_r.
Qed.

Lemma finditer_from_match_end r prev m pos :
  m <> [] -> match_at r prev m = Some [] ->
  finditer_from r prev m 0 pos
  = (pos, m) :: finditer_from r (advance prev m) [] 0 (pos + length m).
Proof.
  intros Hm H. rewrite <- (app_nil_r m) in H.
  pose proof (finditer_from_match r prev pos Hm H) as E.
  now rewrite app_nil_r in E.
Qed.

Lemma finditer_from_no_match r prev c s pos :
  match_at r prev (c :: s) = None ->
  finditer_from r prev (c :: s) 0 pos = finditer_from r (Some c) s 0 (S pos).
Proof. intro H. now rewrite finditer_from_cons, H. Qed.

(** The text "a-b a": the compound is one token, the bare word another. *)
Lemma findall_compound_then_word a p b sp :
  a <> [] -> forallb is_alnum a = true ->
  p <> [] -> forallb is_punct p = true ->
  b <> [] -> forallb is_alnum b = true ->
  is_space sp = true ->
  findall token_pattern (a ++ p ++ b ++ sp :: a) = [a ++ p ++ b; a].
Proof.
  intros Ha Haall Hp Hpall Hb Hball Hsp.
  unfold findall, finditer.
  replace (a ++ p ++ b ++ sp :: a) with ((a ++ p ++ b) ++ sp :: a)
    by (now rewrite <- !app_assoc).
  rewrite finditer_from_match.
  - rewrite finditer_from_no_match.
    + rewrite finditer_from_match_end.
      * rewrite finditer_from_nil.
        rewrite match_at_token_not_alnum by exact I. reflexivity.
      * exact Ha.
      * rewrite <- (app_nil_r a) at 1. now apply match_at_token_word.
    + apply match_at_token_not_alnum.
      destruct (is_alnum sp) eqn:E; [|reflexivity].
      apply is_alnum_not_space in E. congruence.
  - destruct a; [congruence | discriminate].
  - rewrite <- !app_assoc. now apply match_at_token_compound.
Qed.

(** No token of the compound-token pattern holds whitespace. *)
Lemma only_token_pattern : only (fun c => negb (is_space c)) token_pattern.
Proof.
  assert (HA : forall x, class_mem (OneOf alnum_items) x = true ->
                         negb (is_space x) = true).
  { intros x H. rewrite class_mem_alnum in H.
    apply is_alnum_not_space in H. now rewrite H. }
  assert (HN : forall x, class_mem (NoneOf (CatSpace :: alnum_items)) x = true
                         -> negb (is_space x) = true).
  { intros x H. rewrite class_mem_punct in H.
    apply negb_true_iff, orb_false_iff in H. destruct H as [-> _].
    reflexivity. }
  unfold token_pattern, Plus. cbn [only]. tauto.
Qed.

Lemma token_no_space s t :
  In t (findall token_pattern s) -> existsb is_space t = false.
Proof.
  intro H. unfold findall in H. apply in_map_iff in H.
  destruct H as [[i m] [Hm Hin]]. simpl in Hm. subst m.
  destruct (@finditer_sound token_pattern s [] 0 i t Hin)
    as [pre' [rest [_ [_ [_ H]]]]].
  destruct (@match_at_consumes _ _ _ _ _ only_token_pattern H)
    as [m [E Hall]].
  apply app_inv_tail in E. subst m.
  apply not_true_is_false. intro Hex. apply existsb_exists in Hex.
  destruct Hex as [c [Hc Hsp]]. rewrite forallb_forall in Hall.
  specialize (Hall c Hc). rewrite Hsp in Hall. discriminate.
Qed.

(** The number of non-overlapping standalone occurrences is determined. *)
Lemma standalone_starts_unique term text : forall starts starts' from,
  (forall i, In i starts -> standalone_at term text i /\ from <= i) ->
  (forall i, In i starts' -> standalone_at term text i /\ from <= i) ->
  StronglySorted (fun i j => i + length term <= j) starts ->
  StronglySorted (fun i j => i + length term <= j) starts' ->
  (forall j, standalone_at term text j -> from <= j ->
             exists i, In i starts /\ i <= j < i + length term) ->
  (forall j, standalone_at term text j -> from <= j ->
             exists i, In i starts' /\ i <= j < i + length term) ->
  starts = starts'.
Proof.
  assert (Hhead : forall a l i,
            StronglySorted (fun i j => i + length term <= j) (a :: l) ->
            In i (a :: l) -> a <= i).
  { intros a l i Hs [->|Hi]; [lia|].
    inversion Hs as [|? ? _ Hall]; subst. rewrite Forall_forall in Hall.
    specialize (Hall i Hi). lia. }
  assert (Htail : forall a l from,
            (forall i, In i (a :: l) -> standalone_at term text i /\ from <= i) ->
            StronglySorted (fun i j => i + length term <= j) (a :: l) ->
            (forall j, standalone_at term text j -> from <= j ->
                       exists i, In i (a :: l) /\ i <= j < i + length term) ->
            (forall i, In i l ->
                       standalone_at term text i /\ a + length term <= i) /\
            StronglySorted (fun i j => i + length term <= j) l /\
            (forall j, standalone_at term text j -> a + length term <= j ->
                       exists i, In i l /\ i <= j < i + length term)).
  { intros a l from Hin Hs Hcov.
    inversion Hs as [|? ? Hs' Hall]; subst. rewrite Forall_forall in Hall.
    split; [|split; [exact Hs'|]].
    - intros i Hi. split; [apply Hin; now right | now apply Hall].
    - intros j Hj Hle.
      assert (Hfrom : from <= j).
      { destruct (Hin a (or_introl eq_refl)) as [_ Ha]. lia. }
      destruct (Hcov j Hj Hfrom) as [i [[<-|Hi] Hr]]; [lia|]. eauto. }
  induction starts as [|a l IH]; intros [|a' l'] from H1 H1' H2 H2' H3 H3'.
  - reflexivity.
  - destruct (H1' a' (or_introl eq_refl)) as [Hs Hf].
    destruct (H3 a' Hs Hf) as [i [[] _]].
  - destruct (H1 a (or_introl eq_refl)) as [Hs Hf].
    destruct (H3' a Hs Hf) as [i [[] _]].
  - assert (a = a').
    { destruct (H1 a (or_introl eq_refl)) as [Hs Hf].
      destruct (H1' a' (or_introl eq_refl)) as [Hs' Hf'].
      destruct (H3' a Hs Hf) as [i' [Hi' Hr']].
      destruct (H3 a' Hs' Hf') as [i [Hi Hr]].
      pose proof (Hhead _ _ _ H2' Hi'). pose proof (Hhead _ _ _ H2 Hi). lia. }
    subst a'. f_equal.
    destruct (Htail _ _ _ H1 H2 H3) as [T1 [T2 T3]].
    destruct (Htail _ _ _ H1' H2' H3') as [T1' [T2' T3']].
    exact (IH l' (a + length term) T1 T1' T2 T2' T3 T3').
Qed.

Lemma counts_standalone_unique term text n n' :
  counts_standalone term text n -> counts_standalone term text n' -> n = n'.
Proof.
  intros [l [-> [H1 [H2 H3]]]] [l' [-> [H1' [H2' H3']]]].
  f_equal. apply (@standalone_starts_unique term text l l' 0); auto.
  - intros i Hi. split; [auto | lia].
  - intros i Hi. split; [auto | lia].
Qed.

(** No family of pairwise non-overlapping standalone occurrences is larger
    than the one that is counted. *)
Lemma standalone_family_bound term text : forall starts family from,
  (forall i, In i starts -> standalone_at term text i /\ from <= i) ->
  StronglySorted (fun i j => i + length term <= j) starts ->
  (forall j, standalone_at term text j -> from <= j ->
             exists i, In i starts /\ i <= j < i + length term) ->
  (forall i, In i family -> standalone_at term text i /\ from <= i) ->
  StronglySorted (fun i j => i + length term <= j) family ->
  length family <= length starts.
Proof.
  induction starts as [|a l IH]; intros [|f family] from H1 H2 H3 F1 F2;
    simpl; try lia.
  - destruct (F1 f (or_introl eq_refl)) as [Hs Hf].
    destruct (H3 f Hs Hf) as [i [[] _]].
  - apply le_n_S.
    inversion H2 as [|? ? H2' Hall]; subst. rewrite Forall_forall in Hall.
    inversion F2 as [|? ? F2' Fall]; subst. rewrite Forall_forall in Fall.
    destruct (F1 f (or_introl eq_refl)) as [Hs Hf].
    destruct (H1 a (or_introl eq_refl)) as [_ Ha].
    assert (Haf : a <= f).
    { destruct (H3 f Hs Hf) as [i [[<-|Hi] Hr]]; [lia|].
      specialize (Hall i Hi). lia. }
    apply (IH family (a + length term)).
    + intros i Hi. split; [apply H1; now right | now apply Hall].
    + exact H2'.
    + intros j Hj Hle.
      destruct (H3 j Hj) as [i [[<-|Hi] Hr]]; [lia | lia | eauto].
    + intros i Hi. split; [apply F1; now right|].
      specialize (Fall i Hi). lia.
    + exact F2'.
Qed.

Lemma counts_standalone_maximal term text n family :
  counts_standalone term text n ->
  (forall i, In i family -> standalone_at term text i) ->
  StronglySorted (fun i j => i + length term <= j) family ->
  length family <= n.
Proof.
  intros [l [-> [H1 [H2 H3]]]] F1 F2.
  apply (@standalone_family_bound term text l family 0); auto.
  - intros i Hi. split; [auto | lia].
  - intros i Hi. split; [auto | lia].
Qed.

(** ** Texts and terms in ASCII

    On ASCII input every case mapping is the ASCII one, so the results do
    not depend on it. *)

Lemma forallb_lstrip_keeps (p : codepoint -> bool) s :
  forallb p s = true -> forallb p (lstrip s) = true.
Proof.
  induction s as [|c s IH]; simpl; [auto|].
  intro H. destruct (is_space c); [|exact H].
  apply andb_true_iff in H. tauto.
Qed.

Lemma forallb_strip_keeps (p : codepoint -> bool) s :
  forallb p s = true -> forallb p (strip s) = true.
Proof.
  intro H. unfold strip, rstrip.
  rewrite forallb_rev. apply forallb_lstrip_keeps.
  rewrite forallb_rev. now apply forallb_lstrip_keeps.
Qed.

Lemma fold_left_ext_in {A B} (f g : A -> B -> A) l :
  (forall a x, In x l -> f a x = g a x) ->
  forall a, fold_left f l a = fold_left g l a.
Proof.
  induction l as [|x l IH]; intros H a; simpl; [reflexivity|].
  rewrite H by now left. apply IH. intros; apply H; now right.
Qed.

Section Ascii.

Context {L : Lower}.

Lemma lower_ascii_any s :
  forallb is_ascii s = true -> lower s = lower (Lower := ascii_lower) s.
Proof. intro H. now rewrite (lower_ascii s H). Qed.

Lemma count_terms_in_text_ascii text terms :
  forallb is_ascii text = true ->
  forallb (forallb is_ascii) terms = true ->
  count_terms_in_text text terms
  = count_terms_in_text (L := ascii_lower) text terms.
Proof.
  intros Htext Hterms. unfold count_terms_in_text.
  rewrite (lower_ascii_any text Htext).
  apply fold_left_ext_in. intros out original Hin.
  rewrite forallb_forall in Hterms.
  now rewrite (lower_ascii_any (strip original))
    by (apply forallb_strip_keeps; auto).
Qed.

Lemma count_top_words_ascii text :
  forallb is_ascii text = true ->
  count_top_words text = count_top_words (L := ascii_lower) text.
Proof.
  intro Htext. unfold count_top_words.
  now rewrite (lower_ascii_any text Htext).
Qed.

Lemma build_result_ascii text terms :
  forallb is_ascii text = true ->
  forallb (forallb is_ascii)
          (match terms with Some ts => ts | None => [] end) = true ->
  build_result text terms = build_result (L := ascii_lower) text terms.
Proof.
  intros Htext Hterms. unfold build_result.
  rewrite count_terms_in_text_ascii, count_top_words_ascii by assumption.
  reflexivity.
Qed.

End Ascii.

Section Counts.

Context {L : Lower}.

Lemma has_blank_not_empty term : has_blank term = true -> term <> [].
Proof. destruct term; [discriminate | discriminate]. Qed.

(** The count of a term with a blank is its number of non-overlapping
    standalone occurrences in the lower-cased text. *)
Lemma term_value_phrase text original :
  has_blank (lower (strip original)) = true ->
  counts_standalone (lower (strip original)) (lower text)
                    (term_value text original).
Proof.
  intro H. unfold term_value, term_count. rewrite H.
  apply findall_phrase_counts. now apply has_blank_not_empty.
Qed.

Lemma count_terms_in_text_retained text terms original :
  In original terms -> retained original = true ->
  dict_get (count_terms_in_text text terms) original
  = Some (term_value text original).
Proof.
  intros Hin Hr. rewrite count_terms_in_text_get, Hr.
  apply existsb_str_eqb in Hin. now rewrite Hin.
Qed.

End Counts.

(** ** Punctuation at the boundary of a word *)

Lemma star_loop_blind (m : cont -> cont) k :
  (forall k', blind k' -> blind (m k')) ->
  blind k -> forall fuel, blind (star_loop m k fuel).
Proof.
  intros Hm Hk. induction fuel as [|fuel IH]; intros p p' t; simpl.
  - apply Hk.
  - match goal with |- context [m ?kk p t] => set (round := kk) end.
    assert (Hround : blind round).
    { intros q q' t'. unfold round.
      destruct (length t' <? length t); [apply IH | reflexivity]. }
    rewrite (Hm round Hround p p' t), (Hk p p' t). reflexivity.
Qed.

Lemma rmatch_blind r :
  no_lookbehind r -> forall k, blind k -> blind (rmatch r k).
Proof.
  induction r as [|c|cl|r1 IH1 r2 IH2|r1 IH1|cl|cl];
    intros Hr k Hk p p' t; simpl in *.
  - apply Hk.
  - reflexivity.
  - reflexivity.
  - destruct Hr as [Hr1 Hr2]. apply IH1; auto.
  - apply star_loop_blind; auto.
  - destruct Hr.
  - destruct t as [|x t]; [|destruct (class_mem cl x); [reflexivity|]];
      apply Hk.
Qed.

Lemma match_at_blind r p p' s :
  no_lookbehind r -> match_at r p s = match_at r p' s.
Proof.
  intro Hr. apply (@rmatch_blind r Hr (fun _ rest => Some rest)).
  intros q q' t. reflexivity.
Qed.

(** Without a lookbehind the matched texts depend neither on the position
    nor on the character before it. *)
Lemma finditer_from_blind r :
  no_lookbehind r ->
  forall s prev prev' skip pos pos',
    map snd (finditer_from r prev s skip pos)
    = map snd (finditer_from r prev' s skip pos').
Proof.
  intro Hr. induction s as [|c s IH]; intros prev prev' skip pos pos'.
  - rewrite !finditer_from_nil, (@match_at_blind r prev prev' [] Hr).
    destruct skip, (match_at r prev' []); reflexivity.
  - rewrite !finditer_from_cons, (@match_at_blind r prev prev' (c :: s) Hr).
    destruct skip as [|n]; [|apply IH].
    destruct (match_at r prev' (c :: s)) as [rest|]; [|apply IH].
    cbn [map snd]. f_equal. apply IH.
Qed.

Lemma no_lookbehind_token_pattern : no_lookbehind token_pattern.
Proof. unfold token_pattern, Plus. simpl. tauto. Qed.

Lemma findall_token_from prev s pos :
  map snd (finditer_from token_pattern prev s 0 pos)
  = findall token_pattern s.
Proof.
  unfold findall, finditer.
  apply finditer_from_blind, no_lookbehind_token_pattern.
Qed.

(** Characters outside the alphabet before a token add no token. *)
Lemma findall_token_skip q : forall s,
  forallb (fun c => negb (is_alnum c)) q = true ->
  findall token_pattern (q ++ s) = findall token_pattern s.
Proof.
  induction q as [|c q IH]; intros s Hq; [reflexivity|].
  simpl in Hq. apply andb_true_iff in Hq. destruct Hq as [Hc Hq].
  apply negb_true_iff in Hc.
  unfold findall at 1. unfold finditer. cbn [app].
  rewrite finditer_from_no_match
    by (apply match_at_token_not_alnum; exact Hc).
  rewrite findall_token_from. now apply IH.
Qed.

(** Punctuation after a word and before whitespace, or the end, is not
    joined to the word. *)
Lemma match_at_token_word_punct prev a p rest :
  a <> [] -> forallb is_alnum a = true ->
  forallb is_punct p = true -> space_or_end rest = true ->
  match_at token_pattern prev (a ++ p ++ rest) = Some (p ++ rest).
Proof.
  intros Ha Haall Hpall Hrest.
  destruct p as [|y p]; [now apply match_at_token_word|].
  cbn [forallb] in Hpall. apply andb_true_iff in Hpall.
  destruct Hpall as [Hy Hpall].
  destruct a as [|x a]; [congruence|].
  cbn [forallb] in Haall. apply andb_true_iff in Haall.
  destruct Haall as [Hx Haall].
  assert (Ey : class_mem punct_class y = true)
    by (unfold punct_class; rewrite class_mem_punct; exact Hy).
  assert (Ey' : class_mem alnum_class y = false).
  { unfold alnum_class. rewrite class_mem_alnum.
    unfold is_punct in Hy. apply negb_true_iff, orb_false_iff in Hy. tauto. }
  unfold match_at. rewrite rmatch_token_pattern, rmatch_plus_class.
  cbn [app]. unfold alnum_class at 1. rewrite class_mem_alnum, Hx.
  apply greedy_class_longest.
  destruct (@take_class_app alnum_class a (y :: p ++ rest)) as [-> ->];
    [now apply forallb_alnum_class | exact Ey'|].
  cbn [rmatch length star_loop]. unfold joined_block. cbn [rmatch].
  rewrite rmatch_plus_class, Ey.
  rewrite greedy_class_only_longest.
  - destruct (@take_class_app punct_class p rest) as [-> ->].
    + now apply forallb_punct_class.
    + destruct rest as [|z rest]; [exact I|]. simpl in Hrest.
      unfold punct_class. now rewrite class_mem_punct, Hrest.
    + rewrite rmatch_plus_class.
      pose proof (space_or_end_not_alnum rest Hrest) as Hz.
      destruct rest as [|z rest]; [reflexivity|]. now rewrite Hz.
  - intros q z t Hz. rewrite rmatch_plus_class.
    unfold punct_class in Hz. rewrite class_mem_punct in Hz.
    apply negb_true_iff, orb_false_iff in Hz. destruct Hz as [_ Hz].
    unfold alnum_class. now rewrite class_mem_alnum, Hz.
Qed.

Lemma punct_not_alnum p :
  forallb is_punct p = true ->
  forallb (fun c => negb (is_alnum c)) p = true.
Proof.
  intro H. apply forallb_forall. intros c Hc.
  rewrite forallb_forall in H. specialize (H c Hc).
  unfold is_punct in H. apply negb_true_iff, orb_false_iff in H.
  destruct H as [_ ->]. reflexivity.
Qed.

(** *** The compound units of a text *)

Lemma stops_drop s :
  stops s <->
  match drop_class punct_class s with
  | [] => True
  | c :: _ => is_alnum c = false
  end.
Proof.
  unfold stops. induction s as [|x s IH].
  - cbn [drop_class]. split; [auto|]. intros _ p c rest E. now destruct p.
  - cbn [drop_class]. unfold punct_class at 1. rewrite class_mem_punct.
    fold (is_punct x). destruct (is_punct x) eqn:Ex.
    + fold punct_class. rewrite <- IH. split.
      * intros H p c rest -> Hp. apply (H (x :: p) c rest); [reflexivity|].
        cbn [forallb]. now rewrite Ex, Hp.
      * intros H p c rest E Hp. destruct p as [|y p]; cbn [app] in E.
        -- injection E as -> _. unfold is_punct in Ex.
           apply negb_true_iff, orb_false_iff in Ex. tauto.
        -- injection E as -> E. cbn [forallb] in Hp.
           apply andb_true_iff in Hp. now apply (H p c rest).
    + split.
      * intro H. now apply (H [] x s).
      * intros Hx p c rest E Hp. destruct p as [|y p]; cbn [app] in E.
        -- now injection E as -> _.
        -- injection E as -> _. cbn [forallb] in Hp. now rewrite Ex in Hp.
Qed.

Lemma punct_class_not_alnum p x t k :
  class_mem punct_class x = true ->
  rmatch (Plus (Cls alnum_class)) k p (x :: t) = None.
Proof.
  intro Hx. rewrite rmatch_plus_class.
  unfold punct_class in Hx. rewrite class_mem_punct in Hx.
  apply negb_true_iff, orb_false_iff in Hx. destruct Hx as [_ Hx].
  unfold alnum_class. now rewrite class_mem_alnum, Hx.
Qed.

Lemma forallb_class_punct s :
  forallb (class_mem punct_class) s = true -> forallb is_punct s = true.
Proof.
  induction s as [|c s IH]; cbn [forallb]; [reflexivity|].
  intro H. apply andb_true_iff in H. destruct H as [Hc Hs].
  unfold punct_class in Hc. rewrite class_mem_punct in Hc.
  fold (is_punct c) in Hc. now rewrite Hc, IH.
Qed.

(** Where the text stops a unit, no further block joins. *)
Lemma star_joined_stops fuel prev s :
  stops s ->
  star_loop (rmatch joined_block) (fun _ rest => Some rest) fuel prev s
  = Some s.
Proof.
  intro H. apply stops_drop in H. destruct fuel as [|fuel]; [reflexivity|].
  cbn [star_loop]. unfold joined_block. cbn [rmatch].
  rewrite rmatch_plus_class. destruct s as [|y s]; [reflexivity|].
  cbn [drop_class] in H.
  destruct (class_mem punct_class y) eqn:Ey; [|reflexivity].
  rewrite greedy_class_only_longest
    by (intros; now apply punct_class_not_alnum).
  rewrite rmatch_plus_class.
  destruct (drop_class punct_class s) as [|z t]; [reflexivity|].
  unfold alnum_class. now rewrite class_mem_alnum, H.
Qed.

Lemma joined_stops_head g s :
  joined g -> stops s ->
  match g ++ s with
  | [] => True
  | x :: _ => class_mem alnum_class x = false
  end.
Proof.
  intros Hg Hs. unfold alnum_class.
  destruct Hg as [|p a g Hp Hpall _ _ _].
  - destruct s as [|c s]; [exact I|]. cbn [app].
    rewrite class_mem_alnum. now apply (Hs [] c s).
  - destruct p as [|y p]; [congruence|]. cbn [app forallb] in *.
    apply andb_true_iff in Hpall. destruct Hpall as [Hy _].
    rewrite class_mem_alnum. unfold is_punct in Hy.
    apply negb_true_iff, orb_false_iff in Hy. tauto.
Qed.

(** A chain of blocks before such a text is taken whole, however many
    blocks it has. *)
Lemma star_joined_chain g :
  joined g ->
  forall s fuel prev,
    stops s -> length (g ++ s) <= fuel ->
    star_loop (rmatch joined_block) (fun _ rest => Some rest) fuel prev
              (g ++ s)
    = Some s.
Proof.
  induction 1 as [|p a g Hp Hpall Ha Haall Hg IH];
    intros s fuel prev Hs Hfuel.
  - now apply star_joined_stops.
  - pose proof (joined_stops_head Hg Hs) as Hhead.
    destruct p as [|y p]; [congruence|]. destruct a as [|z a]; [congruence|].
    assert (E : ((y :: p) ++ (z :: a) ++ g) ++ s
                = y :: p ++ z :: a ++ (g ++ s)).
    { cbn [app]. rewrite <- app_assoc. cbn [app].
      now rewrite <- app_assoc. }
    rewrite E in *. clear E.
    cbn [forallb] in Hpall, Haall.
    apply andb_true_iff in Hpall, Haall.
    destruct Hpall as [Hy Hpall], Haall as [Hz Haall].
    assert (Ey : class_mem punct_class y = true)
      by (unfold punct_class; rewrite class_mem_punct; exact Hy).
    assert (Ez : class_mem alnum_class z = true)
      by (unfold alnum_class; rewrite class_mem_alnum; exact Hz).
    assert (Ez' : class_mem punct_class z = false).
    { unfold punct_class. rewrite class_mem_punct, Hz.
      now rewrite orb_true_r. }
    assert (Hlen : length (g ++ s) < length (y :: p ++ z :: a ++ g ++ s)).
    { cbn [length]. rewrite (length_app p). cbn [length].
      rewrite (length_app a). lia. }
    destruct fuel as [|fuel]; [cbn [length] in Hfuel; lia|].
    cbn [star_loop]. unfold joined_block. cbn [rmatch].
    rewrite rmatch_plus_class, Ey.
    rewrite (@greedy_class_longest punct_class _ s); [reflexivity|].
    destruct (@take_class_app punct_class p (z :: a ++ g ++ s)) as [-> ->];
      [now apply forallb_punct_class | exact Ez'|].
    rewrite rmatch_plus_class, Ez.
    apply greedy_class_longest.
    destruct (@take_class_app alnum_class a (g ++ s)) as [-> ->];
      [now apply forallb_alnum_class | exact Hhead|].
    apply Nat.ltb_lt in Hlen as Hshort. rewrite Hshort.
    apply IH; [exact Hs | lia].
Qed.

(** A compound unit before a text that stops it is one match. *)
Lemma match_at_token_unit prev t s :
  compound t -> stops s ->
  match_at token_pattern prev (t ++ s) = Some s.
Proof.
  intros [a [g [-> [Ha [Haall Hg]]]]] Hs.
  destruct a as [|x a]; [congruence|].
  cbn [forallb] in Haall. apply andb_true_iff in Haall.
  destruct Haall as [Hx Haall].
  rewrite <- app_assoc. cbn [app].
  unfold match_at. rewrite rmatch_token_pattern, rmatch_plus_class.
  unfold alnum_class at 1. rewrite class_mem_alnum, Hx.
  apply greedy_class_longest.
  destruct (@take_class_app alnum_class a (g ++ s)) as [-> ->];
    [now apply forallb_alnum_class | now apply joined_stops_head|].
  cbn [rmatch]. now apply star_joined_chain.
Qed.

(** A text that does not begin with an alphabet character begins with a
    chain of blocks that goes no further. *)
Lemma joined_decompose : forall n s,
  length s <= n ->
  match s with [] => True | c :: _ => is_alnum c = false end ->
  exists g rest, s = g ++ rest /\ joined g /\ stops rest.
Proof.
  induction n as [|n IH]; intros s Hlen Hhead.
  - destruct s; [|simpl in Hlen; lia].
    exists [], []. split; [reflexivity|]. split; [constructor|].
    now apply stops_drop.
  - pose proof (take_drop_class punct_class s) as Hsplit.
    pose proof (take_class_all punct_class s) as Hpall.
    apply forallb_class_punct in Hpall.
    destruct (drop_class punct_class s) as [|z t] eqn:Ed.
    { exists [], s. split; [reflexivity|]. split; [constructor|].
      apply stops_drop. now rewrite Ed. }
    destruct (is_alnum z) eqn:Ez.
    2: { exists [], s. split; [reflexivity|]. split; [constructor|].
         apply stops_drop. now rewrite Ed. }
    destruct (take_class punct_class s) as [|y p] eqn:Et.
    { cbn [app] in Hsplit. subst s. congruence. }
    destruct (IH (drop_class alnum_class t)) as [g [rest [Eg [Hg Hrest]]]].
    + pose proof (take_drop_class alnum_class t) as Ht.
      rewrite <- Hsplit, <- Ht in Hlen.
      rewrite length_app in Hlen. cbn [length] in Hlen.
      rewrite length_app in Hlen. lia.
    + apply drop_alnum_head.
    + exists ((y :: p) ++ (z :: take_class alnum_class t) ++ g), rest.
      split; [|split; [|exact Hrest]].
      * rewrite <- Hsplit. rewrite <- (take_drop_class alnum_class t) at 1.
        rewrite Eg. cbn [app]. rewrite <- !app_assoc. cbn [app].
        now rewrite <- !app_assoc.
      * apply joined_more; [discriminate | exact Hpall | discriminate | | exact Hg].
        cbn [forallb]. now rewrite Ez, take_alnum_all.
Qed.

(** At an alphabet character a compound unit begins, and the text after
    it stops it. *)
Lemma unit_decompose c s :
  is_alnum c = true ->
  exists t rest, c :: s = t ++ rest /\ compound t /\ stops rest.
Proof.
  intro Hc.
  destruct (@joined_decompose (length (drop_class alnum_class s))
              (drop_class alnum_class s) (Nat.le_refl _)
              (drop_alnum_head s)) as [g [rest [Eg [Hg Hrest]]]].
  exists ((c :: take_class alnum_class s) ++ g), rest.
  split; [|split; [|exact Hrest]].
  - rewrite <- app_assoc, <- Eg. cbn [app].
    now rewrite take_drop_class.
  - exists (c :: take_class alnum_class s), g.
    split; [reflexivity|]. split; [discriminate|]. split; [|exact Hg].
    cbn [forallb]. now rewrite Hc, take_alnum_all.
Qed.

Lemma compound_not_nil t : compound t -> t <> [].
Proof.
  intros [a [g [-> [Ha _]]]] E. apply app_eq_nil in E. tauto.
Qed.

Lemma finditer_token_units : forall s prev skip pos,
  skip <= length s ->
  Compounds (skipn skip s)
            (map snd (finditer_from token_pattern prev s skip pos)).
Proof.
  induction s as [|c s IH]; intros prev skip pos Hskip.
  - simpl in Hskip. assert (skip = 0) by lia. subst skip.
    rewrite finditer_from_nil, match_at_token_not_alnum by exact I.
    constructor.
  - rewrite finditer_from_cons. destruct skip as [|n].
    + cbn [skipn]. destruct (is_alnum c) eqn:Ec.
      * destruct (@unit_decompose c s Ec) as [t [rest [Hsplit [Ht Hrest]]]].
        assert (Hm : match_at token_pattern prev (c :: s) = Some rest)
          by (rewrite Hsplit; now apply match_at_token_unit).
        rewrite Hm.
        destruct (match_length _ _ Hsplit) as [Hlen Hfirst].
        rewrite Hlen, Hfirst. cbn [map snd]. rewrite Hsplit.
        apply Compounds_unit; [exact Ht | exact Hrest|].
        destruct t as [|x t]; [now apply compound_not_nil in Ht|].
        cbn [app] in Hsplit. injection Hsplit as _ ->.
        cbn [length]. rewrite Nat.sub_succ, Nat.sub_0_r.
        replace rest with (skipn (length t) (t ++ rest)) at 1.
        -- apply IH. rewrite length_app. lia.
        -- rewrite skipn_app, skipn_all, Nat.sub_diag. reflexivity.
      * rewrite match_at_token_not_alnum by exact Ec.
        apply Compounds_gap; [exact Ec|].
        apply (IH (Some c) 0 (S pos)). lia.
    + cbn [skipn]. apply IH. simpl in Hskip. lia.
Qed.

(** The tokens of the compound-token pattern are the compound units of
    the text. *)
Lemma findall_token_units s : Compounds s (findall token_pattern s).
Proof. apply (@finditer_token_units s None 0 0). lia. Qed.

(** A text has no other list of compound units. *)
Lemma Compounds_findall s units :
  Compounds s units -> units = findall token_pattern s.
Proof.
  induction 1 as [|c s units Hc H IH|t s units Ht Hs H IH].
  - reflexivity.
  - rewrite IH. symmetry. apply (@findall_token_skip [c] s).
    cbn [forallb]. now rewrite Hc.
  - rewrite IH. symmetry. unfold findall at 1. unfold finditer.
    rewrite finditer_from_match;
      [|now apply compound_not_nil | now apply match_at_token_unit].
    cbn [map snd]. f_equal. apply findall_token_from.
Qed.

(** * The claims *)

(** C1. A result of [build_result] that is not the error has at least
    one key, all its values are equal to one another and are the maximum
    of the mapping, and its keys are in ascending order. *)
Theorem build_result_invariant {L : Lower} text terms d :
  build_result text terms = Ok (CountMap d) ->
  d <> [] /\
  (exists m, py_max (values d) = Ok m /\
             forall k v, In (k, v) d -> v = m) /\
  StronglySorted str_lt (keys d).
Proof.
  intro H.
  destruct (build_result_cases text terms) as [E|[d0 [m [E [Hnd Hm]]]]];
    rewrite E in H; [discriminate|].
  injection H as <-.
  apply py_max_Ok_inv in Hm. destruct Hm as [Hin _].
  pose proof (tie_inclusive_max_not_empty d0 m Hin) as Hne.
  split; [exact Hne|]. split.
  - exists m. split.
    + apply py_max_const; [now apply values_not_empty|].
      apply values_tie_inclusive_max.
    + intros k v Hkv. now apply In_tie_inclusive_max in Hkv.
  - now apply tie_inclusive_max_sorted.
Qed.

Lemma build_result_invariant_witness :
  let d := [(u "brown", 1); (u "fox", 1); (u "quick", 1); (u "the", 1)] in
  build_result (L := ascii_lower) (u "The quick brown fox") None
  = Ok (CountMap d) /\
  (d <> [] /\
   (exists m, py_max (values d) = Ok m /\
              forall k v, In (k, v) d -> v = m) /\
   StronglySorted str_lt (keys d)).
Proof.
  split; [reflexivity|].
  apply (@build_result_invariant ascii_lower (u "The quick brown fox") None).
  reflexivity.
Defined.

(** C2, as the code has it.  The specification asks for the error when
    every supplied term is blank; the guard of the term branch sends such
    a call to the word branch instead. *)
Lemma blank_terms_counterexample :
  strip (u "cat cat dog") <> [] /\
  [u " "] <> [] /\
  forallb (fun t => is_empty (strip t)) [u " "] = true /\
  build_result (L := ascii_lower) (u "cat cat dog") (Some [u " "])
  = Ok (CountMap [(u "cat", 2)]) /\
  build_result (L := ascii_lower) (u "cat cat dog") (Some [u " "])
  <> Ok (ErrorResult no_characters).
Proof.
  repeat split; try discriminate; reflexivity.
Qed.

(** C2 amended. When every supplied term is blank after trimming, the
    call is served as a call without terms: it returns what the empty
    term list returns, the most frequent words of a text that has a
    word, and the error only for a text without one. *)
Theorem blank_terms_fall_back {L : Lower} text terms :
  strip text <> [] ->
  forallb (fun t => is_empty (strip t)) terms = true ->
  build_result text (Some terms) = build_result text (Some []) /\
  build_result text (Some terms) = build_result text None /\
  (top_tokens text <> [] ->
   exists d, build_result text (Some terms) = Ok (CountMap d)).
Proof.
  intros Htext Hblank. pose proof (has_terms_blank terms Hblank) as Hterms.
  assert (E : forall other, has_terms other = false ->
                build_result text (Some terms) = build_result text other).
  { intros other Hother. unfold build_result.
    destruct (str_eqb (strip text) []); [reflexivity|].
    now rewrite Hterms, Hother. }
  split; [now apply E|]. split; [now apply E|].
  intro Htok.
  destruct (build_result_top text (Some terms) Htext Hterms Htok)
    as [m [_ Hres]].
  eauto.
Qed.

Lemma blank_terms_fall_back_witness :
  strip (u "cat cat dog") <> [] /\
  forallb (fun t => is_empty (strip t)) [u " "; []] = true /\
  build_result (L := ascii_lower) (u "cat cat dog") (Some [u " "; []])
  = build_result (u "cat cat dog") (Some []).
Proof.
  split; [discriminate|]. split; [reflexivity|].
  apply (@blank_terms_fall_back ascii_lower (u "cat cat dog") [u " "; []]);
    [discriminate | reflexivity].
Defined.

(** C3. A word term, one without whitespace after trimming and
    lower-casing, is counted by its exact occurrences among the compound
    units of the lower-cased text.  For every text the tokens of the
    compound-token pattern are its compound units, and the text has no
    other list of units: a unit is a run of alphabet characters followed by
    any number of blocks of punctuation and alphabet characters, it is as
    long as it can be, and the characters between two units are outside
    the alphabet.  So a word followed by a chain of such blocks is one
    token whatever follows the chain, different from the bare word, and
    adds nothing to the count of the word; and
    [build_result("hello-world hello", ["hello"])] is [{"hello": 1}]. *)
Theorem word_term_exact_tokens {L : Lower} :
  (forall text terms original,
     In original terms -> retained original = true ->
     existsb is_space (lower (strip original)) = false ->
     exists units,
       Compounds (lower text) units /\
       (forall others, Compounds (lower text) others -> others = units) /\
       findall token_pattern (lower text) = units /\
       dict_get (count_terms_in_text text terms) original
       = Some (count_occ (list_eq_dec N.eq_dec) units
                         (lower (strip original)))) /\
  (forall text, Compounds text (findall token_pattern text)) /\
  (forall text units,
     Compounds text units -> units = findall token_pattern text) /\
  (forall a g rest,
     a <> [] -> forallb is_alnum a = true -> joined g -> stops rest ->
     findall token_pattern (a ++ g ++ rest)
     = (a ++ g) :: findall token_pattern rest /\
     (g <> [] -> a ++ g <> a)) /\
  (forall a p b sp,
     a <> [] -> forallb is_alnum a = true ->
     p <> [] -> forallb is_punct p = true ->
     b <> [] -> forallb is_alnum b = true ->
     is_space sp = true ->
     findall token_pattern (a ++ p ++ b ++ sp :: a) = [a ++ p ++ b; a]) /\
  findall token_pattern (u "hello-world hello")
  = [u "hello-world"; u "hello"] /\
  build_result (u "hello-world hello") (Some [u "hello"])
  = Ok (CountMap [(u "hello", 1)]).
Proof.
  split; [|split; [|split; [|split; [|split; [|split]]]]].
  - intros text terms original Hin Hr Hword.
    exists (findall token_pattern (lower text)).
    split; [apply findall_token_units|].
    split; [intros others Ho; now apply Compounds_findall|].
    split; [reflexivity|].
    rewrite count_terms_in_text_retained by assumption.
    f_equal. apply term_value_word. now apply no_space_no_blank.
  - exact findall_token_units.
  - exact Compounds_findall.
  - intros a g rest Ha Haall Hg Hrest. split.
    + rewrite app_assoc. unfold findall at 1. unfold finditer.
      rewrite finditer_from_match.
      * cbn [map snd]. f_equal. apply findall_token_from.
      * intro E. apply app_eq_nil in E. tauto.
      * apply match_at_token_unit; [|exact Hrest].
        exists a, g. auto.
    + intros Hne E. apply Hne.
      rewrite <- (app_nil_r a) in E at 2. now apply app_inv_head in E.
  - intros. now apply findall_compound_then_word.
  - reflexivity.
  - rewrite build_result_ascii by reflexivity. reflexivity.
Qed.

Lemma word_term_exact_tokens_witness :
  let text := u "Hello-World-x hello, HELLO" in
  let terms := [u " Hello "] in
  In (u " Hello ") terms /\
  retained (L := ascii_lower) (u " Hello ") = true /\
  existsb is_space (lower (Lower := ascii_lower) (strip (u " Hello "))) = false /\
  findall token_pattern (lower (Lower := ascii_lower) text)
  = [u "hello-world-x"; u "hello"; u "hello"] /\
  dict_get (count_terms_in_text (L := ascii_lower) text terms) (u " Hello ")
  = Some 2 /\
  Compounds (u "hello-world-x hello") [u "hello-world-x"; u "hello"] /\
  findall token_pattern (u "hello-world-x hello")
  = [u "hello-world-x"; u "hello"].
Proof.
  split; [now left|]. split; [reflexivity|]. split; [reflexivity|].
  split; [reflexivity|]. split.
  - destruct (proj1 (@word_term_exact_tokens ascii_lower)
                (u "Hello-World-x hello, HELLO") [u " Hello "] (u " Hello "))
      as [units [_ [_ [Hunits Hcount]]]];
      [now left | reflexivity | reflexivity|].
    rewrite <- Hunits in Hcount. exact Hcount.
  - assert (Hword : compound (u "hello")).
    { exists (u "hello"), []. split; [reflexivity|].
      split; [discriminate|]. split; [reflexivity | constructor]. }
    assert (Hunits :
              Compounds (u "hello-world-x hello")
                        [u "hello-world-x"; u "hello"]).
    { apply (@Compounds_unit (u "hello-world-x") (u " hello") [u "hello"]).
      - exists (u "hello"), (u "-world-x").
        split; [reflexivity|]. split; [discriminate|].
        split; [reflexivity|].
        apply (@joined_more (u "-") (u "world") (u "-x"));
          [discriminate | reflexivity | discriminate | reflexivity|].
        apply (@joined_more (u "-") (u "x") []);
          [discriminate | reflexivity | discriminate | reflexivity|].
        constructor.
      - apply stops_drop. reflexivity.
      - apply Compounds_gap; [reflexivity|].
        apply (@Compounds_unit (u "hello") [] []);
          [exact Hword | now apply stops_drop | constructor]. }
    split; [exact Hunits|]. symmetry.
    exact (proj1 (proj2 (proj2 (@word_term_exact_tokens ascii_lower)))
                 (u "hello-world-x hello") _ Hunits).
Defined.

(** C4, as the code has it.  The term "new\nyork" holds whitespace, and it
    occurs once, standing alone, in the text "new\nyork"; the reported
    count is 0. *)
Lemma phrase_term_counterexample :
  let text := (u "new" ++ [10] ++ u "york")%N in
  let term := lower (Lower := ascii_lower) (strip text) in
  existsb is_space term = true /\
  standalone_at term (lower (Lower := ascii_lower) text) 0 /\
  dict_get (count_terms_in_text (L := ascii_lower) text [text]) text
  = Some 0 /\
  ~ counts_standalone term (lower (Lower := ascii_lower) text) 0.
Proof.
  assert (Hs : standalone_at (u "new" ++ [10%N] ++ u "york")
                             (u "new" ++ [10%N] ++ u "york") 0).
  { exists [], []. rewrite app_nil_r. simpl. auto. }
  split; [reflexivity|]. split; [exact Hs|]. split; [reflexivity|].
  intros [starts [Hlen [_ [_ Hcover]]]].
  destruct starts; [|discriminate].
  destruct (Hcover 0 Hs) as [i [[] _]].
Qed.

(** C4 amended. The count reported for a term whose trimmed, lower-cased
    form holds a space character (U+0020) is the number of non-overlapping
    occurrences of that form in the lower-cased text, each preceded by the
    start of the text or a whitespace character and followed by its end or
    a whitespace character; and
    [build_result("new york city new york", ["new york"])] is
    [{"new york": 2}]. *)
Theorem phrase_term_counts_standalone {L : Lower} :
  (forall text terms original,
     In original terms -> retained original = true ->
     has_blank (lower (strip original)) = true ->
     exists n,
       dict_get (count_terms_in_text text terms) original = Some n /\
       counts_standalone (lower (strip original)) (lower text) n /\
       (forall n', counts_standalone (lower (strip original)) (lower text) n'
                   -> n' = n) /\
       (forall family,
          (forall i, In i family ->
                     standalone_at (lower (strip original)) (lower text) i) ->
          StronglySorted
            (fun i j => i + length (lower (strip original)) <= j) family ->
          length family <= n)) /\
  build_result (u "new york city new york") (Some [u "new york"])
  = Ok (CountMap [(u "new york", 2)]).
Proof.
  split.
  - intros text terms original Hin Hr Hblank.
    exists (term_value text original).
    pose proof (term_value_phrase text original Hblank) as Hc.
    split; [now apply count_terms_in_text_retained|].
    split; [exact Hc|]. split.
    + intros n' Hn'. exact (counts_standalone_unique Hn' Hc).
    + intros family F1 F2. exact (counts_standalone_maximal Hc F1 F2).
  - rewrite build_result_ascii by reflexivity. reflexivity.
Qed.

Lemma phrase_term_counts_standalone_witness :
  let text := u "a a a New York new york" in
  In (u "A A") [u "A A"; u " new  york"; u "new york "] /\
  retained (L := ascii_lower) (u "A A") = true /\
  has_blank (lower (Lower := ascii_lower) (strip (u "A A"))) = true /\
  count_terms_in_text (L := ascii_lower) text
                      [u "A A"; u " new  york"; u "new york "]
  = [(u "A A", 1); (u " new  york", 0); (u "new york ", 2)] /\
  exists n,
    dict_get (count_terms_in_text (L := ascii_lower) text
                [u "A A"; u " new  york"; u "new york "]) (u "A A")
    = Some n /\
    counts_standalone (lower (Lower := ascii_lower) (strip (u "A A")))
                      (lower (Lower := ascii_lower) text) n.
Proof.
  split; [now left|]. split; [reflexivity|]. split; [reflexivity|].
  split; [reflexivity|].
  destruct (proj1 (@phrase_term_counts_standalone ascii_lower)
                  (u "a a a New York new york")
                  [u "A A"; u " new  york"; u "new york "] (u "A A"))
    as [n [Hget [Hcount _]]];
    [now left | reflexivity | reflexivity |].
  exists n. split; assumption.
Defined.

(** C5. On a text with an alphabet character and an empty term list,
    [build_result] returns the tokens of the plain grammar, the maximal
    runs of alphabet characters of the lower-cased text, whose number of
    occurrences is the maximum over the tokens, each with that number;
    and [build_result("cat cat dog", [])] is [{"cat": 2}]. *)
Theorem top_words_most_frequent {L : Lower} :
  (forall text,
     existsb is_alnum text = true ->
     let tokens := findall word_pattern (lower text) in
     let occurrences := count_occ (list_eq_dec N.eq_dec) tokens in
     Runs is_alnum (lower text) tokens /\
     exists d m,
       build_result text (Some []) = Ok (CountMap d) /\
       (exists t, In t tokens /\ occurrences t = m) /\
       (forall t, In t tokens -> occurrences t <= m) /\
       (forall k v, In (k, v) d
                    <-> In k tokens /\ occurrences k = m /\ v = m)) /\
  build_result (u "cat cat dog") (Some []) = Ok (CountMap [(u "cat", 2)]).
Proof.
  split.
  - intros text Halnum tokens occurrences.
    split; [apply findall_word_runs|].
    assert (Htext : strip text <> []) by now apply existsb_alnum_not_blank.
    assert (Htok : top_tokens text <> []).
    { apply findall_word_not_empty. now apply lower_alnum. }
    destruct (build_result_top text (Some []) Htext eq_refl Htok)
      as [m [Hm Hres]].
    fold tokens in Hm, Hres. change (top_tokens text) with tokens in *.
    apply py_max_Ok_inv in Hm. destruct Hm as [Hin Hle].
    exists (tie_inclusive_max (Counter tokens) m), m.
    split; [exact Hres|]. split; [|split].
    + unfold values in Hin. apply in_map_iff in Hin.
      destruct Hin as [[t n] [Hn Hin]]. simpl in Hn. subst n.
      apply Counter_In in Hin. destruct Hin as [Ht Hc]. exists t. auto.
    + intros t Ht. apply Hle. unfold values. apply in_map_iff.
      exists (t, occurrences t). split; [reflexivity|].
      apply Counter_In. auto.
    + intros k v. rewrite In_tie_inclusive_max by apply Counter_NoDup.
      rewrite Counter_In. fold occurrences. intuition congruence.
  - rewrite build_result_ascii by reflexivity. reflexivity.
Qed.

Lemma top_words_most_frequent_witness :
  let text := u "Cat, cat; dog!" in
  existsb is_alnum text = true /\
  findall word_pattern (lower (Lower := ascii_lower) text)
  = [u "cat"; u "cat"; u "dog"] /\
  build_result (L := ascii_lower) text (Some [])
  = Ok (CountMap [(u "cat", 2)]) /\
  Runs is_alnum (lower (Lower := ascii_lower) text)
       (findall word_pattern (lower (Lower := ascii_lower) text)).
Proof.
  split; [reflexivity|]. split; [reflexivity|]. split; [reflexivity|].
  apply (proj1 (@top_words_most_frequent ascii_lower) (u "Cat, cat; dog!")).
  reflexivity.
Defined.

(** C6, as the code has it.  The term "a\tb" holds a tab, which makes it
    a phrase term of the specification, counted once in the text "a\tb"
    by the standalone-phrase rule; the code looks it up among the compound
    tokens and reports 0. *)
Lemma term_kind_counterexample :
  let text := (u "a" ++ [9] ++ u "b")%N in
  let term := lower (Lower := ascii_lower) (strip text) in
  existsb is_space term = true /\
  length (findall (phrase_pattern term) (lower (Lower := ascii_lower) text))
  = 1 /\
  count_occ (list_eq_dec N.eq_dec)
            (findall token_pattern (lower (Lower := ascii_lower) text)) term
  = 0 /\
  build_result (L := ascii_lower) text (Some [text])
  = Ok (CountMap [(text, 0)]).
Proof. repeat split. Qed.

(** C6 amended. A supplied term is a phrase term, counted by the
    standalone-phrase rule, exactly when its trimmed, lower-cased form
    holds a space character (U+0020); otherwise it is a word term, looked
    up among the compound tokens, and a word term that holds another
    whitespace character (a tab, a newline) is reported with 0. *)
Theorem term_kind_by_blank {L : Lower} text terms original :
  In original terms -> retained original = true ->
  let term := lower (strip original) in
  let reported := dict_get (count_terms_in_text text terms) original in
  (has_blank term = true ->
   exists n, reported = Some n /\ counts_standalone term (lower text) n) /\
  (has_blank term = false ->
   reported = Some (count_occ (list_eq_dec N.eq_dec)
                              (findall token_pattern (lower text)) term)) /\
  (has_blank term = false -> existsb is_space term = true ->
   reported = Some 0).
Proof.
  intros Hin Hr term reported. subst reported.
  rewrite count_terms_in_text_retained by assumption.
  split; [|split].
  - intro Hblank. exists (term_value text original).
    split; [reflexivity | now apply term_value_phrase].
  - intro Hword. f_equal. now apply term_value_word.
  - intros Hword Hspace. f_equal. rewrite term_value_word by exact Hword.
    apply count_occ_not_In. intro Htok.
    apply token_no_space in Htok. fold term in Htok. congruence.
Qed.

Lemma term_kind_by_blank_witness :
  let text := (u "a b" ++ [9] ++ u "c a b")%N in
  let terms := [u "A B"; (u "b" ++ [9] ++ u "c")%N; u "c"] in
  In (u "b" ++ [9] ++ u "c")%N terms /\
  retained (L := ascii_lower) (u "b" ++ [9] ++ u "c")%N = true /\
  count_terms_in_text (L := ascii_lower) text terms
  = [(u "A B", 2); ((u "b" ++ [9] ++ u "c")%N, 0); (u "c", 1)] /\
  dict_get (count_terms_in_text (L := ascii_lower) text terms)
           (u "b" ++ [9] ++ u "c")%N = Some 0.
Proof.
  split; [right; now left|]. split; [reflexivity|]. split; [reflexivity|].
  apply (@term_kind_by_blank ascii_lower
           (u "a b" ++ [9] ++ u "c a b")%N
           [u "A B"; (u "b" ++ [9] ++ u "c")%N; u "c"]
           (u "b" ++ [9] ++ u "c")%N);
    [right; now left | reflexivity | reflexivity | reflexivity].
Defined.

(** C7. A retained word term that is no token of the compound-token
    vocabulary is reported with the count 0, not left out; and when 0 is
    the maximum over the retained terms, [build_result] returns all the
    retained terms, each with 0, and not the error. *)
Theorem absent_word_counts_zero {L : Lower} text terms :
  (forall original,
     In original terms -> retained original = true ->
     existsb is_space (lower (strip original)) = false ->
     ~ In (lower (strip original)) (findall token_pattern (lower text)) ->
     dict_get (count_terms_in_text text terms) original = Some 0) /\
  (strip text <> [] -> has_terms (Some terms) = true ->
   py_max (values (count_terms_in_text text terms)) = Ok 0 ->
   exists d,
     build_result text (Some terms) = Ok (CountMap d) /\
     forall k v, In (k, v) d <-> In k terms /\ retained k = true /\ v = 0).
Proof.
  split.
  - intros original Hin Hr Hword Habsent.
    rewrite count_terms_in_text_get, Hr.
    apply existsb_str_eqb in Hin. rewrite Hin. simpl. f_equal.
    rewrite term_value_word by now apply no_space_no_blank.
    now apply count_occ_not_In.
  - intros Htext Hterms Hmax. rewrite has_terms_Some in Hterms.
    destruct (build_result_terms text terms Htext Hterms) as [m [Hm Hres]].
    rewrite Hmax in Hm. injection Hm as <-.
    eexists. split; [exact Hres|].
    intros k v.
    rewrite In_tie_inclusive_max by apply count_terms_in_text_NoDup.
    rewrite count_terms_in_text_In.
    apply py_max_Ok_inv in Hmax. destruct Hmax as [_ Hle].
    split.
    + tauto.
    + intros [Hin [Hr ->]]. repeat split; try assumption.
      assert (H : In (term_value text k)
                     (values (count_terms_in_text text terms))).
      { unfold values. apply in_map_iff. exists (k, term_value text k).
        split; [reflexivity|]. apply count_terms_in_text_In. auto. }
      apply Hle in H. lia.
Qed.

Lemma absent_word_counts_zero_witness :
  let terms := [u " B "; u "b"; u "a"] in
  dict_get (count_terms_in_text (L := ascii_lower) (u "x") terms) (u "b")
  = Some 0 /\
  build_result (L := ascii_lower) (u "x") (Some terms)
  = Ok (CountMap [(u " B ", 0); (u "a", 0); (u "b", 0)]) /\
  exists d,
    build_result (L := ascii_lower) (u "x") (Some terms) = Ok (CountMap d) /\
    forall k v, In (k, v) d
                <-> In k terms /\ retained (L := ascii_lower) k = true /\ v = 0.
Proof.
  pose proof (@absent_word_counts_zero ascii_lower (u "x")
                [u " B "; u "b"; u "a"]) as [Hzero Hall].
  split.
  - apply Hzero; [right; now left | reflexivity | reflexivity |].
    intros [H|[]]. discriminate.
  - split; [reflexivity|].
    apply Hall; [discriminate | reflexivity | reflexivity].
Defined.

(** C8. On a text that is empty or made of whitespace only,
    [build_result] returns the error result, whatever the terms, and
    never a count mapping. *)
Theorem blank_text_is_error {L : Lower} text terms :
  forallb is_space text = true ->
  build_result text terms = Ok (ErrorResult no_characters) /\
  forall d, build_result text terms <> Ok (CountMap d).
Proof.
  intro H. apply strip_nil_iff in H.
  rewrite (build_result_blank text terms H). split; [reflexivity|].
  discriminate.
Qed.

Lemma blank_text_is_error_witness :
  forallb is_space (u "   ") = true /\
  build_result (L := ascii_lower) (u "   ") (Some [])
  = Ok (ErrorResult no_characters) /\
  forall d, build_result (L := ascii_lower) (u "   ") (Some [])
            <> Ok (CountMap d).
Proof.
  split; [reflexivity|].
  apply (@blank_text_is_error ascii_lower (u "   ") (Some [])).
  reflexivity.
Defined.

(** C9. The count of a retained term is stored under the term exactly
    as the caller supplied it, neither trimmed nor lower-cased; a term
    supplied several times has one entry, with the count a single
    occurrence gets, and supplying it once more changes nothing. *)
Theorem term_key_is_original {L : Lower} text terms original :
  In original terms -> retained original = true ->
  let out := count_terms_in_text text terms in
  dict_get out original = Some (term_value text original) /\
  (forall k, In k (keys out) -> In k terms) /\
  count_occ (list_eq_dec N.eq_dec) (keys out) original = 1 /\
  dict_get out original
  = dict_get (count_terms_in_text text [original]) original /\
  forall more, count_terms_in_text text (terms ++ original :: more)
               = count_terms_in_text text (terms ++ more).
Proof.
  intros Hin Hr out. subst out.
  assert (Hget : dict_get (count_terms_in_text text terms) original
                 = Some (term_value text original)).
  { rewrite count_terms_in_text_get, Hr.
    apply existsb_str_eqb in Hin. now rewrite Hin. }
  split; [exact Hget|]. split.
  { intros k Hk. now apply count_terms_in_text_keys in Hk. }
  split.
  { apply NoDup_count_occ'; [apply count_terms_in_text_NoDup|].
    apply count_terms_in_text_keys. auto. }
  split.
  { rewrite Hget, count_terms_in_text_get, Hr. simpl.
    now rewrite str_eqb_refl. }
  intro more. now apply count_terms_in_text_repeat.
Qed.

Lemma term_key_is_original_witness :
  let terms := [u " Apple "; u "apple"; u " Apple "] in
  In (u " Apple ") terms /\
  retained (L := ascii_lower) (u " Apple ") = true /\
  count_terms_in_text (L := ascii_lower) (u "apple pie") terms
  = [(u " Apple ", 1); (u "apple", 1)] /\
  dict_get (count_terms_in_text (L := ascii_lower) (u "apple pie") terms)
           (u " Apple ")
  = Some (term_value (L := ascii_lower) (u "apple pie") (u " Apple ")).
Proof.
  split; [now left|]. split; [reflexivity|]. split; [reflexivity|].
  apply (@term_key_is_original ascii_lower (u "apple pie")
           [u " Apple "; u "apple"; u " Apple "] (u " Apple "));
    [now left | reflexivity].
Defined.

(** C10. In the term branch, that is with a term list that has a term
    which is not blank after trimming, [count_terms_in_text] returns a
    mapping with an entry: the test for an empty mapping inside the branch
    never succeeds, and the call returns a count mapping. *)
Theorem term_branch_has_entry {L : Lower} text terms :
  has_terms terms = true ->
  exists ts,
    terms = Some ts /\
    is_empty (count_terms_in_text text ts) = false /\
    (strip text <> [] ->
     exists d, d <> [] /\ build_result text terms = Ok (CountMap d)).
Proof.
  intro H. apply has_terms_true in H. destruct H as [ts [-> Hany]].
  exists ts. split; [reflexivity|]. split.
  - apply is_empty_false. now apply count_terms_in_text_not_empty.
  - intro Htext.
    destruct (build_result_terms text ts Htext Hany) as [m [Hm Hres]].
    eexists. split; [|exact Hres].
    apply tie_inclusive_max_not_empty.
    now apply py_max_Ok_inv in Hm.
Qed.

Lemma term_branch_has_entry_witness :
  has_terms (Some [[]; u " Apple "]) = true /\
  exists ts,
    Some [[]; u " Apple "] = Some ts /\
    is_empty (count_terms_in_text (L := ascii_lower) (u "apple pie") ts)
    = false /\
    (strip (u "apple pie") <> [] ->
     exists d, d <> [] /\
       build_result (L := ascii_lower) (u "apple pie")
                    (Some [[]; u " Apple "]) = Ok (CountMap d)).
Proof.
  split; [reflexivity|].
  apply (@term_branch_has_entry ascii_lower (u "apple pie")
           (Some [[]; u " Apple "])).
  reflexivity.
Defined.

(** * Further properties *)

(** ** Helper facts *)

Lemma Runs_exists p s runs :
  Runs p s runs -> existsb p s = negb (is_empty runs).
Proof.
  induction 1 as [|c s runs Hc H IH|run s runs Hne Hall Hhead H IH]; simpl.
  - reflexivity.
  - now rewrite Hc, IH.
  - rewrite existsb_app. destruct run as [|x run]; [congruence|].
    simpl in *. apply andb_true_iff in Hall. destruct Hall as [-> _].
    reflexivity.
Qed.

Lemma Runs_In p s runs run :
  Runs p s runs -> In run runs -> run <> [] /\ forallb p run = true.
Proof.
  induction 1 as [|c s runs Hc H IH|run0 s runs Hne Hall Hhead H IH].
  - intros [].
  - exact IH.
  - intros [<-|Hin]; auto.
Qed.

Lemma findall_word_empty_iff s :
  findall word_pattern s = [] <-> existsb is_alnum s = false.
Proof.
  rewrite (Runs_exists (findall_word_runs s)).
  destruct (findall word_pattern s); simpl; split; congruence.
Qed.

(** Two strictly ascending lists with the same elements are equal. *)
Lemma strictly_sorted_unique (l : list str) : forall l',
  StronglySorted str_lt l -> StronglySorted str_lt l' ->
  (forall x, In x l <-> In x l') -> l = l'.
Proof.
  assert (Hmin : forall a l x,
            StronglySorted str_lt (a :: l) -> In x (a :: l) ->
            x = a \/ str_lt a x).
  { intros a l0 x Hs [->|Hin]; [now left|].
    inversion Hs as [|? ? _ Hall]; subst. rewrite Forall_forall in Hall.
    right. now apply Hall. }
  assert (Hnot : forall a l,
            StronglySorted str_lt (a :: l) -> ~ In a l).
  { intros a l0 Hs Hin. inversion Hs as [|? ? _ Hall]; subst.
    rewrite Forall_forall in Hall. specialize (Hall a Hin).
    unfold str_lt in Hall. now rewrite str_ltb_irrefl in Hall. }
  induction l as [|a l IH]; intros [|a' l'] Hs Hs' Hiff.
  - reflexivity.
  - destruct (proj2 (Hiff a') (or_introl eq_refl)).
  - destruct (proj1 (Hiff a) (or_introl eq_refl)).
  - assert (a = a').
    { destruct (Hmin _ _ a Hs' (proj1 (Hiff a) (or_introl eq_refl)))
        as [E|Hlt]; [exact E|].
      destruct (Hmin _ _ a' Hs (proj2 (Hiff a') (or_introl eq_refl)))
        as [E|Hlt']; [now symmetry|].
      unfold str_lt in *. apply str_ltb_asym in Hlt. congruence. }
    subst a'. f_equal. apply IH.
    + now inversion Hs.
    + now inversion Hs'.
    + intro x. split; intro Hin.
      * destruct (proj1 (Hiff x) (or_intror Hin)) as [<-|H]; [|exact H].
        destruct (Hnot _ _ Hs Hin).
      * destruct (proj2 (Hiff x) (or_intror Hin)) as [<-|H]; [|exact H].
        destruct (Hnot _ _ Hs' Hin).
Qed.

Lemma In_keys_filter_eq (d : dict nat) m k :
  NoDup (keys d) ->
  In k (keys (filter (fun kv => Nat.eqb (snd kv) m) d)) <-> In (k, m) d.
Proof.
  intro Hnd. unfold keys. rewrite in_map_iff. split.
  - intros [[k' v] [Hk Hin]]. simpl in Hk. subst k'.
    apply filter_In in Hin. destruct Hin as [Hin Hv]. simpl in Hv.
    apply Nat.eqb_eq in Hv. now subst v.
  - intro Hin. exists (k, m). split; [reflexivity|].
    apply filter_In. split; [exact Hin | apply Nat.eqb_refl].
Qed.

(** The selection depends on the entries of the dictionary only, not on
    their order. *)
Lemma tie_inclusive_max_entries (d d' : dict nat) m :
  NoDup (keys d) -> NoDup (keys d') ->
  (forall k v, In (k, v) d <-> In (k, v) d') ->
  tie_inclusive_max d m = tie_inclusive_max d' m.
Proof.
  intros Hnd Hnd' Hiff. unfold tie_inclusive_max. f_equal.
  apply strictly_sorted_unique.
  - apply sorted_strict. now apply NoDup_keys_filter.
  - apply sorted_strict. now apply NoDup_keys_filter.
  - intro k. rewrite !sorted_In, !In_keys_filter_eq by assumption.
    apply Hiff.
Qed.

Lemma py_max_entries (d d' : dict nat) m m' :
  (forall k v, In (k, v) d <-> In (k, v) d') ->
  py_max (values d) = Ok m -> py_max (values d') = Ok m' -> m = m'.
Proof.
  intros Hiff Hm Hm'.
  assert (Hv : forall x, In x (values d) <-> In x (values d')).
  { intro x. unfold values. rewrite !in_map_iff.
    split; intros [[k v] [E Hin]]; exists (k, v); split; auto;
      now apply Hiff. }
  apply py_max_Ok_inv in Hm, Hm'.
  destruct Hm as [Hin Hle], Hm' as [Hin' Hle'].
  apply Nat.le_antisymm; [apply Hle' | apply Hle]; now apply Hv.
Qed.

Section MoreResults.

Context {L : Lower}.

Lemma count_top_words_ok text :
  exists top, count_top_words text = Ok top.
Proof.
  unfold count_top_words.
  destruct (findall word_pattern (lower text)) as [|t toks] eqn:E; simpl.
  - eauto.
  - assert (Hne : Counter (t :: toks) <> [])
      by (apply Counter_not_empty; discriminate).
    destruct (py_max_spec (values_not_empty Hne)) as [m [Hm _]].
    rewrite Hm. simpl. eauto.
Qed.

Lemma has_terms_same terms terms' :
  (forall k, In k terms <-> In k terms') ->
  has_terms (Some terms) = has_terms (Some terms').
Proof.
  intro Hiff. rewrite !has_terms_Some.
  apply eq_true_iff_eq. rewrite !existsb_exists.
  split; intros [t [Hin Ht]]; exists t; split; auto; now apply Hiff.
Qed.

End MoreResults.

(** X1. Neither [build_result] nor [count_top_words] raises: [max] is
    never applied to an empty sequence and never is a missing key looked
    up; and the only error message is the one for a text without
    characters. *)
Theorem build_result_never_raises {L : Lower} :
  (forall text terms, exists r, build_result text terms = Ok r) /\
  (forall text, exists top, count_top_words text = Ok top) /\
  (forall text terms message,
     build_result text terms = Ok (ErrorResult message) ->
     message = no_characters).
Proof.
  split; [|split].
  - intros text terms.
    destruct (build_result_cases text terms) as [H|[d [m [H _]]]]; eauto.
  - apply count_top_words_ok.
  - intros text terms message H.
    destruct (build_result_cases text terms) as [E|[d [m [E _]]]];
      rewrite E in H; [now injection H | discriminate].
Qed.

(** X2. In the term mode (a text that is not blank, a term that is not
    blank) the result holds exactly the retained terms whose count is the
    maximum over the retained terms, each under the string supplied and
    with that maximum; a term with a smaller count is left out. *)
Theorem term_mode_selects_maxima {L : Lower} text terms :
  strip text <> [] -> has_terms (Some terms) = true ->
  exists d m,
    build_result text (Some terms) = Ok (CountMap d) /\
    (exists k, In k terms /\ retained k = true /\ term_value text k = m) /\
    (forall k, In k terms -> retained k = true -> term_value text k <= m) /\
    (forall k v, In (k, v) d
                 <-> In k terms /\ retained k = true /\
                     term_value text k = m /\ v = m).
Proof.
  intros Htext Hterms. rewrite has_terms_Some in Hterms.
  destruct (build_result_terms text terms Htext Hterms) as [m [Hm Hres]].
  exists (tie_inclusive_max (count_terms_in_text text terms) m), m.
  apply py_max_Ok_inv in Hm. destruct Hm as [Hin Hle].
  split; [exact Hres|]. split; [|split].
  - unfold values in Hin. apply in_map_iff in Hin.
    destruct Hin as [[k v] [Hv Hin]]. simpl in Hv. subst v.
    apply count_terms_in_text_In in Hin. exists k. intuition.
  - intros k Hk Hr. apply Hle. unfold values. apply in_map_iff.
    exists (k, term_value text k). split; [reflexivity|].
    apply count_terms_in_text_In. auto.
  - intros k v.
    rewrite In_tie_inclusive_max by apply count_terms_in_text_NoDup.
    rewrite count_terms_in_text_In. intuition congruence.
Qed.

Lemma term_mode_selects_maxima_witness :
  strip (u "apple banana") <> [] /\
  has_terms (Some [u "apple"; u "banana"; u "cherry"]) = true /\
  build_result (L := ascii_lower) (u "apple banana")
               (Some [u "apple"; u "banana"; u "cherry"])
  = Ok (CountMap [(u "apple", 1); (u "banana", 1)]) /\
  exists d m,
    build_result (L := ascii_lower) (u "apple banana")
                 (Some [u "apple"; u "banana"; u "cherry"])
    = Ok (CountMap d) /\
    (forall k v, In (k, v) d
                 <-> In k [u "apple"; u "banana"; u "cherry"] /\
                     retained (L := ascii_lower) k = true /\
                     term_value (L := ascii_lower) (u "apple banana") k = m /\
                     v = m).
Proof.
  split; [discriminate|]. split; [reflexivity|]. split; [reflexivity|].
  destruct (@term_mode_selects_maxima ascii_lower (u "apple banana")
              [u "apple"; u "banana"; u "cherry"])
    as [d [m [H1 [_ [_ H2]]]]]; [discriminate | reflexivity |].
  exists d, m. auto.
Defined.

(** X3. [build_result] returns the error exactly for a text of whitespace
    only (or none at all) and, when no term is usable, for a text whose
    lower-cased form has no alphabet character. *)
Theorem error_exactly_when {L : Lower} text terms :
  build_result text terms = Ok (ErrorResult no_characters)
  <-> forallb is_space text = true \/
      (has_terms terms = false /\ existsb is_alnum (lower text) = false).
Proof.
  split.
  - intro H. destruct (strip text) eqn:Etext.
    + left. now apply strip_nil_iff.
    + right.
      assert (Htext : strip text <> []) by (rewrite Etext; discriminate).
      destruct (has_terms terms) eqn:Eterms.
      * apply has_terms_true in Eterms. destruct Eterms as [ts [-> Hany]].
        destruct (build_result_terms text ts Htext Hany) as [m [_ Hres]].
        rewrite Hres in H. discriminate.
      * split; [reflexivity|]. apply findall_word_empty_iff.
        destruct (top_tokens text) eqn:Etok; [exact Etok|].
        assert (Htok : top_tokens text <> []) by (rewrite Etok; discriminate).
        destruct (build_result_top text terms Htext Eterms Htok)
          as [m [_ Hres]].
        rewrite Hres in H. discriminate.
  - intros [Hblank|[Hterms Hnone]].
    + apply build_result_blank. now apply strip_nil_iff.
    + apply build_result_no_token; [exact Hterms|].
      now apply findall_word_empty_iff.
Qed.

(** X4. The result does not depend on the order of the supplied terms nor
    on how often each is supplied: two term lists with the same elements
    give the same result. *)
Theorem term_order_irrelevant {L : Lower} text terms terms' :
  (forall k, In k terms <-> In k terms') ->
  build_result text (Some terms) = build_result text (Some terms').
Proof.
  intro Hiff. pose proof (has_terms_same terms terms' Hiff) as Hsame.
  destruct (strip text) eqn:Etext.
  - now rewrite !build_result_blank.
  - assert (Htext : strip text <> []) by (rewrite Etext; discriminate).
    destruct (has_terms (Some terms)) eqn:Eterms.
    + symmetry in Hsame. rewrite has_terms_Some in Eterms, Hsame.
      destruct (build_result_terms text terms Htext Eterms) as [m [Hm ->]].
      destruct (build_result_terms text terms' Htext Hsame) as [m' [Hm' ->]].
      assert (Hentries : forall k v,
                In (k, v) (count_terms_in_text text terms)
                <-> In (k, v) (count_terms_in_text text terms')).
      { intros k v. rewrite !count_terms_in_text_In, Hiff. reflexivity. }
      rewrite (py_max_entries _ _ Hentries Hm Hm').
      do 2 f_equal.
      apply tie_inclusive_max_entries;
        auto using count_terms_in_text_NoDup.
    + unfold build_result. rewrite Etext. simpl str_eqb.
      now rewrite Eterms, <- Hsame.
Qed.

Lemma term_order_irrelevant_witness :
  (forall k, In k [u "b"; u "a"; u "b"] <-> In k [u "a"; u "b"]) /\
  build_result (L := ascii_lower) (u "a b") (Some [u "b"; u "a"; u "b"])
  = build_result (L := ascii_lower) (u "a b") (Some [u "a"; u "b"]).
Proof.
  assert (H : forall k, In k [u "b"; u "a"; u "b"] <-> In k [u "a"; u "b"])
    by (intro k; simpl; tauto).
  split; [exact H|].
  exact (@term_order_irrelevant ascii_lower (u "a b") _ _ H).
Defined.

(** ** Case of ASCII letters *)

Lemma ascii_lower_char_space c : is_space (ascii_lower_char c) = is_space c.
Proof.
  unfold ascii_lower_char. destruct (in_range 65 90 c) eqn:E; [|reflexivity].
  apply in_range_spec in E.
  rewrite (@is_alnum_not_space c) by (apply is_alnum_spec; lia).
  apply is_alnum_not_space. apply is_alnum_spec. lia.
Qed.

Lemma forallb_space_lower s :
  forallb is_space (map ascii_lower_char s) = forallb is_space s.
Proof.
  induction s as [|c s IH]; simpl; [reflexivity|].
  now rewrite ascii_lower_char_space, IH.
Qed.

Lemma strip_blank_forallb s : is_empty (strip s) = forallb is_space s.
Proof.
  apply eq_true_iff_eq. rewrite is_empty_true. apply strip_nil_iff.
Qed.

Section MoreFunctions.

Context {L : Lower}.

(** The analysis sees the text through its lower-cased form, and through
    whether it is blank. *)
Lemma build_result_same_lower text text' terms :
  forallb is_space text = forallb is_space text' ->
  lower text = lower text' ->
  build_result text terms = build_result text' terms.
Proof.
  intros Hblank Hlower. unfold build_result.
  rewrite !strip_blank_eqb, !strip_blank_forallb, Hblank.
  unfold count_terms_in_text, count_top_words. now rewrite Hlower.
Qed.

(** Without a usable term the terms do not matter. *)
Lemma build_result_no_terms text terms terms' :
  has_terms terms = false -> has_terms terms' = false ->
  build_result text terms = build_result text terms'.
Proof.
  intros H H'. unfold build_result. now rewrite H, H'.
Qed.

End MoreFunctions.

(** X5. The analysis does not see the case of ASCII letters in the text:
    two ASCII texts that differ in case only give the same result, for
    every term list. *)
Theorem ascii_case_of_text_irrelevant {L : Lower} text text' terms :
  forallb is_ascii text = true -> forallb is_ascii text' = true ->
  map ascii_lower_char text = map ascii_lower_char text' ->
  build_result text terms = build_result text' terms.
Proof.
  intros Ha Ha' Hsame. apply build_result_same_lower.
  - now rewrite <- (forallb_space_lower text), Hsame, forallb_space_lower.
  - now rewrite (lower_ascii text Ha), (lower_ascii text' Ha'), Hsame.
Qed.

Lemma ascii_case_of_text_irrelevant_witness :
  forallb is_ascii (u "New York, NEW york") = true /\
  forallb is_ascii (u "new york, new YORK") = true /\
  map ascii_lower_char (u "New York, NEW york")
  = map ascii_lower_char (u "new york, new YORK") /\
  build_result (L := ascii_lower) (u "New York, NEW york")
               (Some [u "new york"; u "York"])
  = build_result (L := ascii_lower) (u "new york, new YORK")
                 (Some [u "new york"; u "York"]).
Proof.
  split; [reflexivity|]. split; [reflexivity|]. split; [reflexivity|].
  apply (@ascii_case_of_text_irrelevant ascii_lower); reflexivity.
Defined.

(** ** Counting *)

Lemma length_remove_count (a : str) (l : list str) :
  length (remove (list_eq_dec N.eq_dec) a l)
  + count_occ (list_eq_dec N.eq_dec) l a = length l.
Proof.
  induction l as [|x l IH]; simpl; [reflexivity|].
  destruct (list_eq_dec N.eq_dec a x) as [->|Hne].
  - destruct (list_eq_dec N.eq_dec x x); [lia | congruence].
  - destruct (list_eq_dec N.eq_dec x a); [congruence | simpl; lia].
Qed.

Lemma count_occ_remove_other (a k : str) (l : list str) :
  k <> a ->
  count_occ (list_eq_dec N.eq_dec) (remove (list_eq_dec N.eq_dec) a l) k
  = count_occ (list_eq_dec N.eq_dec) l k.
Proof.
  intro Hne. induction l as [|x l IH]; simpl; [reflexivity|].
  destruct (list_eq_dec N.eq_dec a x) as [->|Hax].
  - destruct (list_eq_dec N.eq_dec x k); [congruence | exact IH].
  - simpl. destruct (list_eq_dec N.eq_dec x k); now rewrite IH.
Qed.

(** Distinct tokens that each occur [m] times need [m] places each. *)
Lemma distinct_tokens_bound m (ks : list str) : forall toks,
  NoDup ks ->
  (forall k, In k ks -> m <= count_occ (list_eq_dec N.eq_dec) toks k) ->
  m * length ks <= length toks.
Proof.
  induction ks as [|a ks IH]; intros toks Hnd Hall; cbn [length];
    [rewrite Nat.mul_0_r; apply Nat.le_0_l|].
  inversion Hnd as [|? ? Hnotin Hnd']; subst.
  specialize (IH (remove (list_eq_dec N.eq_dec) a toks) Hnd').
  assert (Hrest : m * length ks
                  <= length (remove (list_eq_dec N.eq_dec) a toks)).
  { apply IH. intros k Hk. rewrite count_occ_remove_other.
    - apply Hall. now right.
    - intros ->. contradiction. }
  pose proof (length_remove_count a toks).
  pose proof (Hall a (or_introl eq_refl)).
  rewrite Nat.mul_succ_r. unfold str, codepoint in *. lia.
Qed.

(** The result of the word mode is the selection from the token counter. *)
Lemma word_mode_result {L : Lower} text terms d :
  has_terms terms = false ->
  build_result text terms = Ok (CountMap d) ->
  exists m, d = tie_inclusive_max (Counter (top_tokens text)) m.
Proof.
  intros Hterms Hres.
  destruct (strip text) eqn:Etext.
  { rewrite build_result_blank in Hres by exact Etext. discriminate. }
  assert (Htext : strip text <> []) by (rewrite Etext; discriminate).
  destruct (top_tokens text) as [|t0 toks0] eqn:Etok.
  { rewrite build_result_no_token in Hres by assumption. discriminate. }
  assert (Htok : top_tokens text <> []) by (rewrite Etok; discriminate).
  destruct (build_result_top text terms Htext Hterms Htok) as [m [_ E]].
  rewrite E in Hres. injection Hres as <-. rewrite <- Etok. eauto.
Qed.

Lemma tie_of_counter_entry toks m k v :
  In (k, v) (tie_inclusive_max (Counter toks) m) ->
  In k toks /\ v = m /\ count_occ (list_eq_dec N.eq_dec) toks k = m.
Proof.
  intro H. apply In_tie_inclusive_max in H; [|apply Counter_NoDup].
  destruct H as [H ->]. apply Counter_In in H. intuition.
Qed.

(** X6. In the word mode, with no usable term, every count of the result
    is at least 1, every key is a token of the lower-cased text, that is
    a non-empty string of alphabet characters, and the keys together do
    not need more occurrences than the text has tokens. *)
Theorem word_mode_counts {L : Lower} text terms d :
  has_terms terms = false ->
  build_result text terms = Ok (CountMap d) ->
  forall k v,
    In (k, v) d ->
    1 <= v /\ In k (top_tokens text) /\
    k <> [] /\ forallb is_alnum k = true /\
    v * length d <= length (top_tokens text).
Proof.
  intros Hterms Hres k v Hin.
  destruct (word_mode_result text terms Hterms Hres) as [m ->].
  set (toks := top_tokens text) in *.
  destruct (tie_of_counter_entry _ _ _ _ Hin) as [Hk [-> Hcount]].
  destruct (Runs_In k (findall_word_runs (lower text)) Hk) as [Hne Hall].
  split; [|split; [exact Hk | split; [exact Hne | split; [exact Hall|]]]].
  - rewrite <- Hcount. now apply count_occ_In.
  - replace (length (tie_inclusive_max (Counter toks) m))
      with (length (keys (tie_inclusive_max (Counter toks) m)))
      by (unfold keys; apply length_map).
    apply distinct_tokens_bound.
    + rewrite keys_tie_inclusive_max. apply sorted_NoDup.
      apply NoDup_keys_filter, Counter_NoDup.
    + intros k' Hk'. unfold keys in Hk'. apply in_map_iff in Hk'.
      destruct Hk' as [[k'' v'] [Ek H]]. simpl in Ek. subst k''.
      destruct (tie_of_counter_entry _ _ _ _ H) as [_ [_ ->]]. lia.
Qed.

Lemma word_mode_counts_witness :
  has_terms (Some [u " "]) = false /\
  build_result (L := ascii_lower) (u "b a, A b!") (Some [u " "])
  = Ok (CountMap [(u "a", 2); (u "b", 2)]) /\
  1 <= 2 /\ In (u "a") (top_tokens (L := ascii_lower) (u "b a, A b!")) /\
  u "a" <> [] /\ forallb is_alnum (u "a") = true /\
  2 * length [(u "a", 2); (u "b", 2)]
  <= length (top_tokens (L := ascii_lower) (u "b a, A b!")).
Proof.
  split; [reflexivity|]. split; [reflexivity|].
  apply (@word_mode_counts ascii_lower (u "b a, A b!") (Some [u " "])
           [(u "a", 2); (u "b", 2)]);
    [reflexivity | reflexivity | now left].
Defined.

(** ** Bounds on the counts *)

Lemma standalone_at_fits term text i :
  standalone_at term text i -> i + length term <= length text.
Proof.
  intros [pre [post [-> [<- _]]]]. rewrite !length_app. lia.
Qed.

Lemma spaced_starts_bound len T : forall starts from,
  StronglySorted (fun i j => i + len <= j) starts ->
  (forall i, In i starts -> from <= i /\ i + len <= T) ->
  length starts * len <= T - from.
Proof.
  induction starts as [|a l IH]; intros from Hs Hall; simpl; [lia|].
  inversion Hs as [|? ? Hs' Hgap]; subst. rewrite Forall_forall in Hgap.
  destruct (Hall a (or_introl eq_refl)) as [Hfrom Hfit].
  assert (Hrest : length l * len <= T - (a + len)).
  { apply IH; [exact Hs'|]. intros i Hi. split; [now apply Hgap|].
    apply Hall. now right. }
  lia.
Qed.

(** Non-overlapping occurrences fit in the text. *)
Lemma counts_standalone_bound term text n :
  counts_standalone term text n -> n * length term <= length text.
Proof.
  intros [starts [-> [Hat [Hs _]]]].
  pose proof (@spaced_starts_bound (length term) (length text) starts 0 Hs)
    as H.
  rewrite Nat.sub_0_r in H. apply H.
  intros i Hi. split; [lia|]. now apply standalone_at_fits, Hat.
Qed.

(** A pattern that does not match at the end of the text matches at most
    once per character. *)
Lemma finditer_from_count r :
  (forall p, match_at r p [] = None) ->
  forall s prev skip pos,
    length (finditer_from r prev s skip pos) <= length s - skip.
Proof.
  intro Hend. induction s as [|c s IH]; intros prev skip pos.
  - rewrite finditer_from_nil, Hend. destruct skip; simpl; lia.
  - rewrite finditer_from_cons. destruct skip as [|n].
    + destruct (match_at r prev (c :: s)) as [rest|].
      * cbn [length]. specialize (IH (Some c)
                          (length (c :: s) - length rest - 1) (S pos)).
        simpl in *. lia.
      * specialize (IH (Some c) 0 (S pos)). simpl. lia.
    + specialize (IH (Some c) n (S pos)). simpl. lia.
Qed.

Lemma findall_token_count s : length (findall token_pattern s) <= length s.
Proof.
  unfold findall, finditer. rewrite length_map.
  pose proof (@finditer_from_count token_pattern
                (fun p => match_at_token_not_alnum p [] I) s None 0 0).
  lia.
Qed.

(** X7. No count that [count_terms_in_text] reports exceeds the length of
    the lower-cased text; for a phrase term even the count times the
    length of the trimmed, lower-cased term does not. *)
Theorem counts_bounded_by_text {L : Lower} text terms k v :
  In (k, v) (count_terms_in_text text terms) ->
  v <= length (lower text) /\
  (has_blank (lower (strip k)) = true ->
   v * length (lower (strip k)) <= length (lower text)).
Proof.
  intro Hin. apply count_terms_in_text_In in Hin.
  destruct Hin as [_ [_ ->]].
  destruct (has_blank (lower (strip k))) eqn:Hblank.
  - pose proof (counts_standalone_bound (term_value_phrase text k Hblank))
      as Hbound.
    split; [|intros _; exact Hbound].
    apply has_blank_not_empty in Hblank.
    destruct (lower (strip k)); [congruence|]. simpl in Hbound. nia.
  - split; [|discriminate].
    rewrite term_value_word by exact Hblank.
    etransitivity; [apply count_occ_bound | apply findall_token_count].
Qed.

Lemma counts_bounded_by_text_witness :
  In (u "A A", 2)
     (count_terms_in_text (L := ascii_lower) (u "a a a a") [u "A A"]) /\
  2 <= length (lower (Lower := ascii_lower) (u "a a a a")) /\
  (has_blank (lower (Lower := ascii_lower) (strip (u "A A"))) = true ->
   2 * length (lower (Lower := ascii_lower) (strip (u "A A")))
   <= length (lower (Lower := ascii_lower) (u "a a a a"))).
Proof.
  split; [now left|].
  apply (@counts_bounded_by_text ascii_lower (u "a a a a") [u "A A"]).
  now left.
Defined.

(** ** The shape of the matches *)

Lemma star_loop_lang r k :
  (forall k', lang_cont r k' (rmatch r k')) ->
  forall fuel, lang_cont (Star r) k (star_loop (rmatch r) k fuel).
Proof.
  intros Hr. induction fuel as [|fuel IH]; intros prev s rest; simpl.
  - intro H. exists [], s, prev. repeat split; [constructor | exact H].
  - match goal with |- context [rmatch r ?kk prev s] => set (round := kk) end.
    destruct (rmatch r round prev s) as [rest0|] eqn:E.
    + intros [= <-].
      destruct (Hr round _ _ _ E) as [m1 [t1 [p1 [-> [Hm1 Hround]]]]].
      unfold round in Hround.
      destruct (length t1 <? length (m1 ++ t1)); [|discriminate].
      destruct (IH _ _ _ Hround) as [m2 [t2 [p2 [-> [Hm2 Hk]]]]].
      exists (m1 ++ m2), t2, p2. rewrite <- app_assoc.
      repeat split; [now constructor | exact Hk].
    + intro H. exists [], s, prev. repeat split; [constructor | exact H].
Qed.

(** A match found by the matcher has the shape of the pattern. *)
Lemma rmatch_lang r : forall k, lang_cont r k (rmatch r k).
Proof.
  induction r as [|c|cl|r1 IH1 r2 IH2|r1 IH1|cl|cl];
    intros k prev s rest; simpl.
  - intro H. exists [], s, prev. repeat split; [constructor | exact H].
  - destruct s as [|x s]; [discriminate|].
    destruct (N.eqb_spec x c) as [->|]; [|discriminate].
    intro H. exists [c], s, (Some c).
    repeat split; [constructor | exact H].
  - destruct s as [|x s]; [discriminate|].
    destruct (class_mem cl x) eqn:E; [|discriminate].
    intro H. exists [x], s, (Some x).
    repeat split; [now constructor | exact H].
  - intro H.
    destruct (IH1 _ _ _ _ H) as [m1 [t1 [p1 [-> [Hm1 H1]]]]].
    destruct (IH2 _ _ _ _ H1) as [m2 [t2 [p2 [-> [Hm2 H2]]]]].
    exists (m1 ++ m2), t2, p2. rewrite <- app_assoc.
    repeat split; [now constructor | exact H2].
  - apply star_loop_lang. exact IH1.
  - intro H. exists [], s, prev. repeat split; [constructor|].
    destruct prev as [x|]; [destruct (class_mem cl x); [discriminate|]|];
      exact H.
  - intro H. exists [], s, prev. repeat split; [constructor|].
    destruct s as [|x s]; [|destruct (class_mem cl x); [discriminate|]];
      exact H.
Qed.

Lemma match_at_lang r prev s rest :
  match_at r prev s = Some rest -> exists m, s = m ++ rest /\ lang r m.
Proof.
  intro H. destruct (@rmatch_lang r _ _ _ _ H) as [m [t [p [-> [Hm [= ->]]]]]].
  eauto.
Qed.

Lemma findall_lang r s t : In t (findall r s) -> lang r t.
Proof.
  intro H. unfold findall in H. apply in_map_iff in H.
  destruct H as [[i m] [Hm Hin]]. simpl in Hm. subst m.
  destruct (@finditer_sound r s [] 0 i t Hin) as [pre' [rest [_ [_ [_ H]]]]].
  destruct (match_at_lang _ _ _ H) as [m [E Hlang]].
  apply app_inv_tail in E. now subst m.
Qed.

Lemma lang_star_class cl m :
  lang (Star (Cls cl)) m -> forallb (class_mem cl) m = true.
Proof.
  intro H. remember (Star (Cls cl)) as r eqn:E.
  induction H as [| | | |r0|r0 m1 m2 H1 _ H2 IH2| |]; try discriminate.
  - reflexivity.
  - injection E as ->. inversion H1; subst. cbn [app forallb].
    rewrite IH2 by reflexivity. now rewrite andb_true_r.
Qed.

Lemma lang_plus_class cl m :
  lang (Plus (Cls cl)) m ->
  exists x m', m = x :: m' /\ forallb (class_mem cl) (x :: m') = true.
Proof.
  intro H. inversion H as [| | |r1 r2 m1 m2 H1 H2| | | |]; subst.
  inversion H1; subst. apply lang_star_class in H2.
  exists x, m2. cbn [app forallb]. split; [reflexivity|].
  now rewrite H2, andb_true_r.
Qed.

Lemma all_alnum_ends x m :
  forallb (class_mem alnum_class) (x :: m) = true -> alnum_ends (x :: m).
Proof.
  intro H. split.
  - exists x, m. split; [reflexivity|].
    cbn [forallb] in H. apply andb_true_iff in H. destruct H as [H _].
    unfold alnum_class in H. now rewrite class_mem_alnum in H.
  - destruct (@exists_last _ (x :: m)) as [front [c E]]; [discriminate|].
    exists front, c. split; [exact E|].
    rewrite E, forallb_app in H. apply andb_true_iff in H.
    destruct H as [_ H]. cbn [forallb] in H. rewrite andb_true_r in H.
    unfold alnum_class in H. now rewrite class_mem_alnum in H.
Qed.

Lemma alnum_ends_after_front front m :
  (exists c rest, front ++ m = c :: rest /\ is_alnum c = true) ->
  alnum_ends m -> alnum_ends (front ++ m).
Proof.
  intros Hfirst [_ [f [c [-> Hc]]]]. split; [exact Hfirst|].
  exists (front ++ f), c. now rewrite app_assoc.
Qed.

(** The blocks joined to a word end with an alphabet character. *)
Lemma lang_joined_blocks m :
  lang (Star joined_block) m ->
  m = [] \/ exists front c, m = front ++ [c] /\ is_alnum c = true.
Proof.
  intro H. remember (Star joined_block) as r eqn:E.
  induction H as [| | | |r0|r0 m1 m2 H1 _ H2 IH2| |]; try discriminate.
  - now left.
  - injection E as ->. right.
    destruct (IH2 eq_refl) as [->|[front [c [-> Hc]]]].
    + rewrite app_nil_r.
      inversion H1 as [| | |r1 r2 p a Hp Ha| | | |]; subst.
      apply lang_plus_class in Ha. destruct Ha as [x [a' [-> Hall]]].
      destruct (all_alnum_ends _ _ Hall) as [_ [f [c [E Hc]]]].
      exists (p ++ f), c. now rewrite E, app_assoc.
    + exists (m1 ++ front), c. now rewrite app_assoc.
Qed.

Lemma lang_token_pattern m : lang token_pattern m -> alnum_ends m.
Proof.
  intro H. inversion H as [| | |r1 r2 a g Ha Hg| | | |]; subst.
  apply lang_plus_class in Ha. destruct Ha as [x [a' [-> Hall]]].
  pose proof (all_alnum_ends _ _ Hall) as [Hfirst Hlast].
  destruct (lang_joined_blocks Hg) as [->|[front [c [-> Hc]]]].
  - rewrite app_nil_r. now split.
  - split.
    + destruct Hfirst as [c0 [rest [[= <- <-] Hc0]]].
      exists x, (a' ++ front ++ [c]). auto.
    + exists ((x :: a') ++ front), c. now rewrite app_assoc.
Qed.

(** X8. Every token of the compound-token vocabulary begins and ends with
    an alphabet character and holds no whitespace; so a word term that
    begins or ends with another character, such as "-a" or "a.", is
    reported with the count 0 whatever the text. *)
Theorem compound_token_shape {L : Lower} :
  (forall s t,
     In t (findall token_pattern s) ->
     alnum_ends t /\ existsb is_space t = false) /\
  (forall text terms original,
     In original terms -> retained original = true ->
     has_blank (lower (strip original)) = false ->
     ~ alnum_ends (lower (strip original)) ->
     dict_get (count_terms_in_text text terms) original = Some 0).
Proof.
  split.
  - intros s t Hin. split.
    + apply lang_token_pattern. exact (findall_lang _ _ _ Hin).
    + exact (token_no_space _ _ Hin).
  - intros text terms original Hin Hr Hword Hshape.
    rewrite count_terms_in_text_retained by assumption.
    f_equal. rewrite term_value_word by exact Hword.
    apply count_occ_not_In. intro Htok. apply Hshape.
    apply lang_token_pattern. exact (findall_lang _ _ _ Htok).
Qed.

Lemma compound_token_shape_witness :
  findall token_pattern (u "-a.b- c!") = [u "a.b"; u "c"] /\
  alnum_ends (u "a.b") /\
  dict_get (count_terms_in_text (L := ascii_lower) (u "-a a") [u "-a"; u "a"])
           (u "-a") = Some 0 /\
  count_terms_in_text (L := ascii_lower) (u "-a a") [u "-a"; u "a"]
  = [(u "-a", 0); (u "a", 2)].
Proof.
  pose proof (@compound_token_shape ascii_lower) as [Hshape Hzero].
  split; [reflexivity|]. split.
  - apply (Hshape (u "-a.b- c!")). now left.
  - split; [|reflexivity].
    apply Hzero; [now left | reflexivity | reflexivity |].
    intros [[c [rest [[= <- _] Hc]]] _]. discriminate.
Defined.

(** ** Trimming twice *)

Lemma lstrip_lstrip s : lstrip (lstrip s) = lstrip s.
Proof.
  induction s as [|c s IH]; simpl; [reflexivity|].
  destruct (is_space c) eqn:E; [exact IH|]. simpl. now rewrite E.
Qed.

Lemma rstrip_rstrip s : rstrip (rstrip s) = rstrip s.
Proof. unfold rstrip. now rewrite rev_involutive, lstrip_lstrip. Qed.

Lemma lstrip_snoc s x :
  is_space x = false -> lstrip (s ++ [x]) = lstrip s ++ [x].
Proof.
  intro H. induction s as [|c s IH]; simpl; [now rewrite H|].
  destruct (is_space c); [exact IH | reflexivity].
Qed.

Lemma rstrip_cons x s : is_space x = false -> rstrip (x :: s) = x :: rstrip s.
Proof.
  intro H. unfold rstrip. simpl. rewrite lstrip_snoc by exact H.
  now rewrite rev_unit.
Qed.

Lemma lstrip_head s :
  match lstrip s with [] => True | c :: _ => is_space c = false end.
Proof.
  induction s as [|c s IH]; simpl; [exact I|].
  destruct (is_space c) eqn:E; [exact IH | exact E].
Qed.

Lemma lstrip_id s :
  match s with [] => True | c :: _ => is_space c = false end ->
  lstrip s = s.
Proof. destruct s as [|c s]; simpl; [auto|]. now intros ->. Qed.

(** Trimming a trimmed string changes nothing. *)
Lemma strip_strip s : strip (strip s) = strip s.
Proof.
  unfold strip at 1. rewrite lstrip_id.
  - unfold strip. apply rstrip_rstrip.
  - unfold strip. pose proof (lstrip_head s) as H.
    destruct (lstrip s) as [|c t]; [exact I|].
    now rewrite rstrip_cons.
Qed.

Lemma In_lstrip c s : In c (lstrip s) -> In c s.
Proof.
  induction s as [|x s IH]; simpl; [auto|].
  destruct (is_space x); [right; auto | auto].
Qed.

Lemma In_strip c s : In c (strip s) -> In c s.
Proof.
  unfold strip, rstrip. intro H. apply In_lstrip.
  apply in_rev in H. apply In_lstrip in H. now apply in_rev in H.
Qed.

Lemma strip_no_space s : existsb is_space s = false -> strip s = s.
Proof.
  intro H.
  assert (Hall : forall x, In x s -> is_space x = false).
  { intros x Hx. destruct (is_space x) eqn:E; [|reflexivity].
    assert (existsb is_space s = true)
      by (apply existsb_exists; eauto). congruence. }
  assert (Hl : forall t, (forall x, In x t -> is_space x = false) ->
                         lstrip t = t).
  { intros t Ht. apply lstrip_id. destruct t; [exact I|].
    apply Ht. now left. }
  unfold strip, rstrip. rewrite (Hl s Hall), Hl.
  - apply rev_involutive.
  - intros x Hx. apply Hall. now apply in_rev.
Qed.

(** ** The terms of the command line *)

Lemma split_comma_not_empty s : split_comma s <> [].
Proof.
  destruct s as [|c s]; simpl; [discriminate|].
  destruct (N.eqb c 44); [discriminate|].
  destruct (split_comma s); discriminate.
Qed.

Lemma join_cons sep p parts :
  parts <> [] -> join sep (p :: parts) = p ++ sep ++ join sep parts.
Proof. destruct parts; [congruence | reflexivity]. Qed.

(** Splitting at the commas and joining with commas gives the text back. *)
Lemma join_split_comma s : join [44%N] (split_comma s) = s.
Proof.
  induction s as [|c s IH]; simpl; [reflexivity|].
  destruct (N.eqb_spec c 44) as [->|Hne].
  - rewrite join_cons by apply split_comma_not_empty. simpl. now rewrite IH.
  - pose proof (split_comma_not_empty s) as Hs.
    destruct (split_comma s) as [|p parts]; [congruence|].
    destruct parts as [|q parts]; simpl in *; now rewrite <- IH.
Qed.

Lemma length_split_comma s :
  length (split_comma s) = S (count_occ N.eq_dec s 44%N).
Proof.
  induction s as [|c s IH]; simpl; [reflexivity|].
  destruct (N.eqb_spec c 44) as [->|Hne].
  - destruct (N.eq_dec 44 44); [|congruence]. simpl. now rewrite IH.
  - destruct (N.eq_dec c 44); [congruence|].
    pose proof (split_comma_not_empty s) as Hs.
    destruct (split_comma s) as [|p parts]; [congruence|]. exact IH.
Qed.

Lemma In_split_comma s piece x :
  In piece (split_comma s) -> In x piece -> In x s /\ x <> 44%N.
Proof.
  revert piece. induction s as [|c s IH]; intros piece; simpl.
  - intros [<-|[]] [].
  - destruct (N.eqb_spec c 44) as [->|Hne].
    + intros [<-|Hin] Hx; [destruct Hx|].
      destruct (IH _ Hin Hx). auto.
    + pose proof (split_comma_not_empty s) as Hs.
      destruct (split_comma s) as [|p parts]; [congruence|].
      intros [<-|Hin] Hx.
      * destruct Hx as [<-|Hx]; [auto|].
        destruct (IH p (or_introl eq_refl) Hx). auto.
      * destruct (IH piece (or_intror Hin) Hx). auto.
Qed.

Lemma parse_terms_trimmed raw t :
  In t (parse_terms raw) -> strip t = t /\ ~ In 44%N t.
Proof.
  unfold parse_terms. destruct (is_empty raw); [intros []|].
  intro Ht. apply in_map_iff in Ht. destruct Ht as [p [<- Hp]].
  split; [apply strip_strip|].
  intro Hc. apply In_strip in Hc.
  destruct (@In_split_comma _ _ _ Hp Hc) as [_ H]. congruence.
Qed.

(** X9. The terms read from the command line are the pieces of the
    argument between its commas, each trimmed: there is one more term than
    there are commas, joining the pieces with commas gives the argument
    back, and no term holds a comma or has whitespace at either end; an
    empty argument gives no term. *)
Theorem parse_terms_pieces :
  parse_terms [] = [] /\
  forall raw,
    raw <> [] ->
    exists pieces,
      join [44%N] pieces = raw /\
      parse_terms raw = map strip pieces /\
      length (parse_terms raw) = S (count_occ N.eq_dec raw 44%N) /\
      forall t, In t (parse_terms raw) -> strip t = t /\ ~ In 44%N t.
Proof.
  split; [reflexivity|]. intros raw Hraw.
  assert (E : parse_terms raw = map strip (split_comma raw))
    by (destruct raw; [congruence | reflexivity]).
  exists (split_comma raw). rewrite E.
  split; [apply join_split_comma|]. split; [reflexivity|]. split.
  - rewrite length_map. apply length_split_comma.
  - intros t Ht. apply (@parse_terms_trimmed raw). now rewrite E.
Qed.

Lemma parse_terms_pieces_witness :
  u " a ,, b c ," <> [] /\
  parse_terms (u " a ,, b c ,") = [u "a"; []; u "b c"; []] /\
  exists pieces,
    join [44%N] pieces = u " a ,, b c ," /\
    parse_terms (u " a ,, b c ,") = map strip pieces.
Proof.
  split; [discriminate|]. split; [reflexivity|].
  destruct (proj2 parse_terms_pieces (u " a ,, b c ,"))
    as [pieces [H1 [H2 _]]]; [discriminate|].
  exists pieces. auto.
Defined.

(** X10. Whatever the text and the terms argument of the command line, no
    key of the result is empty, has whitespace at either end or holds a
    comma. *)
Theorem cli_keys_trimmed {L : Lower} text raw d k :
  build_result text (Some (parse_terms raw)) = Ok (CountMap d) ->
  In k (keys d) ->
  k <> [] /\ strip k = k /\ ~ In 44%N k.
Proof.
  intros Hres Hk. unfold keys in Hk. apply in_map_iff in Hk.
  destruct Hk as [[k' v] [E Hin]]. simpl in E. subst k'.
  destruct (has_terms (Some (parse_terms raw))) eqn:Hterms.
  - destruct (strip text) eqn:Etext.
    { rewrite build_result_blank in Hres by exact Etext. discriminate. }
    assert (Htext : strip text <> []) by (rewrite Etext; discriminate).
    rewrite has_terms_Some in Hterms.
    destruct (build_result_terms text _ Htext Hterms) as [m [_ E]].
    rewrite E in Hres. injection Hres as <-.
    apply In_tie_inclusive_max in Hin; [|apply count_terms_in_text_NoDup].
    destruct Hin as [Hin _]. apply count_terms_in_text_In in Hin.
    destruct Hin as [Hin [Hr _]].
    destruct (@parse_terms_trimmed raw k Hin) as [Hs Hc].
    rewrite retained_strip, Hs in Hr.
    split; [|auto]. intros ->. discriminate.
  - destruct (word_mode_result text _ Hterms Hres) as [m ->].
    destruct (tie_of_counter_entry _ _ _ _ Hin) as [Htok _].
    destruct (Runs_In k (findall_word_runs (lower text)) Htok) as [Hne Hall].
    split; [exact Hne|].
    rewrite forallb_forall in Hall. split.
    + apply strip_no_space. apply not_true_is_false. intro H.
      apply existsb_exists in H. destruct H as [c [Hc Hsp]].
      apply Hall, is_alnum_not_space in Hc. congruence.
    + intro Hc. apply Hall in Hc. discriminate.
Qed.

Lemma cli_keys_trimmed_witness :
  build_result (L := ascii_lower) (u "b c a") (Some (parse_terms (u " a , ,b c")))
  = Ok (CountMap [(u "a", 1); (u "b c", 1)]) /\
  In (u "b c") (keys [(u "a", 1); (u "b c", 1)]) /\
  u "b c" <> [] /\ strip (u "b c") = u "b c" /\ ~ In 44%N (u "b c").
Proof.
  split; [reflexivity|]. split; [right; now left|].
  apply (@cli_keys_trimmed ascii_lower (u "b c a") (u " a , ,b c")
           [(u "a", 1); (u "b c", 1)]);
    [reflexivity | right; now left].
Defined.

Lemma split_comma_blank raw piece :
  forallb (fun c => is_space c || N.eqb c 44) raw = true ->
  In piece (split_comma raw) -> forallb is_space piece = true.
Proof.
  intros Hraw Hin. apply forallb_forall. intros x Hx.
  destruct (@In_split_comma _ _ _ Hin Hx) as [Hx' Hne].
  rewrite forallb_forall in Hraw. specialize (Hraw x Hx').
  apply orb_true_iff in Hraw. destruct Hraw as [H|H]; [exact H|].
  apply N.eqb_eq in H. congruence.
Qed.

Lemma has_terms_parse_blank raw :
  forallb (fun c => is_space c || N.eqb c 44) raw = true ->
  has_terms (Some (parse_terms raw)) = false.
Proof.
  intro Hraw. apply has_terms_blank. apply forallb_forall.
  intros t Ht. unfold parse_terms in Ht.
  destruct (is_empty raw); [destruct Ht|].
  apply in_map_iff in Ht. destruct Ht as [piece [<- Hin]].
  rewrite strip_strip. apply is_empty_true, strip_nil_iff.
  now apply (split_comma_blank raw).
Qed.

(** ** The printed form *)









(** ** The program *)

Lemma io_bind_ext {A B} (m : io A) (f g : A -> io B) w :
  (forall a w', f a w' = g a w') -> io_bind m f w = io_bind m g w.
Proof.
  intro H. unfold io_bind. destruct (m w) as [[a|e] w']; auto.
Qed.

Lemma io_bind_ret {A B} (a : A) (f : A -> io B) w :
  io_bind (io_ret a) f w = f a w.
Proof. reflexivity. Qed.

Ltac effects_facts :=
  split; [lia|]; split; [reflexivity|]; split; [discriminate|].

Lemma effects_ret {A} ok (a : A) : effects ok 0 (io_ret a).
Proof.
  intros [i o]. exists 0, [], (Done a). simpl. rewrite app_nil_r.
  effects_facts. eauto.
Qed.

Lemma effects_weaken {A} ok k k' (m : io A) :
  k <= k' -> effects ok k m -> effects ok k' m.
Proof.
  intros Hle H w. destruct (H w) as [j [out [r [Hj [E [Hcore Hdone]]]]]].
  exists j, out, r.
  split; [lia|]. split; [exact E|]. split; [exact Hcore|].
  intros Hlen Hok. apply Hdone; [lia | exact Hok].
Qed.

Lemma effects_strengthen {A} (ok ok' : Prop) k (m : io A) :
  (ok' -> ok) -> effects ok k m -> effects ok' k m.
Proof.
  intros Himp H w. destruct (H w) as [j [out [r [Hj [E [Hcore Hdone]]]]]].
  exists j, out, r.
  split; [exact Hj|]. split; [exact E|]. split; [exact Hcore|].
  intros Hlen Hok. apply Hdone; [exact Hlen | now apply Himp].
Qed.

Lemma effects_input ok prompt : effects ok 1 (input prompt).
Proof.
  intros [i o]. unfold input. simpl.
  destruct i as [|line i]; simpl.
  - exists 1, prompt, (Failed EOFError). simpl.
    effects_facts. lia.
  - exists 1, prompt, (Done line). simpl.
    effects_facts. eauto.
Qed.

Lemma effects_print ok s : effects ok 0 (print s).
Proof.
  intros [i o]. exists 0, (s ++ [10%N]), (Done tt). simpl.
  effects_facts. eauto.
Qed.

Lemma effects_bind {A B} ok k1 k2 (m : io A) (f : A -> io B) :
  effects ok k1 m -> (forall a, effects ok k2 (f a)) ->
  effects ok (k1 + k2) (io_bind m f).
Proof.
  intros Hm Hf w. unfold io_bind.
  destruct (Hm w) as [j1 [out1 [r1 [Hj1 [E1 [Hcore1 Hdone1]]]]]].
  rewrite E1. destruct r1 as [a|e].
  - destruct (Hf a {| stdin := skipn j1 (stdin w);
                      stdout := stdout w ++ out1 |})
      as [j2 [out2 [r2 [Hj2 [E2 [Hcore2 Hdone2]]]]]].
    simpl in *. exists (j1 + j2), (out1 ++ out2), r2.
    rewrite E2, skipn_skipn, app_assoc, (Nat.add_comm j2 j1).
    split; [lia|]. split; [reflexivity|]. split; [exact Hcore2|].
    intros Hlen Hok. apply Hdone2; [|exact Hok].
    rewrite length_skipn. lia.
  - exists j1, out1, (Failed e).
    split; [lia|]. split; [reflexivity|]. split.
    { intros e0 [= ->]. now apply (Hcore1 e0). }
    intros Hlen Hok. destruct Hdone1 as [a Ha]; [lia | exact Hok|].
    discriminate.
Qed.

Section ProgramFacts.

Context {L : Lower}.
Variable read_text : str -> option str.

Let readable : Prop := forall p, read_text p <> None.

Lemma effects_load_text text file_path :
  effects readable 0 (load_text read_text text file_path).
Proof.
  unfold load_text. destruct text as [t|]; [apply effects_ret|].
  destruct file_path as [p|]; [|apply effects_ret].
  destruct (read_text p) as [content|] eqn:E; [apply effects_ret|].
  intros [i o]. exists 0, [], (Failed ReadError). simpl. rewrite app_nil_r.
  effects_facts. intros _ Hok. destruct (Hok p E).
Qed.

Lemma effects_build_result text terms :
  effects readable 0 (io_of_outcome (build_result text terms)).
Proof.
  destruct (build_result_returns text terms) as [r ->]. apply effects_ret.
Qed.

Lemma effects_json_print d : effects readable 0 (_json_print d).
Proof.
  unfold _json_print. destruct (Nat.leb 2 (length (keys d)));
    apply effects_print.
Qed.

Lemma effects_parse_args args :
  effects (exclusive args) 0 (parse_args args).
Proof.
  unfold parse_args.
  destruct (arg_text args) as [t|] eqn:Et; [|apply effects_ret].
  destruct (arg_file args) as [f|] eqn:Ef; [|apply effects_ret].
  intros [i o]. exists 0, [], (Failed (SystemExit 2)). simpl.
  rewrite app_nil_r. effects_facts.
  intros _ [H | H]; congruence.
Qed.

Lemma effects_main args :
  effects (readable /\ exclusive args) 3 (main read_text args).
Proof.
  unfold main. set (ok := readable /\ exclusive args).
  assert (Hread : ok -> readable) by (unfold ok; tauto).
  apply (@effects_bind _ _ ok 0 3).
  { apply (@effects_strengthen _ (exclusive args)); [unfold ok; tauto|].
    apply effects_parse_args. }
  intro parsed.
  apply (@effects_bind _ _ ok 2 1).
  - destruct (arg_text parsed), (arg_file parsed);
      try (apply (@effects_weaken _ ok 0 2); [lia | apply effects_ret]).
    apply (@effects_bind _ _ ok 1 1); [apply effects_input|].
    intro mode_line.
    destruct (str_eqb (lower (strip mode_line)) (u "file"));
      (apply (@effects_bind _ _ ok 1 0);
       [apply effects_input | intro; apply effects_ret]).
  - intro source. apply (@effects_bind _ _ ok 1 0).
    + destruct (arg_terms parsed).
      * apply (@effects_weaken _ ok 0 1); [lia | apply effects_ret].
      * apply (@effects_bind _ _ ok 1 0);
          [apply effects_input | intro; apply effects_ret].
    + intro raw_terms.
      apply (@effects_bind _ _ ok 0 0).
      { apply (@effects_strengthen _ readable); [exact Hread|].
        apply effects_load_text. }
      intro base_text.
      apply (@effects_bind _ _ ok 0 0).
      { apply (@effects_strengthen _ readable); [exact Hread|].
        apply effects_build_result. }
      intro result.
      apply (@effects_strengthen _ readable); [exact Hread|].
      apply effects_json_print.
Qed.

End ProgramFacts.

(** X12. A run of the program reads at most three lines, only adds to the
    output and never fails with an exception of the analysis.  When
    [--text] and [--file] are not both given, it succeeds whenever three
    lines are there to be read and every file can be read; when both are
    given, it exits with status 2 and has read and written nothing. *)
Theorem main_effects {L : Lower} read_text args w :
  exists lines_read written r,
    lines_read <= 3 /\
    main read_text args w
    = (r, {| stdin := skipn lines_read (stdin w);
             stdout := stdout w ++ written |}) /\
    (forall e, r <> Failed (Core e)) /\
    (arg_text args = None \/ arg_file args = None ->
     3 <= length (stdin w) -> (forall p, read_text p <> None) ->
     r = Done tt) /\
    (arg_text args <> None -> arg_file args <> None ->
     r = Failed (SystemExit 2) /\ lines_read = 0 /\ written = []).
Proof.
  destruct (arg_text args) as [t|] eqn:Et, (arg_file args) as [f|] eqn:Ef.
  1: { exists 0, [], (Failed (SystemExit 2)).
       split; [lia|]. split.
       { unfold main, parse_args. rewrite Et, Ef. destruct w as [i o].
         simpl. now rewrite app_nil_r. }
       split; [discriminate|]. split; [|auto].
       intros [H | H]; discriminate. }
  all: destruct (effects_main read_text args w)
         as [j [out [r [Hj [E [Hcore Hdone]]]]]];
       exists j, out, r;
       (split; [exact Hj|]); (split; [exact E|]); (split; [exact Hcore|]);
       (split; [|intros; congruence]);
       intros Hex Hlen Hok;
       (destruct Hdone as [[] ->];
        [exact Hlen | split; [exact Hok | unfold exclusive; now rewrite Et, Ef]
        | reflexivity]).
Qed.

(** X13. With [--text] and [--terms] given and no [--file], the program
    asks nothing: it reads no line and no file, and writes only the result
    of [build_result] on the text and the terms between the commas, as one
    JSON document and a newline. *)
Theorem main_with_arguments {L : Lower} read_text args text raw w :
  arg_text args = Some text -> arg_file args = None ->
  arg_terms args = Some raw ->
  exists r,
    build_result text (Some (parse_terms raw)) = Ok r /\
    main read_text args w
    = (Done tt,
       {| stdin := stdin w;
          stdout := stdout w
                    ++ json_dumps (if Nat.leb 2 (length (result_dict r))
                                   then Some 2 else None) (result_dict r)
                    ++ [10%N] |}).
Proof.
  intros Htext Hfile Hterms.
  destruct (build_result_returns text (Some (parse_terms raw))) as [r Hr].
  exists r. split; [exact Hr|].
  unfold main, parse_args. rewrite Htext, Hfile. destruct w as [i o].
  rewrite io_bind_ret, Htext, Hfile, Hterms.
  cbn -[build_result parse_terms _json_print Nat.leb].
  rewrite Hr. cbn -[json_dumps result_dict _json_print Nat.leb].
  unfold _json_print, keys. rewrite length_map.
  destruct (Nat.leb 2 (length (result_dict r))); reflexivity.
Qed.

Lemma main_with_arguments_witness :
  let args := {| arg_text := Some (u "b a B"); arg_file := None;
                 arg_terms := Some (u "a, b") |} in
  arg_text args = Some (u "b a B") /\ arg_file args = None /\
  arg_terms args = Some (u "a, b") /\
  main (L := ascii_lower) (fun _ => None) args
       {| stdin := [u "unread"]; stdout := [] |}
  = (Done tt, {| stdin := [u "unread"]; stdout := [123; 34; 98; 34; 58; 32; 50; 125; 10]%N |}).
Proof.
  split; [reflexivity|]. split; [reflexivity|]. split; [reflexivity|].
  destruct (@main_with_arguments ascii_lower (fun _ => None)
              {| arg_text := Some (u "b a B"); arg_file := None;
                 arg_terms := Some (u "a, b") |}
              (u "b a B") (u "a, b")
              {| stdin := [u "unread"]; stdout := [] |}
              eq_refl eq_refl eq_refl)
    as [r [Hr ->]].
  vm_compute in Hr. injection Hr as <-. reflexivity.
Defined.

(** X14. A terms argument made of commas and whitespace only is no term
    at all: the program does what it does for an empty terms argument,
    and [build_result] what it does without terms. *)
Theorem main_blank_terms {L : Lower} read_text text file_path raw w :
  forallb (fun c => is_space c || N.eqb c 44) raw = true ->
  main read_text {| arg_text := text; arg_file := file_path;
                    arg_terms := Some raw |} w
  = main read_text {| arg_text := text; arg_file := file_path;
                      arg_terms := Some [] |} w /\
  forall base_text,
    build_result base_text (Some (parse_terms raw))
    = build_result base_text None.
Proof.
  intro Hraw.
  assert (Hsame : forall base_text other,
            has_terms other = false ->
            build_result base_text (Some (parse_terms raw))
            = build_result base_text other).
  { intros base_text other Hother. apply build_result_no_terms;
      [now apply has_terms_parse_blank | exact Hother]. }
  split; [|intro; now apply Hsame].
  unfold main, parse_args. cbn [arg_text arg_file arg_terms].
  destruct text as [t|], file_path as [f|]; [reflexivity | | |];
    rewrite !io_bind_ret; cbn [arg_text arg_file arg_terms];
    (apply io_bind_ext; intros source w1;
     rewrite !io_bind_ret; cbv zeta;
     apply io_bind_ext; intros base_text w2;
     now rewrite (Hsame base_text (Some (parse_terms [])))).
Qed.

Lemma main_blank_terms_witness :
  forallb (fun c => is_space c || N.eqb c 44) (u " , ,") = true /\
  main (L := ascii_lower) (fun _ => None)
       {| arg_text := Some (u "cat cat dog"); arg_file := None;
          arg_terms := Some (u " , ,") |} {| stdin := []; stdout := [] |}
  = (Done tt, {| stdin := []; stdout := [123; 34; 99; 97; 116; 34; 58; 32; 50; 125; 10]%N |}).
Proof.
  split; [reflexivity|].
  etransitivity;
    [exact (proj1 (@main_blank_terms ascii_lower (fun _ => None)
                     (Some (u "cat cat dog")) None (u " , ,")
                     {| stdin := []; stdout := [] |} eq_refl))
    | reflexivity].
Defined.

(** X15. Punctuation that touches whitespace or an end of the text is
    part of no token: characters outside the alphabet before a word add
    nothing to the vocabulary, and a word followed by punctuation and then
    whitespace or the end of the text is a token by itself, so that the
    word is counted in "word, ..." as in "word ...". *)
Theorem boundary_punctuation_dropped :
  (forall q s,
     forallb (fun c => negb (is_alnum c)) q = true ->
     findall token_pattern (q ++ s) = findall token_pattern s) /\
  (forall a p rest,
     a <> [] -> forallb is_alnum a = true ->
     forallb is_punct p = true -> space_or_end rest = true ->
     findall token_pattern (a ++ p ++ rest)
     = a :: findall token_pattern rest).
Proof.
  split; [exact findall_token_skip|].
  intros a p rest Ha Haall Hp Hrest.
  unfold findall at 1. unfold finditer.
  replace (a ++ p ++ rest) with (a ++ (p ++ rest)) by reflexivity.
  rewrite finditer_from_match;
    [|exact Ha | now apply match_at_token_word_punct].
  cbn [map snd]. f_equal. rewrite findall_token_from.
  apply findall_token_skip. now apply punct_not_alnum.
Qed.

Lemma boundary_punctuation_dropped_witness :
  findall token_pattern (u "(hello), world!") = [u "hello"; u "world"] /\
  findall token_pattern (u "hello" ++ u ")," ++ u " world!")
  = u "hello" :: findall token_pattern (u " world!") /\
  build_result (L := ascii_lower) (u "(hello), world!") (Some [u "hello"])
  = Ok (CountMap [(u "hello", 1)]).
Proof.
  split; [reflexivity|]. split; [|reflexivity].
  apply (proj2 boundary_punctuation_dropped (u "hello") (u "),") (u " world!"));
    [discriminate | reflexivity | reflexivity | reflexivity].
Defined.

(** X16. With [--file] and [--terms] given and no [--text], the program
    analyses the content of the file without asking anything; when the
    file cannot be read it fails before it writes anything. *)
Theorem main_with_file {L : Lower} read_text args path raw w :
  arg_text args = None -> arg_file args = Some path ->
  arg_terms args = Some raw ->
  match read_text path with
  | Some content =>
      exists r,
        build_result content (Some (parse_terms raw)) = Ok r /\
        main read_text args w
        = (Done tt,
           {| stdin := stdin w;
              stdout := stdout w
                        ++ json_dumps (if Nat.leb 2 (length (result_dict r))
                                       then Some 2 else None) (result_dict r)
                        ++ [10%N] |})
  | None => main read_text args w = (Failed ReadError, w)
  end.
Proof.
  intros Htext Hfile Hterms. unfold main, parse_args. rewrite Htext.
  destruct w as [i o]. rewrite io_bind_ret, Htext, Hfile, Hterms.
  cbn -[build_result parse_terms _json_print Nat.leb].
  destruct (read_text path) as [content|]; [|reflexivity].
  destruct (build_result_returns content (Some (parse_terms raw))) as [r Hr].
  exists r. split; [exact Hr|].
  cbn -[build_result parse_terms _json_print Nat.leb].
  rewrite Hr. cbn -[json_dumps result_dict _json_print Nat.leb].
  unfold _json_print, keys. rewrite length_map.
  destruct (Nat.leb 2 (length (result_dict r))); reflexivity.
Qed.

Lemma main_with_file_witness :
  let args := {| arg_text := None; arg_file := Some (u "in.txt");
                 arg_terms := Some [] |} in
  let disk := fun p => if str_eqb p (u "in.txt")
                       then Some (u "A b, a B.") else None in
  arg_text args = None /\ arg_file args = Some (u "in.txt") /\
  arg_terms args = Some [] /\
  main (L := ascii_lower) disk args {| stdin := []; stdout := [] |}
  = (Done tt,
     {| stdin := [];
        stdout := [123; 10; 32; 32; 34; 97; 34; 58; 32; 50; 44; 10; 32; 32;
                   34; 98; 34; 58; 32; 50; 10; 125; 10]%N |}) /\
  main (L := ascii_lower) disk
       {| arg_text := None; arg_file := Some (u "none.txt");
          arg_terms := Some [] |} {| stdin := []; stdout := [] |}
  = (Failed ReadError, {| stdin := []; stdout := [] |}).
Proof.
  split; [reflexivity|]. split; [reflexivity|]. split; [reflexivity|]. split.
  - reflexivity.
  - exact (@main_with_file ascii_lower
             (fun p => if str_eqb p (u "in.txt")
                       then Some (u "A b, a B.") else None)
             {| arg_text := None; arg_file := Some (u "none.txt");
                arg_terms := Some [] |}
             (u "none.txt") [] {| stdin := []; stdout := [] |}
             eq_refl eq_refl eq_refl).
Defined.

Lemma main_effects_witness :
  let w := {| stdin := [u " Text "; u "Cat cat dog"; u "dog, cat"; u "left"];
              stdout := [] |} in
  let no_flags := {| arg_text := None; arg_file := None;
                     arg_terms := None |} in
  main (L := ascii_lower) (fun _ => Some []) no_flags w
  = (Done tt,
     {| stdin := [u "left"];
        stdout := prompt_mode ++ prompt_text ++ prompt_terms
                  ++ [123; 34; 99; 97; 116; 34; 58; 32; 50; 125; 10]%N |}) /\
  (exists lines_read written r,
    lines_read <= 3 /\
    main (L := ascii_lower) (fun _ => Some []) no_flags w
    = (r, {| stdin := skipn lines_read (stdin w);
             stdout := stdout w ++ written |}) /\
    (forall e, r <> Failed (Core e)) /\
    r = Done tt) /\
  main (L := ascii_lower) (fun _ => Some [])
       {| arg_text := Some (u "a"); arg_file := Some (u "in.txt");
          arg_terms := None |} w
  = (Failed (SystemExit 2), w).
Proof.
  split; [reflexivity|]. split; [|reflexivity].
  destruct (@main_effects ascii_lower (fun _ => Some [])
              {| arg_text := None; arg_file := None; arg_terms := None |}
              {| stdin := [u " Text "; u "Cat cat dog"; u "dog, cat";
                           u "left"];
                 stdout := [] |})
    as [n [out [r [H1 [H2 [H3 [H4 _]]]]]]].
  exists n, out, r.
  split; [exact H1|]. split; [exact H2|]. split; [exact H3|].
  apply H4; [now left | simpl; lia | intro; discriminate].
Defined.
